(** * angular-redux3/store: entity adapter, memoized selectors, store
      configuration, lazy reducers and state rehydration

    A shallow embedding of the parts of the library that its specification
    makes checkable statements about, followed by the statements.

    Conventions of the embedding.
    - A JavaScript object used as a dictionary is a finite map from property
      keys (strings) to its own properties.  Reading [obj[key]] goes on to
      [Object.prototype] when [obj] has no own property [key]: under keys
      such as "constructor" or "toString" it finds a member of the
      prototype, which is truthy and not [undefined].  A lookup that yields
      [undefined] is [None].
    - An entity id has type [string | number].  Indexing an object with a
      number converts it to the string JavaScript prints for it, and a
      number is given here by that string, which tells numbers apart (0 and
      -0, which are equal, print alike).  NaN, the one number that differs
      from itself, is kept apart.  [===] and [!==] on ids never identify a
      number with a string.
    - Entities are objects, hence truthy and different from [undefined].
      At run time the members of [Object.prototype] are values like any
      other, and the type of entities is read as holding them too.
    - Mutable closures and singletons become explicit state records threaded
      through the operations; calls to user callbacks are recorded in a log
      kept in that state. *)

From Stdlib Require OrderedTypeEx.
From stdpp Require Import gmap strings list sorting pretty.

(** ** Part I: definitions *)

(** *** Entity adapter (entity-adapter.ts) *)

(** The property names of [Object.prototype], which every object written
    as a literal inherits. *)
Definition objectPrototypeNames : list string :=
  ["constructor"; "__defineGetter__"; "__defineSetter__"; "hasOwnProperty";
   "__lookupGetter__"; "__lookupSetter__"; "isPrototypeOf";
   "propertyIsEnumerable"; "toString"; "valueOf"; "__proto__";
   "toLocaleString"].

Module Entity.

(** [Object.prototype] as the code meets it: what [obj[key]] gives when
    [obj] has no own property [key], read at the type of the entities
    (under "__proto__" that is [Object.prototype] itself).  An instance
    for a type of entities has [objectPrototypeNames] as its keys. *)
Class ObjectPrototype (T : Type) := objectPrototype : gmap string T.

(** [string | number] *)
Inductive Id : Type :=
| IdNum (printed : string)
    (** a number other than NaN, given by what [String] makes of it: "1",
        "-2", "1.5", "1e+21", "Infinity" *)
| IdNaN
| IdStr (s : string).

#[global] Instance Id_eq_dec : EqDecision Id.
Proof. solve_decision. Defined.

(** The number that is the integer [n]; integers of magnitude below 10^21
    are printed in decimal. *)
Definition numberId (n : Z) : Id := IdNum (pretty n).

(** The property key [entities[id]] reads or writes: the string itself,
    or the number as a string. *)
Definition toKey (i : Id) : string :=
  match i with
  | IdNum printed => printed
  | IdNaN => "NaN"
  | IdStr s => s
  end.

(** [a === b] on ids: the same string or the same number, and not NaN. *)
Definition strictlyEqual (a b : Id) : Prop := a = b ∧ a ≠ IdNaN.

#[global] Instance strictlyEqual_dec a b : Decision (strictlyEqual a b).
Proof. unfold strictlyEqual. apply _. Defined.

(** interface EntityState<T>; the additional properties that
    [getInitialState(additionalState)] merges in are left out. *)
Record EntityState (T : Type) : Type := mkState {
  ids : list Id;
  entities : gmap string T;
}.
Arguments mkState {T} _ _.
Arguments ids {T} _.
Arguments entities {T} _.

(** interface EntityAdapterConfig<T>, with [selectId] already defaulted. *)
Record EntityAdapterConfig (T : Type) : Type := mkConfig {
  selectId : T → Id;
  sortComparer : option (T → T → Z);
}.
Arguments mkConfig {T} _ _.
Arguments selectId {T} _ _.
Arguments sortComparer {T} _.

(** { id, changes } *)
Record Update (C : Type) : Type := mkUpdate {
  upd_id : Id;
  changes : C;
}.
Arguments mkUpdate {C} _ _.
Arguments upd_id {C} _.
Arguments changes {C} _.

(** [Array.prototype.sort(cmp)] for a consistent comparator: the stable
    sort, written as an insertion sort in which [x] is placed before the
    first element that does not have to precede it.  For a comparator
    that is not consistent the order is left to the implementation, and
    this function then describes one permutation among those possible. *)
Fixpoint sort_insert {T} (cmp : T → T → Z) (x : T) (l : list T) : list T :=
  match l with
  | [] => [x]
  | y :: l' =>
      if decide (cmp x y ≤ 0)%Z then x :: y :: l'
      else y :: sort_insert cmp x l'
  end.

Fixpoint js_sort {T} (cmp : T → T → Z) (l : list T) : list T :=
  match l with
  | [] => []
  | x :: l' => sort_insert cmp x (js_sort cmp l')
  end.

Section adapter.
Context {T C : Type} {prototype : ObjectPrototype T}.
(** [{ ...existing, ...changes }] for [changes : Partial<T>]. *)
Variable spread : T → C → T.
Variable config : EntityAdapterConfig T.

(** [obj[key]]: the own property, else the member of [Object.prototype]
    of that name, else [undefined]. *)
Definition getProperty (obj : gmap string T) (key : string) : option T :=
  match obj !! key with
  | Some v => Some v
  | None => objectPrototype !! key
  end.

(** [state.entities[id]] *)
Definition lookupEntity (state : EntityState T) (id : Id) : option T :=
  getProperty (entities state) (toKey id).

(** [obj[key] = value] on an object literal's result: the assignment
    creates or overwrites the own property, except under "__proto__" when
    [Object.prototype] provides that accessor: then it makes [value] the
    prototype of [obj] and creates no property.  (What is read from [obj]
    through its new prototype afterwards is not described.) *)
Definition assignProperty (key : string) (value : T) (obj : gmap string T)
  : gmap string T :=
  if decide (key = "__proto__" ∧ is_Some (objectPrototype !! key)) then obj
  else <[key := value]> obj.

(** [state.ids.map(id => state.entities[id])] *)
Definition mapIds (state : EntityState T) : list (option T) :=
  lookupEntity state <$> ids state.

(** [state.ids.map(id => state.entities[id]).filter(Boolean)] *)
Definition selectAll (state : EntityState T) : list T :=
  omap (lookupEntity state) (ids state).

Definition sortEntities (state : EntityState T) : EntityState T :=
  match sortComparer config with
  | None => state
  | Some cmp =>
      let sortedEntities := js_sort cmp (selectAll state) in
      mkState (selectId config <$> sortedEntities) (entities state)
  end.

Definition getInitialState : EntityState T := mkState [] ∅.

Definition addOne (state : EntityState T) (entity : T) : EntityState T :=
  let id := selectId config entity in
  match lookupEntity state id with
  | Some _ => state
  | None =>
      sortEntities
        (mkState (ids state ++ [id]) (<[toKey id := entity]> (entities state)))
  end.

Definition addMany (state : EntityState T) (es : list T) : EntityState T :=
  foldl addOne state es.

Definition setAll (state : EntityState T) (es : list T) : EntityState T :=
  let newEntities :=
    foldl (λ m e, assignProperty (toKey (selectId config e)) e m)
          (∅ : gmap string T) es in
  let ids := foldl (λ l e, l ++ [selectId config e]) [] es in
  sortEntities (mkState ids newEntities).

Definition setOne (state : EntityState T) (entity : T) : EntityState T :=
  let id := selectId config entity in
  let exists_ := bool_decide (is_Some (lookupEntity state id)) in
  sortEntities
    (mkState (if exists_ then ids state else ids state ++ [id])
             (<[toKey id := entity]> (entities state))).

Definition removeOne (state : EntityState T) (id : Id) : EntityState T :=
  match lookupEntity state id with
  | None => state
  | Some _ =>
      mkState (filter (λ existingId, ¬ strictlyEqual existingId id) (ids state))
              (delete (toKey id) (entities state))
  end.

Definition removeMany (state : EntityState T) (l : list Id) : EntityState T :=
  foldl removeOne state l.

Definition removeAll (_state : EntityState T) : EntityState T := mkState [] ∅.

Definition updateOne (state : EntityState T) (update : Update C) : EntityState T :=
  match lookupEntity state (upd_id update) with
  | None => state
  | Some existing =>
      let updated := spread existing (changes update) in
      sortEntities
        (mkState (ids state) (<[toKey (upd_id update) := updated]> (entities state)))
  end.

Definition updateMany (state : EntityState T) (us : list (Update C)) : EntityState T :=
  foldl updateOne state us.

Definition upsertOne (state : EntityState T) (entity : T) : EntityState T :=
  let id := selectId config entity in
  match lookupEntity state id with
  | Some _ => setOne state entity
  | None => addOne state entity
  end.

Definition upsertMany (state : EntityState T) (es : list T) : EntityState T :=
  foldl upsertOne state es.

(** The eleven state-transforming operations of the adapter, reified. *)
Inductive Op : Type :=
| AddOne (e : T)
| AddMany (es : list T)
| SetAll (es : list T)
| SetOne (e : T)
| RemoveOne (id : Id)
| RemoveMany (l : list Id)
| RemoveAll
| UpdateOne (u : Update C)
| UpdateMany (us : list (Update C))
| UpsertOne (e : T)
| UpsertMany (es : list T).

Definition apply (state : EntityState T) (o : Op) : EntityState T :=
  match o with
  | AddOne e => addOne state e
  | AddMany es => addMany state es
  | SetAll es => setAll state es
  | SetOne e => setOne state e
  | RemoveOne id => removeOne state id
  | RemoveMany l => removeMany state l
  | RemoveAll => removeAll state
  | UpdateOne u => updateOne state u
  | UpdateMany us => updateMany state us
  | UpsertOne e => upsertOne state e
  | UpsertMany es => upsertMany state es
  end.

End adapter.

End Entity.

(** *** Conditions on entity states and on the arguments of operations *)

Module EntityInv.
Import Entity.

Section conditions.
Context {T C : Type} {prototype : ObjectPrototype T}.
Variable spread : T → C → T.
Variable config : EntityAdapterConfig T.

(** The invariant of [EntityState]: [ids] has no duplicates and its
    members are exactly the keys of [entities]. *)
Definition stateInvariant (s : EntityState T) : Prop :=
  NoDup (ids s) ∧ list_to_set (toKey <$> ids s) =@{gset string} dom (entities s).

#[global] Instance stateInvariant_dec s : Decision (stateInvariant s).
Proof. unfold stateInvariant. apply _. Defined.

(** Every entity is stored under the key of its own id. *)
Definition keyed (s : EntityState T) : Prop :=
  ∀ k e, entities s !! k = Some e → toKey (selectId config e) = k.

(** The invariant in the form the operations maintain: the ids have
    pairwise distinct keys, these keys are exactly the keys of [entities],
    and every entity is stored under the key of its own id. *)
Definition wellFormed (s : EntityState T) : Prop :=
  NoDup (toKey <$> ids s)
  ∧ (∀ k, k ∈ toKey <$> ids s ↔ is_Some (entities s !! k))
  ∧ keyed s.

(** [id] is written the way [ids] has it: a member of [ids] with the key
    of [id] is [===] to it, which is to say that it is not the same key
    in the other representation (number against string) and not NaN. *)
Definition sameRepresentation (s : EntityState T) (id : Id) : Prop :=
  ∀ j, j ∈ ids s → toKey j = toKey id → strictlyEqual j id.

(** The changes of [u] leave the key of the id of the entity alone. *)
Definition keepsKey (u : Update C) : Prop :=
  ∀ e, toKey (selectId config e) = toKey (upd_id u) →
       toKey (selectId config (spread e (changes u))) = toKey (upd_id u).

(** [id] is not the name of a member of [Object.prototype]. *)
Definition ordinary (id : Id) : Prop := objectPrototype !! toKey id = None.

(** The arguments for which the invariant is maintained. *)
Definition admissible (s : EntityState T) (o : Op (T:=T) (C:=C)) : Prop :=
  match o with
  | SetAll es =>
      NoDup (toKey ∘ selectId config <$> es)
      ∧ Forall (λ e, ordinary (selectId config e)) es
  | SetOne e | UpsertOne e => ordinary (selectId config e)
  | UpsertMany es => Forall (λ e, ordinary (selectId config e)) es
  | RemoveOne id => sameRepresentation s id
  | RemoveMany l => Forall (sameRepresentation s) l
  | UpdateOne u => keepsKey u ∧ ordinary (upd_id u)
  | UpdateMany us => Forall (λ u, keepsKey u ∧ ordinary (upd_id u)) us
  | _ => True
  end.

(** [a] may stand before [b]. *)
Definition notAfter (cmp : T → T → Z) (a b : T) : Prop := (cmp a b ≤ 0)%Z.

(** A consistent comparator, as ECMAScript defines it for
    [Array.prototype.sort]: comparing as equal is reflexive, symmetric and
    transitive, and comparing as less and comparing as greater are
    transitive.  (That a comparator gives the same number whenever it is
    called on the same two values is part of its being a function here.)
    For such comparators, and only for them, the language fixes the order
    that [sort] produces. *)
Definition consistentComparer (cmp : T → T → Z) : Prop :=
  (∀ a, cmp a a = 0%Z)
  ∧ (∀ a b, cmp a b = 0%Z → cmp b a = 0%Z)
  ∧ (∀ a b c, cmp a b = 0%Z → cmp b c = 0%Z → cmp a c = 0%Z)
  ∧ (∀ a b c, (cmp a b < 0)%Z → (cmp b c < 0)%Z → (cmp a c < 0)%Z)
  ∧ (∀ a b c, (0 < cmp a b)%Z → (0 < cmp b c)%Z → (0 < cmp a c)%Z).

(** [sorted] is [l] sorted the way [Array.prototype.sort] has to: in
    order, with the elements that compare as equal in the order they had. *)
Definition stableSort (cmp : T → T → Z) (l sorted : list T) : Prop :=
  Sorted (notAfter cmp) sorted
  ∧ ∀ x, filter (λ y, cmp x y = 0%Z) sorted = filter (λ y, cmp x y = 0%Z) l.

(** Every id in [ids] has an entity, stored under the key of its own id,
    and no two ids have the same key. *)
Definition listed (s : EntityState T) : Prop :=
  NoDup (toKey <$> ids s)
  ∧ ∀ i, i ∈ ids s →
         ∃ e, entities s !! toKey i = Some e ∧ toKey (selectId config e) = toKey i.

(** [ids.map(id => entities[id])] consists of entities and is sorted. *)
Definition sortedView (cmp : T → T → Z) (s : EntityState T) : Prop :=
  ∃ l, mapIds s = Some <$> l ∧ Sorted (notAfter cmp) l.

(** What every call on a sorting adapter re-establishes. *)
Definition sortedState (cmp : T → T → Z) (s : EntityState T) : Prop :=
  wellFormed s ∧ sortedView cmp s.

(** The calls the sort invariant speaks of. *)
Definition sortCall (o : Op (T:=T) (C:=C)) : Prop :=
  match o with
  | AddMany _ | SetOne _ => True
  | UpdateOne u => keepsKey u
  | _ => False
  end.

(** The same calls, whatever their arguments. *)
Definition sortCallKind (o : Op (T:=T) (C:=C)) : Prop :=
  match o with
  | AddMany _ | SetOne _ | UpdateOne _ => True
  | _ => False
  end.

End conditions.

End EntityInv.

(** *** The same adapter with object identity made explicit

    Every object literal of the source allocates a fresh object; [return
    state] hands back the reference it was given.  States live in a store
    indexed by references, and an operation maps a reference to a reference. *)

Module EntityRef.
Import Entity.

Definition Ref : Type := nat.

(** The store: every [EntityState] object created so far. *)
Abbreviation Heap T := (list (Entity.EntityState T)).

Section adapter.
Context {T C : Type} {prototype : ObjectPrototype T}.
Variable spread : T → C → T.
Variable config : EntityAdapterConfig T.

(** Evaluating an object literal. *)
Definition alloc (s : EntityState T) (h : Heap T) : Ref * Heap T :=
  (length h, h ++ [s]).

Definition sortEntities (state : Ref) (h : Heap T) : option (Ref * Heap T) :=
  s ← h !! state;
  match sortComparer config with
  | None => Some (state, h)
  | Some cmp =>
      let sortedEntities := js_sort cmp (selectAll s) in
      Some (alloc (mkState (selectId config <$> sortedEntities) (entities s)) h)
  end.

Definition addOne (state : Ref) (entity : T) (h : Heap T) : option (Ref * Heap T) :=
  s ← h !! state;
  let id := selectId config entity in
  match lookupEntity s id with
  | Some _ => Some (state, h)
  | None =>
      let '(newState, h1) :=
        alloc (mkState (ids s ++ [id]) (<[toKey id := entity]> (entities s))) h in
      sortEntities newState h1
  end.

Definition removeOne (state : Ref) (id : Id) (h : Heap T) : option (Ref * Heap T) :=
  s ← h !! state;
  match lookupEntity s id with
  | None => Some (state, h)
  | Some _ =>
      Some (alloc (mkState (filter (λ existingId, ¬ strictlyEqual existingId id) (ids s))
                           (delete (toKey id) (entities s))) h)
  end.

Definition updateOne (state : Ref) (update : Update C) (h : Heap T)
  : option (Ref * Heap T) :=
  s ← h !! state;
  match lookupEntity s (upd_id update) with
  | None => Some (state, h)
  | Some existing =>
      let updated := spread existing (changes update) in
      let '(newState, h1) :=
        alloc (mkState (ids s) (<[toKey (upd_id update) := updated]> (entities s))) h in
      sortEntities newState h1
  end.

End adapter.

End EntityRef.

(** *** A concrete entity type: the [User] of the adapter's documentation *)

Module Users.
Import Entity.

(** interface User { id: number; name: string }, the ids being integers
    of magnitude below 10^21 *)
Record User : Type := mkUser {
  id : Z;
  name : string;
}.

(** Partial<User> *)
Record PartialUser : Type := mkPartial {
  p_id : option Z;
  p_name : option string;
}.

(** [{ ...existing, ...changes }] *)
Definition spreadUser (existing : User) (c : PartialUser) : User :=
  mkUser (default (id existing) (p_id c)) (default (name existing) (p_name c)).

(** [a.localeCompare(b)], taken as the order of the code units; the two
    agree on the capitalised ASCII names used below. *)
Definition localeCompare (a b : string) : Z :=
  match String.compare a b with
  | Lt => (-1)%Z
  | Eq => 0%Z
  | Gt => 1%Z
  end.

(** [Object.prototype] read at type [User].  Its members are functions;
    ids here are numbers, so that no key of the examples is the name of a
    member and none of them is ever read: each is entered as a user with
    id 0 and the name of the member. *)
#[global] Instance userPrototype : ObjectPrototype User :=
  (list_to_map ((λ member, (member, mkUser 0 member)) <$> objectPrototypeNames)
   : gmap string User).

(** createEntityAdapter<User>({ selectId: u => u.id }) *)
Definition plainAdapter : EntityAdapterConfig User :=
  mkConfig (λ u, numberId (id u)) None.

(** createEntityAdapter<User>({ selectId: u => u.id,
      sortComparer: (a, b) => a.name.localeCompare(b.name) }) *)
Definition sortedAdapter : EntityAdapterConfig User :=
  mkConfig (λ u, numberId (id u)) (Some (λ a b, localeCompare (name a) (name b))).

End Users.

(** *** Entities with strings as ids, and the members of [Object.prototype] *)

Module Notes.
Import Entity.

(** Objects that may have an [id] and a [title], both strings: the notes
    [{ id, title }], the changes [{ title }] of an update, and the members
    of [Object.prototype], which have neither property. *)
Record Note : Type := mkNote {
  id : option string;
  title : option string;
}.

(** [{ ...existing, ...changes }]: a property of [changes] replaces that
    of [existing]. *)
Definition spreadNote (existing changes : Note) : Note :=
  mkNote (match id changes with Some i => Some i | None => id existing end)
         (match title changes with Some t => Some t | None => title existing end).

(** A member of [Object.prototype], and [Object.prototype] itself: read
    as a note it has no [id] and no [title], and spreading it copies
    nothing, its properties not being enumerable. *)
Definition member : Note := mkNote None None.

#[global] Instance notePrototype : ObjectPrototype Note :=
  (list_to_map ((λ name, (name, member)) <$> objectPrototypeNames)
   : gmap string Note).

(** createEntityAdapter<Note>({ selectId: n => String(n.id) }) *)
Definition adapter : EntityAdapterConfig Note :=
  mkConfig (λ n, IdStr (default "undefined" (id n))) None.

End Notes.

(** *** What a call produces: a value or an exception *)

Inductive Outcome (A : Type) : Type :=
| Returned (a : A)
| Thrown (message : string).
Arguments Returned {A} _.
Arguments Thrown {A} _.

(** *** Memoized selectors (create-selector.ts) *)

Module Selector.

Section createSelector.
(** [S]: states; [V]: what input selectors return; [R]: results. *)
Context {S V R : Type}.
(** [a !== b], for [a] among the inputs of this invocation and [b] among
    those of the invocation cached.  On primitive values it compares the
    values, except that NaN differs from itself; on objects it compares
    references, so that an object built during this invocation differs
    from every object of an earlier one, whatever the contents: the value
    a selector such as [s => [s.a]] returns differs from itself. *)
Variable differ : V → V → bool.
Variable undefined : R.
(** The input selectors; each is taken to return. *)
Variable selectors : list (S → V).
(** The result function, applied to the spread inputs; it may throw. *)
Variable resultFn : list V → Outcome R.

(** The variables captured by the closure, with a log of the argument lists
    [resultFn] has been invoked on (oldest first).  The log is not a
    variable of the source: it is how invocations are counted. *)
Record Closure : Type := mkClosure {
  lastInputs : option (list V);
  lastResult : R;
  recomputationsVar : nat;
  resultFnCalls : list (list V);
}.

Definition create : Closure := mkClosure None undefined 0 [].

(** The [for] loop over [currentInputs], the lengths being equal. *)
Fixpoint allEqual (currentInputs last : list V) : bool :=
  match currentInputs, last with
  | c :: cs, l :: ls => if differ c l then false else allEqual cs ls
  | _, _ => true
  end.

Definition cacheHit (currentInputs : list V) (w : Closure) : bool :=
  match lastInputs w with
  | Some last =>
      bool_decide (length currentInputs = length last)
      && allEqual currentInputs last
  | None => false
  end.

(** [selectors.map(sel => sel(state))] *)
Definition evalSelectors (state : S) : list V :=
  (λ sel, sel state) <$> selectors.

(** On a miss [lastInputs] and the counter are assigned first and
    [resultFn] is called then: when it throws the two assignments stay and
    [lastResult] keeps what it held. *)
Definition memoizedSelector (state : S) (w : Closure) : Outcome R * Closure :=
  let currentInputs := evalSelectors state in
  if cacheHit currentInputs w then (Returned (lastResult w), w)
  else
    let assigned :=
      mkClosure (Some currentInputs) (lastResult w)
                (Datatypes.S (recomputationsVar w))
                (resultFnCalls w ++ [currentInputs]) in
    match resultFn currentInputs with
    | Returned result =>
        (Returned result,
         mkClosure (lastInputs assigned) result (recomputationsVar assigned)
                   (resultFnCalls assigned))
    | Thrown e => (Thrown e, assigned)
    end.

Definition release (w : Closure) : Closure :=
  mkClosure None undefined 0 (resultFnCalls w).

Definition recomputations (w : Closure) : nat := recomputationsVar w.

(** Successive invocations on a list of states. *)
Definition invokeAll (states : list S) (w : Closure) : Closure :=
  foldl (λ w st, snd (memoizedSelector st w)) w states.

(** On [state] every input selector returns what [!==] does not tell
    apart from what it returned on [state] before: the same reference or
    the same primitive value, and not NaN. *)
Definition stable (state : S) : Prop :=
  Forall (λ sel, differ (sel state) (sel state) = false) selectors.

End createSelector.

End Selector.

(** *** NgRedux store configuration (ng-redux.service.ts) *)

Module NgRedux.

(** What is subscribed to the underlying redux store: the callback
    [setStore] installs, or a listener handed to [subscribe]. *)
Inductive Listener : Type :=
| StoreSync
| UserListener (n : nat).

Section service.
(** The [ReducerService] singleton lives in reducer.service.ts, which is not
    among the sources; its state and [composeReducers] are parameters. *)
Context {RootState Action Middleware ReducerServiceState : Type}.

Definition Reducer : Type := RootState → Action → RootState.

(** The redux store object. *)
Record Store : Type := mkStore {
  currentState : RootState;
  currentReducer : Reducer;
  currentListeners : list Listener;
}.

Definition StoreCreator : Type := Reducer → RootState → Store.
Definition StoreEnhancer : Type := StoreCreator → StoreCreator.

(** redux's [createStore]. *)
Variable createStore : StoreCreator.

Variable composeReducers :
  Reducer → list Middleware → ReducerServiceState → Reducer * ReducerServiceState.

(** redux's [compose]: [compose(f, g, h)] is [x => f(g(h(x)))], and
    [compose()] is the identity. *)
Definition compose (fs : list StoreEnhancer) : StoreEnhancer :=
  foldr (λ f g, f ∘ g) id fs.

(** The fields of an [NgRedux] instance, the values pushed into its
    [_store$] subject, and the [ReducerService] singleton. *)
Record World : Type := mkWorld {
  _store : option Store;
  _store_emitted : list RootState;
  _unsubscribe : option Listener;
  reducerService : ReducerServiceState;
}.

(** A freshly constructed instance. *)
Definition fresh (svc : ReducerServiceState) : World :=
  mkWorld None [] None svc.

(** redux's [store.subscribe]. *)
Definition storeSubscribe (l : Listener) (store : Store) : Store :=
  mkStore (currentState store) (currentReducer store)
          (currentListeners store ++ [l]).

Definition setStore (store : Store) (w : World) : World :=
  mkWorld (Some (storeSubscribe StoreSync store))
          (_store_emitted w ++ [currentState store])
          (Some StoreSync)
          (reducerService w).

Definition configureStore (reducer : Reducer) (initState : RootState)
    (middleware : list Middleware) (enhancers : list StoreEnhancer)
    (w : World) : Outcome unit * World :=
  match _store w with
  | Some _ => (Thrown "Store already initialize!", w)
  | None =>
      let '(rootReducer, svc) :=
        composeReducers reducer middleware (reducerService w) in
      let store := compose enhancers createStore rootReducer initState in
      (Returned (),
       setStore store
         (mkWorld (_store w) (_store_emitted w) (_unsubscribe w) svc))
  end.

(** [getState] and [subscribe] dereference [_store]; on an instance that
    is not configured that is a [TypeError]. *)
Definition getState (w : World) : Outcome RootState :=
  match _store w with
  | Some store => Returned (currentState store)
  | None => Thrown "TypeError"
  end.

Definition subscribe (listener : nat) (w : World) : Outcome unit * World :=
  match _store w with
  | Some store =>
      (Returned (),
       mkWorld (Some (storeSubscribe (UserListener listener) store))
               (_store_emitted w) (_unsubscribe w) (reducerService w))
  | None => (Thrown "TypeError", w)
  end.

End service.

End NgRedux.

(** *** Lazy reducer loading (lazy-reducer.ts) *)

Module Lazy.

(** Reducers are functions; what matters here is which function is
    installed where, so they are represented by how they were built. *)
#[warnings="-register-all"]
Inductive Reducer : Type :=
| RUser (name : string)
    (** a reducer supplied by the caller *)
| RCombine (reducers : list (string * Reducer))
    (** [combineReducers(reducers)] *)
| RBaseMerge (base : Reducer) (dynamicReducer : option Reducer)
             (keys : list string)
    (** the arrow function of [getCombinedReducer] that runs [base] and
        merges the slices in *)
| RIdentity.
    (** [(state = {}) => state] *)

(** { type: string } *)
Record Action : Type := mkAction {
  type : string;
}.

(** Change listeners, told apart by identity; what a listener does when
    it is called is not modelled, the call is. *)
Definition Listener : Type := nat.

(** A plain object as an insertion-ordered dictionary. *)
Fixpoint getProp {A} (key : string) (o : list (string * A)) : option A :=
  match o with
  | [] => None
  | (k, v) :: o' => if decide (k = key) then Some v else getProp key o'
  end.

Fixpoint setProp {A} (key : string) (v : A) (o : list (string * A))
  : list (string * A) :=
  match o with
  | [] => [(key, v)]
  | (k, x) :: o' =>
      if decide (k = key) then (k, v) :: o' else (k, x) :: setProp key v o'
  end.

Definition deleteProp {A} (key : string) (o : list (string * A))
  : list (string * A) :=
  filter (λ kv, kv.1 ≠ key) o.

(** The value of a decimal digit. *)
Definition digitValue (c : Ascii.ascii) : option N :=
  let n := Ascii.N_of_ascii c in
  if decide (48 ≤ n ≤ 57)%N then Some (n - 48)%N else None.

Fixpoint numeral (acc : N) (s : string) : option N :=
  match s with
  | EmptyString => Some acc
  | String c s' => d ← digitValue c; numeral (10 * acc + d) s'
  end.

(** A key that is an array index: the decimal numeral, without leading
    zeros, of an integer from 0 to 2^32 - 2. *)
Definition arrayIndex (key : string) : option N :=
  match key with
  | EmptyString => None
  | String c rest =>
      n ← numeral 0 key;
      if decide ((digitValue c = Some 0%N → rest = EmptyString)
                 ∧ (n < 4294967295)%N)
      then Some n else None
  end.

(** The order of keys that are array indices. *)
Definition indexLe (a b : N * string) : Prop := (a.1 ≤ b.1)%N.

#[global] Instance indexLe_dec a b : Decision (indexLe a b).
Proof. unfold indexLe. apply _. Defined.

(** [Object.keys(o)]: the keys that are array indices first, in ascending
    order, then the other keys in the order in which they were created. *)
Definition objectKeys {A} (o : list (string * A)) : list string :=
  (merge_sort indexLe
     (omap (λ key, (λ n, (n, key)) <$> arrayIndex key) o.*1)).*2
  ++ filter (λ key, arrayIndex key = None) o.*1.

(** The private fields of [ReducerRegistry].  [reducerMap] is an object
    written as [{}]: its own properties, and its prototype, which is
    [Object.prototype] until an assignment under "__proto__" makes a
    reducer the prototype ([reducerMapPrototype]).  From then on reads and
    assignments under other keys go through the properties of that
    function ([name], [length], [call], ...), which are not described:
    what follows is the behaviour of a registry whose [reducerMap] has
    [Object.prototype] for prototype. *)
Record Registry : Type := mkRegistry {
  reducerMap : list (string * Reducer);
  reducerMapPrototype : option Reducer;
  baseReducer : option Reducer;
  listeners : list Listener;
}.

(** What the outside observes. *)
Inductive Event : Type :=
| Notified (l : Listener)
    (** a change listener was called *)
| ReplacedReducer (next : Reducer)
    (** [ReducerService.replaceReducer(next)] *)
| Dispatched (a : Action).
    (** the store dispatched [a] *)

(** The [ReducerRegistry] singleton, the active root reducer held by the
    [ReducerService] singleton, whether the [NgRedux] store is configured,
    and the events so far (oldest first). *)
Record World : Type := mkWorld {
  registry : Registry;
  activeReducer : option Reducer;
  storeConfigured : bool;
  trace : list Event;
}.

Definition newRegistry : Registry := mkRegistry [] None None [].

Definition emit (evs : list Event) (w : World) : World :=
  mkWorld (registry w) (activeReducer w) (storeConfigured w) (trace w ++ evs).

Definition withRegistry (r : Registry) (w : World) : World :=
  mkWorld r (activeReducer w) (storeConfigured w) (trace w).

Definition setBaseReducer (reducer : Reducer) (w : World) : World :=
  let r := registry w in
  withRegistry
    (mkRegistry (reducerMap r) (reducerMapPrototype r) (Some reducer) (listeners r)) w.

Definition notifyListeners (w : World) : World :=
  emit (Notified <$> listeners (registry w)) w.

(** [this.reducerMap[key] = reducer]: the assignment creates or overwrites
    the own property, except under the key "__proto__", where it makes the
    reducer the prototype of [reducerMap] and creates no property. *)
Definition register (key : string) (reducer : Reducer) (w : World) : World :=
  let r := registry w in
  notifyListeners
    (withRegistry
       (if decide (key = "__proto__")
        then mkRegistry (reducerMap r) (Some reducer) (baseReducer r) (listeners r)
        else mkRegistry (setProp key reducer (reducerMap r))
                        (reducerMapPrototype r) (baseReducer r) (listeners r)) w).

(** Whether [this.reducerMap[key]] is truthy: it is when the key is an
    own property, whose value is a reducer, and also when it is the name
    of a member of [Object.prototype], which the lookup then finds. *)
Definition reducerMapHas (key : string) (r : Registry) : bool :=
  match getProp key (reducerMap r) with
  | Some _ => true
  | None => bool_decide (key ∈ objectPrototypeNames)
  end.

(** [delete] removes the own property, if there is one. *)
Definition unregister (key : string) (w : World) : World :=
  let r := registry w in
  if reducerMapHas key r then
    notifyListeners
      (withRegistry
         (mkRegistry (deleteProp key (reducerMap r)) (reducerMapPrototype r)
                     (baseReducer r) (listeners r)) w)
  else w.

Definition getCombinedReducer (r : Registry) : Reducer :=
  let reducers := reducerMap r in
  let keys := objectKeys reducers in
  match baseReducer r with
  | Some base =>
      if bool_decide (length keys = 0) then base
      else
        let dynamicReducer :=
          if bool_decide (0 < length keys) then Some (RCombine reducers)
          else None in
        RBaseMerge base dynamicReducer keys
  | None =>
      if bool_decide (0 < length keys) then RCombine reducers
      else RIdentity
  end.

Definition getRegisteredKeys (r : Registry) : list string :=
  objectKeys (reducerMap r).

(** [onChange(listener)] and the unsubscribe function it returns. *)
Definition onChange (listener : Listener) (w : World) : World :=
  let r := registry w in
  withRegistry
    (mkRegistry (reducerMap r) (reducerMapPrototype r) (baseReducer r)
                (listeners r ++ [listener])) w.

Definition onChange_unsubscribe (listener : Listener) (w : World) : World :=
  let r := registry w in
  withRegistry
    (mkRegistry (reducerMap r) (reducerMapPrototype r) (baseReducer r)
                (filter (λ l, l ≠ listener) (listeners r))) w.

(** Modelled from the spec: [ReducerService.replaceReducer(nextReducer)]
    of reducer.service.ts, which swaps the active root reducer for the next
    dispatch onward. *)
Definition replaceReducer (next : Reducer) (w : World) : World :=
  emit [ReplacedReducer next]
    (mkWorld (registry w) (Some next) (storeConfigured w) (trace w)).

(** [NgRedux.dispatch], as far as this file depends on it: it throws on a
    store that is not configured and otherwise dispatches. *)
Definition dispatch (a : Action) (w : World) : Outcome Action * World :=
  if storeConfigured w then (Returned a, emit [Dispatched a] w)
  else (Thrown "Dispatch failed: store instance not initialize.", w).

(** The types of the actions dispatched in a trace, in order. *)
Definition dispatchedTypes (evs : list Event) : list string :=
  omap (λ ev, match ev with Dispatched a => Some (type a) | _ => None end) evs.

(** The function [loadReducer] returns. *)
Definition unload (key : string) (w : World) : World :=
  let w1 := unregister key w in
  let updatedReducer := getCombinedReducer (registry w1) in
  replaceReducer updatedReducer w1.

Definition loadReducer (key : string) (reducer : Reducer) (w : World)
  : Outcome (World → World) * World :=
  let w1 := register key reducer w in
  let combinedReducer := getCombinedReducer (registry w1) in
  let w2 := replaceReducer combinedReducer w1 in
  match dispatch (mkAction ("@@LAZY_REDUCER/INIT/" +:+ key)) w2 with
  | (Returned _, w3) => (Returned (unload key), w3)
  | (Thrown e, w3) => (Thrown e, w3)
  end.

End Lazy.

(** *** State rehydration (hydration.ts) *)

Module Hydration.

(** string | null | undefined *)
Inductive Serialized : Type :=
| SNull
| SUndefined
| SString (raw : string).

(** [!serialized] *)
Definition falsy (serialized : Serialized) : bool :=
  match serialized with
  | SString raw => bool_decide (raw = EmptyString)
  | _ => true
  end.

Section rehydrate.
Context {RootState : Type}.

(** [JSON.parse], read at type [RootState]. *)
Variable JSON_parse : string → Outcome RootState.

(** Result of a call together with the inputs the deserializer was invoked
    on during the call. *)
Record Run : Type := mkRun {
  outcome : Outcome RootState;
  deserialized : list string;
}.

(** [deserializer ? deserializer(raw) : JSON.parse(raw)] *)
Definition deserialize (deserializer : option (string → Outcome RootState))
    (raw : string) : Outcome RootState :=
  match deserializer with
  | Some d => d raw
  | None => JSON_parse raw
  end.

Definition rehydrateState (serialized : Serialized) (fallback : RootState)
    (deserializer : option (string → Outcome RootState)) : Run :=
  if falsy serialized then mkRun (Returned fallback) []
  else
    match serialized with
    | SString raw =>
        match deserialize deserializer raw with
        | Returned state => mkRun (Returned state) [raw]
        | Thrown _ => mkRun (Returned fallback) [raw]
        end
    | _ => mkRun (Returned fallback) []
    end.

End rehydrate.

End Hydration.

(** *** Inputs used to exercise the statements below *)

Module Fixtures.

(** A deserializer that accepts every input, the empty string included. *)
Definition lenientDeserializer (raw : string) : Outcome nat :=
  Returned (String.length raw).

Definition failingParse (raw : string) : Outcome nat := Thrown "SyntaxError".

(** A counter store: states are integers, actions are their type strings,
    there is no middleware, and the [ReducerService] keeps the list of
    root reducers it was asked to compose. *)
Definition counterReducer (state : Z) (action : string) : Z :=
  if decide (action = "INCREMENT") then (state + 1)%Z else state.

Definition constReducer (state : Z) (action : string) : Z := 0%Z.

Definition plainCreateStore
  : @NgRedux.StoreCreator Z string :=
  λ reducer initState, NgRedux.mkStore initState reducer [].

Definition recordingCompose (reducer : @NgRedux.Reducer Z string)
    (middleware : list unit) (svc : list (@NgRedux.Reducer Z string))
  : @NgRedux.Reducer Z string * list (@NgRedux.Reducer Z string) :=
  (reducer, svc ++ [reducer]).

(** [new NgRedux()], then [configureStore(counterReducer, 0)], then
    [subscribe(listener 1)]. *)
Definition configuredOnce : @NgRedux.World Z string (list (@NgRedux.Reducer Z string)) :=
  let w1 :=
    snd (NgRedux.configureStore plainCreateStore recordingCompose
           counterReducer 0%Z [] [] (NgRedux.fresh [])) in
  snd (NgRedux.subscribe 1 w1).

(** A configured store, an empty registry and one change listener. *)
Definition lazyConfigured : Lazy.World :=
  Lazy.onChange 1 (Lazy.mkWorld Lazy.newRegistry None true []).

(** The same with a store that was never configured. *)
Definition lazyUnconfigured : Lazy.World :=
  Lazy.mkWorld Lazy.newRegistry None false [].

(** A selector over a state with two fields, summing them:
    [createSelector(s => s.a, s => s.b, (a, b) => a + b)]. *)
Definition pairSelectors : list (Z * Z → Z) := [fst; snd].

(** [a !== b] on numbers. *)
Definition differZ (a b : Z) : bool := bool_decide (a ≠ b).

Definition sumResult (inputs : list Z) : Outcome Z :=
  Returned (foldr Z.add 0%Z inputs).

(** What [s => s.a] and [s => [s.a]] return: a number, or an array that
    the call has built; such an array differs from every other value and
    from the arrays of other calls. *)
Inductive Input : Type :=
| Num (z : Z)
| Built (elements : list Z).

Definition differInput (a b : Input) : bool :=
  match a, b with
  | Num x, Num y => bool_decide (x ≠ y)
  | _, _ => true
  end.

(** [createSelector(s => [s.a], arr => arr.length)] *)
Definition buildingSelectors : list (Z * Z → Input) := [λ s, Built [fst s]].

Definition lengthResult (inputs : list Input) : Outcome Z :=
  match inputs with
  | [Built elements] => Returned (Z.of_nat (length elements))
  | _ => Thrown "TypeError"
  end.

(** [createSelector(s => s.a, a => { if (a < 0) throw new RangeError(); return 2 * a; })] *)
Definition firstSelector : list (Z * Z → Z) := [fst].

Definition doubleOrThrow (inputs : list Z) : Outcome Z :=
  match inputs with
  | [a] => if decide (a < 0)%Z then Thrown "RangeError" else Returned (2 * a)%Z
  | _ => Thrown "TypeError"
  end.

(** [{ id: "toString", title: "Methods" }] *)
Definition methodsNote : Notes.Note :=
  Notes.mkNote (Some "toString") (Some "Methods").

(** [{ id: "constructor", title: "Builders" }] *)
Definition buildersNote : Notes.Note :=
  Notes.mkNote (Some "constructor") (Some "Builders").

(** [{ id: "a", title: "First" }] *)
Definition firstNote : Notes.Note := Notes.mkNote (Some "a") (Some "First").

(** Users and states over them. *)
Definition alice : Users.User := Users.mkUser 1 "Alice".
Definition bob : Users.User := Users.mkUser 2 "Bob".
Definition charlie : Users.User := Users.mkUser 3 "Charlie".

(** [{ ids: [1], entities: { 1: alice } }] *)
Definition onlyAlice : Entity.EntityState Users.User :=
  Entity.addOne Users.plainAdapter Entity.getInitialState alice.

(** [{ ids: [1], entities: { 1: { id: 2, name: "Bob" } } }]: one id, one
    key, the same; but the entity filed under it carries another id. *)
Definition misfiled : Entity.EntityState Users.User :=
  Entity.mkState [Entity.numberId 1] {[ "1" := bob ]}.

(** [{ ids: [NaN], entities: { NaN: alice } }]: one id, one key, the
    same. *)
Definition underNaN : Entity.EntityState Users.User :=
  Entity.mkState [Entity.IdNaN] {[ "NaN" := alice ]}.

(** [addMany(getInitialState(), [alice, bob])] on the sorted adapter. *)
Definition aliceAndBob : Entity.EntityState Users.User :=
  Entity.addMany Users.sortedAdapter Entity.getInitialState [alice; bob].

(** [{ id: 1, changes: { name: "Zed" } }] *)
Definition renameAlice : Entity.Update Users.PartialUser :=
  Entity.mkUpdate (Entity.numberId 1) (Users.mkPartial None (Some "Zed")).

(** [{ id: 1, changes: { id: 5 } }] *)
Definition renumberAlice : Entity.Update Users.PartialUser :=
  Entity.mkUpdate (Entity.numberId 1) (Users.mkPartial (Some 5%Z) None).

(** [(a, b) => a.name.localeCompare(b.name)] *)
Definition byName (a b : Users.User) : Z :=
  Users.localeCompare (Users.name a) (Users.name b).

(** A comparator that describes no order: [(a, b) => 1]. *)
Definition alwaysAfter (a b : Users.User) : Z := 1%Z.

Definition unorderedAdapter : Entity.EntityAdapterConfig Users.User :=
  Entity.mkConfig (λ u, Entity.numberId (Users.id u)) (Some alwaysAfter).

(** [addMany] of Alice (1), Charlie (2) and Bob (3), then [updateOne] with
    [{ id: 1, changes: { id: 2 } }]. *)
Definition renumberingCalls
  : list (Entity.Op (T:=Users.User) (C:=Users.PartialUser)) :=
  [Entity.AddMany [alice; Users.mkUser 2 "Charlie"; Users.mkUser 3 "Bob"];
   Entity.UpdateOne
     (Entity.mkUpdate (Entity.numberId 1) (Users.mkPartial (Some 2%Z) None))].

(** [addMany] of Charlie, Alice and Bob, [setOne] replacing Alice by Zara,
    [updateOne] renaming Bob. *)
Definition renamingCalls
  : list (Entity.Op (T:=Users.User) (C:=Users.PartialUser)) :=
  [Entity.AddMany [charlie; alice; bob];
   Entity.SetOne (Users.mkUser 1 "Zara");
   Entity.UpdateOne
     (Entity.mkUpdate (Entity.numberId 2) (Users.mkPartial None (Some "Dora")))].

End Fixtures.


(** *** The selectors of the entity adapter ([getSelectors]) *)

Module EntitySelectors.

Section selectors.
Context {T : Type} {prototype : Entity.ObjectPrototype T}.

Definition selectIds (state : Entity.EntityState T) : list Entity.Id :=
  Entity.ids state.

Definition selectEntities (state : Entity.EntityState T) : gmap string T :=
  Entity.entities state.

(** [state.ids.map(id => state.entities[id]).filter(Boolean)] *)
Definition selectAll (state : Entity.EntityState T) : list T :=
  omap (Entity.lookupEntity state) (Entity.ids state).

Definition selectTotal (state : Entity.EntityState T) : nat :=
  length (Entity.ids state).

End selectors.

End EntitySelectors.

(** *** A memoized selector in use: invocations and releases *)

Module SelectorUse.

Section use.
Context {S V R : Type}.
Variable differ : V → V → bool.
Variable undefined : R.
Variable selectors : list (S → V).
Variable resultFn : list V → Outcome R.

(** What a holder of the selector can do with it. *)
Inductive Call : Type :=
| Invoke (state : S)
| Release.

Definition step (w : Selector.Closure (V:=V) (R:=R)) (c : Call)
  : Selector.Closure (V:=V) (R:=R) :=
  match c with
  | Invoke state => snd (Selector.memoizedSelector differ selectors resultFn state w)
  | Release => Selector.release undefined w
  end.

Definition runCalls (calls : list Call) (w : Selector.Closure (V:=V) (R:=R))
  : Selector.Closure (V:=V) (R:=R) :=
  foldl step w calls.

(** The cached result is the result for the cached inputs. *)
Definition coherent (w : Selector.Closure (V:=V) (R:=R)) : Prop :=
  ∀ l, Selector.lastInputs w = Some l → resultFn l = Returned (Selector.lastResult w).

(** No state in [states] gives the inputs of the state before it, as
    [!==] sees them. *)
Fixpoint inputsAlternate (states : list S) : Prop :=
  match states with
  | a :: (b :: _) as rest =>
      Selector.allEqual differ (Selector.evalSelectors selectors b)
                        (Selector.evalSelectors selectors a) = false
      ∧ inputsAlternate rest
  | _ => True
  end.

End use.

End SelectorUse.

(** *** The reducer registry in use, and the finite map it implements *)

Module LazyUse.

Inductive RegistryCall : Type :=
| Register (key : string) (reducer : Lazy.Reducer)
| Unregister (key : string).

Definition step (w : Lazy.World) (c : RegistryCall) : Lazy.World :=
  match c with
  | Register key reducer => Lazy.register key reducer w
  | Unregister key => Lazy.unregister key w
  end.

Definition runCalls (calls : list RegistryCall) (w : Lazy.World) : Lazy.World :=
  foldl step w calls.

(** The same calls on a finite map from keys to reducers. *)
Definition stepMap (m : gmap string Lazy.Reducer) (c : RegistryCall)
  : gmap string Lazy.Reducer :=
  match c with
  | Register key reducer => <[key := reducer]> m
  | Unregister key => delete key m
  end.

(** A call that registers nothing under "__proto__". *)
Definition ordinaryCall (c : RegistryCall) : Prop :=
  match c with
  | Register key _ => key ≠ "__proto__"
  | Unregister _ => True
  end.

(** A world with a new registry. *)
Definition newWorld (configured : bool) : Lazy.World :=
  Lazy.mkWorld Lazy.newRegistry None configured [].

End LazyUse.

(** *** Serializing the store ([serializeStore] of hydration.ts) *)

Module Serialization.

Section serialize.
Context {RootState Action ReducerServiceState : Type}.

(** [JSON.stringify], read at type [RootState]. *)
Variable JSON_stringify : RootState → Outcome string.

(** [serializer ? serializer(state) : JSON.stringify(state)] *)
Definition serialize (serializer : option (RootState → Outcome string))
    (state : RootState) : Outcome string :=
  match serializer with
  | Some f => f state
  | None => JSON_stringify state
  end.

Definition serializeStore
    (store : @NgRedux.World RootState Action ReducerServiceState)
    (serializer : option (RootState → Outcome string)) : Outcome string :=
  match NgRedux.getState store with
  | Returned state => serialize serializer state
  | Thrown e => Thrown e
  end.

End serialize.

End Serialization.

(** *** Layers around [store.dispatch]: action effects and the spy store

    [rxActionEffect] (rx-effect.ts) and [createSpyStore] (test-utils.ts)
    each replace [store.dispatch] by a function that calls the function
    that was installed before.  The functions that [store.dispatch] can
    hold are represented by how they were built. *)

Module DispatchLayers.

Section layers.
(** [St] is what lies under the layers: the store and all it reaches. *)
Context {Action St : Type}.

(** [action?.type]: [None] when the action is null or undefined or has no
    type. *)
Variable typeOf : Action → option string.

(** The dispatch installed before any layer, bound to the store. *)
Variable storeDispatch : Action → St → Outcome Action * St.

(** The variables of one [rxActionEffect] call, and what its
    [actionSubject$] has been handed so far. *)
Record Effect : Type := mkEffect {
  actionTypes : list string;
  isDestroyed : bool;
  received : list Action;
}.

Inductive Dispatch : Type :=
| Original
| WrappedDispatch (effect : nat) (previousDispatch : Dispatch)
    (** [wrappedDispatch] of the effect with that index *)
| SpyDispatch (originalDispatch : Dispatch).
    (** the arrow function of [createSpyStore] *)

Record World : Type := mkWorld {
  store : St;
  dispatch : Dispatch;
  effects : list Effect;
  actions : list Action;
}.

(** [action?.type && actionSet.has(action.type)] *)
Definition typeIn (types : list string) (action : Action) : bool :=
  match typeOf action with
  | Some t => negb (bool_decide (t = EmptyString)) && bool_decide (t ∈ types)
  | None => false
  end.

(** [!isDestroyed && action?.type && actionSet.has(action.type)] *)
Definition accepts (e : Effect) (action : Action) : bool :=
  negb (isDestroyed e) && typeIn (actionTypes e) action.

(** [actionSubject$.next(action)] *)
Definition next (action : Action) (e : Effect) : Effect :=
  mkEffect (actionTypes e) (isDestroyed e) (received e ++ [action]).

(** Calling a function that [store.dispatch] can hold. *)
Fixpoint call (d : Dispatch) (action : Action) (w : World)
  : Outcome Action * World :=
  match d with
  | Original =>
      let '(result, st) := storeDispatch action (store w) in
      (result, mkWorld st (dispatch w) (effects w) (actions w))
  | WrappedDispatch i previousDispatch =>
      match call previousDispatch action w with
      | (Returned result, w1) =>
          match effects w1 !! i with
          | Some e =>
              if accepts e action
              then (Returned result,
                    mkWorld (store w1) (dispatch w1)
                            (<[i := next action e]> (effects w1)) (actions w1))
              else (Returned result, w1)
          | None => (Returned result, w1)
          end
      | (Thrown e, w1) => (Thrown e, w1)
      end
  | SpyDispatch originalDispatch =>
      call originalDispatch action
        (mkWorld (store w) (dispatch w) (effects w) (actions w ++ [action]))
  end.

(** [store.dispatch(action)] *)
Definition dispatchAction (action : Action) (w : World) : Outcome Action * World :=
  call (dispatch w) action w.

(** [rxActionEffect(store, actionTypes, ...)], as far as dispatching goes. *)
Definition rxActionEffect (types : list string) (w : World) : nat * World :=
  (length (effects w),
   mkWorld (store w)
           (WrappedDispatch (length (effects w)) (dispatch w))
           (effects w ++ [mkEffect types false []])
           (actions w)).

(** [destroy()] of the effect with index [i]: [cleanup] sets [isDestroyed]. *)
Definition destroy (i : nat) (w : World) : World :=
  mkWorld (store w) (dispatch w)
          (alter (λ e, mkEffect (actionTypes e) true (received e)) i (effects w))
          (actions w).

(** [createSpyStore]: a new store with the spy layer around its dispatch. *)
Definition createSpyStore (st : St) : World :=
  mkWorld st (SpyDispatch Original) [] [].

(** [dispatched()], [lastAction()] and [reset()] of the spy store. *)
Definition dispatched (w : World) : list Action := actions w.
Definition lastAction (w : World) : option Action := last (actions w).
Definition resetSpy (w : World) : World :=
  mkWorld (store w) (dispatch w) (effects w) [].

(** The effects whose layer occurs in a chain, outermost first, and the
    number of spy layers in it. *)
Fixpoint layerEffects (d : Dispatch) : list nat :=
  match d with
  | Original => []
  | WrappedDispatch i previousDispatch => i :: layerEffects previousDispatch
  | SpyDispatch originalDispatch => layerEffects originalDispatch
  end.

Fixpoint spyLayers (d : Dispatch) : nat :=
  match d with
  | Original => 0
  | WrappedDispatch _ previousDispatch => spyLayers previousDispatch
  | SpyDispatch originalDispatch => Datatypes.S (spyLayers originalDispatch)
  end.

(** What a user can do to a store, and doing it. *)
Inductive Setup : Type :=
| CreateEffect (types : list string)
| DestroyEffect (i : nat).

Definition setup (w : World) (s : Setup) : World :=
  match s with
  | CreateEffect types => snd (rxActionEffect types w)
  | DestroyEffect i => destroy i w
  end.

(** A store without layers, and the store to start from. *)
Definition bare (st : St) : World := mkWorld st Original [] [].

Definition newStore (spy : bool) (st : St) : World :=
  if spy then createSpyStore st else bare st.

(** What one dispatch hands to an effect. *)
Definition deliver (action : Action) (e : Effect) : Effect :=
  if accepts e action then next action e else e.

(** What the layer of the effect with index [i] does to the effects. *)
Definition deliverAt (action : Action) (i : nat) (effs : list Effect)
  : list Effect :=
  match effs !! i with
  | Some e => if accepts e action then <[i := next action e]> effs else effs
  | None => effs
  end.

(** Dispatching one action after the other. *)
Definition dispatchAll (l : list Action) (w : World) : World :=
  foldl (λ w action, snd (dispatchAction action w)) w l.

End layers.

End DispatchLayers.

(** *** The action tracker ([StoreActionTracker] of devtools-metadata.ts) *)

Module Tracker.

(** interface StoreDevToolsInfo; [null] is [None], and [stateSize] is -1
    when the state could not be serialized. *)
Record StoreDevToolsInfo : Type := mkInfo {
  actionCount : nat;
  lastActionType : option string;
  lastDispatchTime : option Z;
  subStoreCount : nat;
  stateSize : Z;
  actionHistory : list string;
}.

Definition initialInfo : StoreDevToolsInfo := mkInfo 0 None None 0 0 [].

Definition maxHistory : nat := 100.

(** What [store.dispatch] and [previousDispatch] can hold: the dispatch
    that was installed before the tracker was first enabled, or the
    function [enable] installs.  That function reads the fields of the
    tracker when it is called, so all its copies behave alike. *)
Inductive DispatchFn : Type :=
| Underlying
| TrackerDispatch.

Section tracker.
(** [St] is the store underneath with all it reaches. *)
Context {Action St : Type}.

(** [action?.type]: [None] when the action is null or undefined or has no
    type. *)
Variable typeOf : Action → option string.

(** The dispatch installed before the tracker was first enabled. *)
Variable underlying : Action → St → Outcome Action * St.

(** [JSON.stringify(store.getState()).length], [None] when that throws. *)
Variable stateSizeOf : St → option Z.

(** The store, the function in its [dispatch] property, and the fields of
    the tracker. *)
Record World : Type := mkWorld {
  store : St;
  storeDispatch : DispatchFn;
  info : StoreDevToolsInfo;
  infoSignal : StoreDevToolsInfo;
  isEnabled : bool;
  previousDispatch : option DispatchFn;
}.

(** [new StoreActionTracker(store)] on a store nobody has wrapped. *)
Definition newTracker (st : St) : World :=
  mkWorld st Underlying initialInfo initialInfo false None.

Definition enable (w : World) : World :=
  if isEnabled w then w
  else mkWorld (store w) TrackerDispatch (info w) (infoSignal w) true
               (Some (storeDispatch w)).

Definition disable (w : World) : World :=
  mkWorld (store w) (storeDispatch w) (info w) (infoSignal w) false
          (previousDispatch w).

Definition getInfo (w : World) : StoreDevToolsInfo := info w.

Definition reset (w : World) : World :=
  mkWorld (store w) (storeDispatch w) initialInfo initialInfo (isEnabled w)
          (previousDispatch w).

(** [push] then, over the limit, [shift]. *)
Definition pushHistory (t : string) (history : list string) : list string :=
  let pushed := history ++ [t] in
  if bool_decide (maxHistory < length pushed) then drop 1 pushed else pushed.

(** The bookkeeping before the call of [previousDispatch]. *)
Definition track (action : Action) (now : Z) (i : StoreDevToolsInfo)
  : StoreDevToolsInfo :=
  mkInfo (Datatypes.S (actionCount i)) (typeOf action) (Some now)
         (subStoreCount i) (stateSize i)
         (match typeOf action with
          | Some t =>
              if bool_decide (t = EmptyString) then actionHistory i
              else pushHistory t (actionHistory i)
          | None => actionHistory i
          end).

(** The object the signal holds is a shallow copy of [info]: its
    [actionHistory] is the array of [info] itself, and shows what is pushed
    to that array. *)
Definition shareHistory (i held : StoreDevToolsInfo) : StoreDevToolsInfo :=
  mkInfo (actionCount held) (lastActionType held) (lastDispatchTime held)
         (subStoreCount held) (stateSize held) (actionHistory i).

(** The bookkeeping after it. *)
Definition measure (st : St) (i : StoreDevToolsInfo) : StoreDevToolsInfo :=
  mkInfo (actionCount i) (lastActionType i) (lastDispatchTime i)
         (subStoreCount i) (default (-1)%Z (stateSizeOf st)) (actionHistory i).

(** Calling a function value; [now] is what [Date.now()] reads.  A call
    may call again, so the depth of calls is bounded by [fuel]; [None]
    means the bound was reached. *)
Fixpoint callDispatch (fuel : nat) (fn : DispatchFn) (action : Action) (now : Z)
    (w : World) : option (Outcome Action * World) :=
  match fuel with
  | 0 => None
  | Datatypes.S fuel =>
      match fn with
      | Underlying =>
          let '(result, st) := underlying action (store w) in
          Some (result,
                mkWorld st (storeDispatch w) (info w) (infoSignal w)
                        (isEnabled w) (previousDispatch w))
      | TrackerDispatch =>
          match previousDispatch w with
          | None => Some (Thrown "TypeError", w)
          | Some previous =>
              if negb (isEnabled w) then callDispatch fuel previous action now w
              else
                let tracked := track action now (info w) in
                let w1 :=
                  mkWorld (store w) (storeDispatch w) tracked
                          (shareHistory tracked (infoSignal w))
                          (isEnabled w) (previousDispatch w) in
                match callDispatch fuel previous action now w1 with
                | Some (Returned result, w2) =>
                    let i := measure (store w2) (info w2) in
                    Some (Returned result,
                          mkWorld (store w2) (storeDispatch w2) i i
                                  (isEnabled w2) (previousDispatch w2))
                | Some (Thrown e, w2) => Some (Thrown e, w2)
                | None => None
                end
          end
      end
  end.

(** [store.dispatch(action)] *)
Definition dispatch (fuel : nat) (action : Action) (now : Z) (w : World)
  : option (Outcome Action * World) :=
  callDispatch fuel (storeDispatch w) action now w.

(** The types recorded for a series of actions: those that are not empty. *)
Definition recordedTypes (l : list Action) : list string :=
  omap (λ action,
          match typeOf action with
          | Some t => if bool_decide (t = EmptyString) then None else Some t
          | None => None
          end) l.

(** The last [n] elements. *)
Definition lastN {A} (n : nat) (l : list A) : list A := drop (length l - n) l.

(** Dispatching a series of actions, each with the time of its dispatch,
    going on after exceptions: what each dispatch returned or threw, and
    the state of things in the end. *)
Fixpoint dispatchAll (fuel : nat) (l : list (Action * Z)) (w : World)
  : option (list (Outcome Action) * World) :=
  match l with
  | [] => Some ([], w)
  | (action, now) :: l =>
      match dispatch fuel action now w with
      | Some (result, w') =>
          match dispatchAll fuel l w' with
          | Some (results, w'') => Some (result :: results, w'')
          | None => None
          end
      | None => None
      end
  end.

(** The same actions given to the dispatch underneath, on a store without
    a tracker. *)
Fixpoint underlyingAll (l : list Action) (st : St) : list (Outcome Action) * St :=
  match l with
  | [] => ([], st)
  | action :: l =>
      let '(result, st') := underlying action st in
      let '(results, st'') := underlyingAll l st' in
      (result :: results, st'')
  end.

(** [store.dispatch] holds the tracker's function and the tracker holds
    the dispatch underneath: the state that [enable] on a new tracker
    leads to. *)
Definition installed (w : World) : Prop :=
  storeDispatch w = TrackerDispatch ∧ previousDispatch w = Some Underlying.

(** What a user can do with a tracker besides dispatching. *)
Inductive Toggle : Type :=
| Enable
| Disable
| Reset.

Definition toggle (w : World) (t : Toggle) : World :=
  match t with
  | Enable => enable w
  | Disable => disable w
  | Reset => reset w
  end.

End tracker.

End Tracker.

(** *** Change detection around [dispatch] (ng-redux.service.ts and the
        zoneless service) *)

Module ChangeDetection.

(** What was injected as [NgZone], told apart by [constructor.name]. *)
Inductive Zone : Type :=
| AngularZone
| NoopNgZone.

(** The notifier classes, and notifiers supplied from outside. *)
Inductive Notifier : Type :=
| ZoneChangeDetectionNotifier
| ZonelessChangeDetectionNotifier
| NoopChangeDetectionNotifier
| CustomNotifier (n : nat).

(** What the constructor is given, and whether the [Zone] global of
    Zone.js exists. *)
Record Injected : Type := mkInjected {
  ngZone : option Zone;
  appRef : bool;
  customNotifier : option nat;
  zoneJsLoaded : bool;
}.

Definition isZoneless (zone : option Zone) (zoneJs : bool) : bool :=
  match zone with
  | None => true
  | Some NoopNgZone => true
  | Some AngularZone => negb zoneJs
  end.

(** The fields of the instance that [dispatch] reads; [_store] as whether
    it is set. *)
Record Instance : Type := mkInstance {
  _isZoneless : bool;
  _cdNotifier : option Notifier;
  hasNgZone : bool;
  hasAppRef : bool;
  configured : bool;
}.

Definition _configureCdNotifier (custom : option nat) (zoneless : bool)
    (hasAppRef hasNgZone : bool) : Notifier :=
  match custom with
  | Some n => CustomNotifier n
  | None =>
      if zoneless && hasAppRef then ZonelessChangeDetectionNotifier
      else if negb zoneless && hasNgZone then ZoneChangeDetectionNotifier
      else NoopChangeDetectionNotifier
  end.

(** [new NgRedux(ngZone, appRef, customNotifier)] *)
Definition newNgRedux (i : Injected) : Instance :=
  let zoneless := isZoneless (ngZone i) (zoneJsLoaded i) in
  let hasZone := bool_decide (is_Some (ngZone i)) in
  mkInstance zoneless
    (Some (_configureCdNotifier (customNotifier i) zoneless (appRef i) hasZone))
    hasZone (appRef i) false.

(** [new ZonelessNgRedux(ngZone, appRef, customNotifier)] *)
Definition newZonelessNgRedux (i : Injected) : Instance :=
  let base := newNgRedux i in
  mkInstance true
    (Some (match customNotifier i with
           | Some n => CustomNotifier n
           | None =>
               if appRef i then ZonelessChangeDetectionNotifier
               else NoopChangeDetectionNotifier
           end))
    (hasNgZone base) (hasAppRef base) (configured base).

Definition setNotifier (notifier : Notifier) (x : Instance) : Instance :=
  mkInstance (_isZoneless x) (Some notifier) (hasNgZone x) (hasAppRef x)
             (configured x).

(** [configureStore] on an instance without a store, as far as it
    matters here. *)
Definition configure (x : Instance) : Instance :=
  mkInstance (_isZoneless x) (_cdNotifier x) (hasNgZone x) (hasAppRef x) true.

(** What a dispatch makes happen. *)
Inductive Event : Type :=
| EnteredZone
    (** [ngZone.run] was called *)
| StoreDispatched
    (** the underlying store dispatched the action *)
| Ticked
    (** [appRef.tick()] *)
| CustomNotified (n : nat).
    (** [notify()] of a notifier supplied from outside *)

#[global] Instance Event_eq_dec : EqDecision Event.
Proof. solve_decision. Defined.

(** [notify()] of each notifier. *)
Definition notify (notifier : Notifier) : list Event :=
  match notifier with
  | ZoneChangeDetectionNotifier => []
  | ZonelessChangeDetectionNotifier => [Ticked]
  | NoopChangeDetectionNotifier => []
  | CustomNotifier n => [CustomNotified n]
  end.

(** [dispatch(action)]; [inAngularZone] is what [NgZone.isInAngularZone()]
    returns. *)
Definition dispatch (inAngularZone : bool) (x : Instance) : Outcome (list Event) :=
  if negb (configured x)
  then Thrown "Dispatch failed: store instance not initialize."
  else if negb (_isZoneless x) && hasNgZone x && negb inAngularZone
  then Returned [EnteredZone; StoreDispatched]
  else
    Returned
      (StoreDispatched ::
       (if _isZoneless x
        then match _cdNotifier x with
             | Some notifier => notify notifier
             | None => []
             end
        else [])).

End ChangeDetection.

(** *** Typed action creators (create-action.ts, create-action-group.ts) *)

Module TypedActions.

Section actions.
(** Payloads other than [undefined]. *)
Context {P : Type}.

(** interface PayloadAction; an action without a [payload] property has
    [None]. *)
Record PayloadAction : Type := mkAction {
  type : string;
  payload : option P;
}.

(** The function [createTypedAction(type)] returns, applied to a payload;
    calling it without an argument, or with [undefined], is [None]. *)
Definition creator (type : string) (payload : option P) : PayloadAction :=
  mkAction type payload.

(** [creator.match(action)] *)
Definition matches (creatorType : string) (action : PayloadAction) : bool :=
  bool_decide (type action = creatorType).

End actions.

(** The type given to the creator of an event: [`[${source}] ${eventName}`] *)
Definition groupType (source eventName : string) : string :=
  "[" +:+ source +:+ "] " +:+ eventName.

(** [createActionGroup({ source, events })]: the object that maps every
    key of [events] to a creator, each creator given by its type. *)
Definition createActionGroup (source : string) (eventNames : list string)
  : list (string * string) :=
  foldl (λ result eventName,
           Lazy.setProp eventName (groupType source eventName) result)
        [] eventNames.

End TypedActions.

(** *** Deep freezing (deep-freeze.ts)

    Objects live in a store of objects and refer to each other by address,
    so that sharing and cycles are possible. *)

Module DeepFreeze.

Inductive Value : Type :=
| VUndefined
| VNull
| VPrimitive (z : Z)
    (** a number, string, boolean or function: not of type 'object' *)
| VRef (address : nat).

(** What the [instanceof], [ArrayBuffer.isView] and [Array.isArray] tests
    tell apart. *)
Inductive Kind : Type :=
| PlainObject
| ArrayObject
| SpecialObject
    (** a [Date], a [RegExp], an [ArrayBuffer], a [DataView] or a typed
        array without elements *)
| ViewWithElements.
    (** a typed array that has elements: [Object.freeze] throws a
        [TypeError] on it *)

(** An object: its kind, whether it is frozen, and its own properties (for
    an array, its elements). *)
Record Obj : Type := mkObj {
  kind : Kind;
  frozen : bool;
  props : list (string * Value);
}.

Abbreviation Heap := (list Obj).

(** [Object.freeze(obj)] *)
Definition freeze (o : Obj) : Obj := mkObj (kind o) true (props o).

(** How a call ends: it returns, or the [TypeError] of [Object.freeze]
    comes out of it; either way the store is as the call left it. *)
Inductive Run : Type :=
| Returns (h : Heap)
| Throws (h : Heap).

(** The loop over the elements or the own property names: [visit] is
    called on each value in turn; on an array it is called on every
    element, on another object on the values of type 'object' that are not
    null.  A call that throws or does not return ends the loop. *)
Definition visitEach (visit : Value → Heap → option Run) (o : Obj) (h : Heap)
  : option Run :=
  foldl (λ acc kv,
           match acc with
           | Some (Returns h') =>
               match kind o, kv.2 with
               | ArrayObject, v => visit v h'
               | _, VRef a => visit (VRef a) h'
               | _, _ => Some (Returns h')
               end
           | _ => acc
           end)
        (Some (Returns h)) (props o).

(** [deepFreeze(obj)]; the depth of the recursion is bounded by [fuel], and
    [None] means the bound was reached. *)
Fixpoint deepFreeze (fuel : nat) (obj : Value) (h : Heap) : option Run :=
  match fuel with
  | 0 => None
  | S fuel =>
      match obj with
      | VRef a =>
          match h !! a with
          | Some o =>
              if frozen o then Some (Returns h)
              else
                match kind o with
                | SpecialObject => Some (Returns (<[a := freeze o]> h))
                | ViewWithElements => Some (Throws h)
                | _ => visitEach (deepFreeze fuel) o (<[a := freeze o]> h)
                end
          | None => Some (Returns h)
          end
      | _ => Some (Returns h)
      end
  end.

(** interface FreezeConfig, and [conditionalFreeze] under a configuration. *)
Record FreezeConfig : Type := mkFreezeConfig {
  enabled : bool;
  warnOnly : option bool;
}.

Definition conditionalFreeze (config : FreezeConfig) (fuel : nat) (state : Value)
    (h : Heap) : option Run :=
  if enabled config then deepFreeze fuel state h else Some (Returns h).

(** The addresses an object refers to through which [deepFreeze] goes on:
    those in the properties of an object that is not special. *)
Definition children (o : Obj) : list nat :=
  match kind o with
  | SpecialObject | ViewWithElements => []
  | _ => omap (λ kv, match kv.2 with VRef a => Some a | _ => None end) (props o)
  end.

(** [b] is reached from [a] in one step. *)
Definition refersTo (h : Heap) (a b : nat) : Prop :=
  ∃ o, h !! a = Some o ∧ b ∈ children o.

(** [b] is reached from [a] in any number of steps. *)
Definition reaches (h : Heap) : nat → nat → Prop := rtc (refersTo h).

Definition isFrozen (h : Heap) (a : nat) : Prop :=
  ∃ o, h !! a = Some o ∧ frozen o = true.

(** Every frozen object outside [pending] refers to frozen objects only. *)
Definition closedExcept (pending : nat → Prop) (h : Heap) : Prop :=
  ∀ a b, isFrozen h a → ¬ pending a → refersTo h a b → isFrozen h b.

(** What was frozen before the call was frozen all the way down. *)
Definition closed (h : Heap) : Prop := closedExcept (λ _, False) h.

(** Every reference in the store points to an object of the store. *)
Definition noDangling (h : Heap) : Prop :=
  ∀ a b, refersTo h a b → is_Some (h !! b).

(** [h'] is [h] with more objects frozen and nothing else changed. *)
Definition freezesOnly (h h' : Heap) : Prop :=
  length h' = length h
  ∧ ∀ a o, h !! a = Some o →
           ∃ o', h' !! a = Some o' ∧ kind o' = kind o ∧ props o' = props o
                 ∧ (frozen o = true → frozen o' = true).

(** The store holds no typed array with elements. *)
Definition noViews (h : Heap) : Prop :=
  ∀ a o, h !! a = Some o → kind o ≠ ViewWithElements.

(** The number of objects that are not frozen. *)
Definition unfrozenCount (h : Heap) : nat :=
  length (filter (λ o, frozen o = false) h).

End DeepFreeze.

(** *** Deep freezing: the values the loop visits *)

Module DeepFreezeLoop.
Import DeepFreeze.

(** [typeof value === 'object' && value !== null] *)
Definition isObject (v : Value) : bool :=
  match v with
  | VRef _ => true
  | _ => false
  end.

(** The values [visitEach] calls [visit] on, in order. *)
Definition visited (o : Obj) : list Value :=
  match kind o with
  | ArrayObject => (props o).*2
  | _ => filter (λ v, isObject v = true) (props o).*2
  end.

(** Calling [visit] on each value of a list in turn. *)
Definition visitAll (visit : Value → Heap → option Run) (vs : list Value)
    (h : Heap) : option Run :=
  foldl (λ acc v,
           match acc with
           | Some (Returns h') => visit v h'
           | _ => acc
           end)
        (Some (Returns h)) vs.

(** What a call that returns has done to the store: it froze objects and
    changed nothing else, it kept what was closed closed, and it froze the
    object it was called on. *)
Definition good (v : Value) (h h' : Heap) : Prop :=
  freezesOnly h h'
  ∧ (∀ pending, closedExcept pending h → closedExcept pending h')
  ∧ (∀ a, v = VRef a → is_Some (h !! a) → isFrozen h' a).

End DeepFreezeLoop.

(** *** The entity adapter on states with additional properties *)

(** [getInitialState(additionalState)] merges further properties into the
    state ([loading], say).  The operations are read again on such states;
    the additional properties are taken to have other names than [ids] and
    [entities]. *)

Module EntityExtras.
Import Entity.

Section adapter.
Context {T C A : Type} {prototype : ObjectPrototype T}.
Variable spread : T → C → T.
Variable config : EntityAdapterConfig T.

(** An object with [ids], [entities] and the properties of [additional]. *)
Record State : Type := mkExtState {
  core : EntityState T;
  additional : list (string * A);
}.

(** [{ ...state, ids: ... }] *)
Definition sortEntities (state : State) : State :=
  match sortComparer config with
  | None => state
  | Some cmp =>
      let sortedEntities := js_sort cmp (selectAll (core state)) in
      mkExtState (mkState (selectId config <$> sortedEntities) (entities (core state)))
                 (additional state)
  end.

Definition getInitialState (additionalState : option (list (string * A))) : State :=
  match additionalState with
  | Some extra => mkExtState (mkState [] ∅) extra
  | None => mkExtState (mkState [] ∅) []
  end.

(** [{ ids: ..., entities: ... }]: an object literal with these two
    properties and no other. *)
Definition literal (ids : list Id) (entities : gmap string T) : State :=
  mkExtState (mkState ids entities) [].

Definition addOne (state : State) (entity : T) : State :=
  let id := selectId config entity in
  match lookupEntity (core state) id with
  | Some _ => state
  | None =>
      sortEntities
        (literal (ids (core state) ++ [id])
                 (<[toKey id := entity]> (entities (core state))))
  end.

Definition addMany (state : State) (es : list T) : State :=
  foldl addOne state es.

Definition setAll (state : State) (es : list T) : State :=
  let newEntities :=
    foldl (λ m e, assignProperty (toKey (selectId config e)) e m)
          (∅ : gmap string T) es in
  let ids := foldl (λ l e, l ++ [selectId config e]) [] es in
  sortEntities (literal ids newEntities).

Definition setOne (state : State) (entity : T) : State :=
  let id := selectId config entity in
  let exists_ := bool_decide (is_Some (lookupEntity (core state) id)) in
  sortEntities
    (literal (if exists_ then ids (core state) else ids (core state) ++ [id])
             (<[toKey id := entity]> (entities (core state)))).

Definition removeOne (state : State) (id : Id) : State :=
  match lookupEntity (core state) id with
  | None => state
  | Some _ =>
      literal (filter (λ existingId, ¬ strictlyEqual existingId id) (ids (core state)))
              (delete (toKey id) (entities (core state)))
  end.

Definition removeMany (state : State) (l : list Id) : State :=
  foldl removeOne state l.

Definition removeAll (_state : State) : State := literal [] ∅.

Definition updateOne (state : State) (update : Update C) : State :=
  match lookupEntity (core state) (upd_id update) with
  | None => state
  | Some existing =>
      let updated := spread existing (changes update) in
      sortEntities
        (literal (ids (core state))
                 (<[toKey (upd_id update) := updated]> (entities (core state))))
  end.

Definition updateMany (state : State) (us : list (Update C)) : State :=
  foldl updateOne state us.

Definition upsertOne (state : State) (entity : T) : State :=
  let id := selectId config entity in
  match lookupEntity (core state) id with
  | Some _ => setOne state entity
  | None => addOne state entity
  end.

Definition upsertMany (state : State) (es : list T) : State :=
  foldl upsertOne state es.

Definition apply (state : State) (o : Op (T:=T) (C:=C)) : State :=
  match o with
  | AddOne e => addOne state e
  | AddMany es => addMany state es
  | SetAll es => setAll state es
  | SetOne e => setOne state e
  | RemoveOne id => removeOne state id
  | RemoveMany l => removeMany state l
  | RemoveAll => removeAll state
  | UpdateOne u => updateOne state u
  | UpdateMany us => updateMany state us
  | UpsertOne e => upsertOne state e
  | UpsertMany es => upsertMany state es
  end.

End adapter.

End EntityExtras.

(** *** More inputs *)

Module Samples.

(** Another user with the id of Alice. *)
Definition alicia : Users.User := Users.mkUser 1 "Alicia".

(** States whose inputs differ from those of the state before; the third
    is the first again. *)
Definition alternating : list (Z * Z) := [(1, 2); (3, 4); (1, 2)]%Z.

(** A store whose state is a flag, serialized as JSON does. *)
Definition flagReducer (state : bool) (action : string) : bool :=
  if decide (action = "TOGGLE") then negb state else state.

Definition flagStore : @NgRedux.World bool string unit :=
  snd (NgRedux.configureStore
         (λ reducer initState, NgRedux.mkStore initState reducer [])
         (λ reducer (middleware : list unit) svc, (reducer, svc))
         flagReducer true [] [] (NgRedux.fresh ())).

Definition flagStringify (state : bool) : Outcome string :=
  Returned (if state then "true" else "false").

Definition flagParse (raw : string) : Outcome bool :=
  if decide (raw = "true") then Returned true
  else if decide (raw = "false") then Returned false
  else Thrown "SyntaxError".

(** A store that counts the actions it was given; an action is its type. *)
Definition typeOfString (action : string) : option string := Some action.

Definition countingDispatch (action : string) (st : Z) : Outcome string * Z :=
  (Returned action, (st + 1)%Z).

Definition sizeOfCount (st : Z) : option Z := Some st.

(** [const root = { self: root, items: [new Date(0), 5], n: 1 }], with
    [root] at address 0, the array at 1 and the date at 2: the root refers
    to itself. *)
Definition cyclicHeap : DeepFreeze.Heap :=
  [DeepFreeze.mkObj DeepFreeze.PlainObject false
     [("self", DeepFreeze.VRef 0); ("items", DeepFreeze.VRef 1);
      ("n", DeepFreeze.VPrimitive 1)];
   DeepFreeze.mkObj DeepFreeze.ArrayObject false
     [("0", DeepFreeze.VRef 2); ("1", DeepFreeze.VPrimitive 5)];
   DeepFreeze.mkObj DeepFreeze.SpecialObject false []].

End Samples.
(** ** Part II: properties *)

(** *** State rehydration *)

Section hydration_facts.
Import Hydration.
Context {RootState : Type}.
Variable JSON_parse : string → Outcome RootState.

(** The deserializer runs at most once per call, and only on the string
    that was passed in. *)
Lemma rehydrateState_calls serialized (fallback : RootState) deserializer :
  let run := rehydrateState JSON_parse serialized fallback deserializer in
  deserialized run = [] ∨
  ∃ raw, serialized = SString raw ∧ raw ≠ EmptyString ∧ deserialized run = [raw].
Proof.
  unfold rehydrateState.
  destruct serialized as [| |raw]; simpl; auto.
  case_bool_decide as Hraw; simpl; auto.
  right. exists raw.
  destruct (deserialize _ _ raw); simpl; auto.
Qed.

(** C8, as the code has it. For every serialized input, fallback state
    and optional deserializer, [rehydrateState] returns a value and never
    throws.  On a string that is not empty the deserializer (by default
    [JSON.parse]) is run once, on that string: when it returns, its
    result is the value returned, and when it throws, the fallback is.
    On the empty string, as on [null] and [undefined], the fallback is
    returned and the deserializer is not run. *)
Theorem C8_rehydrateState_total_and_recovering
    (serialized : Serialized) (fallback : RootState)
    (deserializer : option (string → Outcome RootState)) :
  let run := rehydrateState JSON_parse serialized fallback deserializer in
  (∃ state, outcome run = Returned state)
  ∧ match serialized with
    | SString raw =>
        if decide (raw = EmptyString)
        then outcome run = Returned fallback ∧ deserialized run = []
        else
          deserialized run = [raw]
          ∧ outcome run
            = match deserialize JSON_parse deserializer raw with
              | Returned state => Returned state
              | Thrown _ => Returned fallback
              end
    | _ => outcome run = Returned fallback ∧ deserialized run = []
    end.
Proof.
  unfold rehydrateState.
  destruct serialized as [| |raw]; simpl; [by eauto..|].
  case_bool_decide as Hraw; simpl.
  - rewrite decide_True by done. by eauto.
  - rewrite decide_False by done.
    destruct (deserialize JSON_parse deserializer raw) as [parsed|msg];
      simpl; by eauto.
Qed.

(** C10. Whenever the serialized input is falsy (null, undefined or the
    empty string), [rehydrateState] returns the fallback state and the
    deserializer is not invoked. *)
Theorem C10_rehydrateState_falsy_input
    (serialized : Serialized) (fallback : RootState)
    (deserializer : option (string → Outcome RootState)) :
  falsy serialized = true →
  let run := rehydrateState JSON_parse serialized fallback deserializer in
  outcome run = Returned fallback ∧ deserialized run = [].
Proof.
  intros Hfalsy. unfold rehydrateState. by rewrite Hfalsy.
Qed.

(** The falsy inputs are exactly these three. *)
Lemma falsy_cases serialized :
  falsy serialized = true ↔
  serialized = SNull ∨ serialized = SUndefined ∨ serialized = SString EmptyString.
Proof.
  destruct serialized as [| |raw]; simpl; rewrite ?bool_decide_eq_true;
    split; try (intros [?|[?|?]]; congruence); auto.
  intros ->; auto.
Qed.

End hydration_facts.

(** C8 as stated fails on the empty string when the deserializer accepts
    it: the deserialization would succeed, and the fallback is returned
    instead of its result. *)
Lemma C8_counterexample :
  Hydration.deserialize Fixtures.failingParse (Some Fixtures.lenientDeserializer)
    EmptyString = Returned 0
  ∧ Hydration.outcome
      (Hydration.rehydrateState Fixtures.failingParse (Hydration.SString EmptyString)
         7 (Some Fixtures.lenientDeserializer)) = Returned 7.
Proof. split; reflexivity. Qed.

Lemma C10_witness :
  Hydration.falsy (Hydration.SString EmptyString) = true ∧
  Hydration.outcome
    (Hydration.rehydrateState Fixtures.failingParse (Hydration.SString EmptyString) 7
       (Some Fixtures.lenientDeserializer)) = Returned 7 ∧
  Hydration.deserialized
    (Hydration.rehydrateState Fixtures.failingParse (Hydration.SString EmptyString) 7
       (Some Fixtures.lenientDeserializer)) = [].
Proof.
  split; [reflexivity|].
  apply (C10_rehydrateState_falsy_input Fixtures.failingParse
           (Hydration.SString EmptyString) 7 (Some Fixtures.lenientDeserializer)).
  reflexivity.
Defined.

(** *** NgRedux store configuration *)

Section ngredux_facts.
Import NgRedux.
Context {RootState Action Middleware ReducerServiceState : Type}.
Variable createStore : @StoreCreator RootState Action.
Variable composeReducers :
  @Reducer RootState Action → list Middleware → ReducerServiceState →
  @Reducer RootState Action * ReducerServiceState.

Abbreviation configureStore' := (configureStore createStore composeReducers).

(** A call on a fresh instance succeeds and installs a store. *)
Lemma configureStore_installs reducer initState middleware enhancers
    (w : @World RootState Action ReducerServiceState) :
  _store w = None →
  ∃ w', configureStore' reducer initState middleware enhancers w = (Returned (), w')
        ∧ is_Some (_store w').
Proof.
  intros Hnone. unfold configureStore. rewrite Hnone.
  destruct (composeReducers reducer middleware (reducerService w)) as [root svc].
  eexists. split; [reflexivity|]. simpl. eauto.
Qed.

(** Once a store is installed it stays installed across [subscribe]. *)
Lemma subscribe_keeps_store listener (w : @World RootState Action ReducerServiceState) :
  is_Some (_store w) → is_Some (_store (subscribe listener w).2).
Proof.
  intros [store Hs]. unfold subscribe. rewrite Hs. simpl. eauto.
Qed.

(** C5. On an instance whose store is already installed, [configureStore]
    throws, and the instance, the underlying store (its state, reducer
    and listeners), the values already emitted and the reducer service
    are exactly what they were before the call. *)
Theorem C5_configureStore_twice_throws_atomically
    reducer initState middleware enhancers
    (w : @World RootState Action ReducerServiceState) :
  is_Some (_store w) →
  configureStore' reducer initState middleware enhancers w
  = (Thrown "Store already initialize!", w).
Proof.
  intros [store Hstore]. unfold configureStore. by rewrite Hstore.
Qed.

End ngredux_facts.

Lemma C5_witness :
  is_Some (NgRedux._store Fixtures.configuredOnce) ∧
  NgRedux.getState Fixtures.configuredOnce = Returned 0%Z ∧
  NgRedux.configureStore Fixtures.plainCreateStore Fixtures.recordingCompose
    Fixtures.constReducer 5%Z [] [] Fixtures.configuredOnce
  = (Thrown "Store already initialize!", Fixtures.configuredOnce).
Proof.
  assert (Hs : is_Some (NgRedux._store Fixtures.configuredOnce))
    by (vm_compute; eauto).
  split; [exact Hs|]. split; [reflexivity|].
  exact (C5_configureStore_twice_throws_atomically
           Fixtures.plainCreateStore Fixtures.recordingCompose
           Fixtures.constReducer 5%Z [] [] Fixtures.configuredOnce Hs).
Defined.

(** *** Lazy reducer registry *)

Section lazy_facts.
Import Lazy.

Lemma getProp_setProp_eq {A} key (v : A) o : getProp key (setProp key v o) = Some v.
Proof.
  induction o as [|[k x] o IH]; simpl.
  - by rewrite decide_True.
  - destruct (decide (k = key)) as [->|Hne]; simpl.
    + by rewrite decide_True.
    + by rewrite decide_False.
Qed.

(** Assigning the value a key already has leaves the object as it is. *)
Lemma setProp_same {A} key (v : A) o : getProp key o = Some v → setProp key v o = o.
Proof.
  induction o as [|[k x] o IH]; simpl; [done|].
  destruct (decide (k = key)) as [->|Hne].
  - by intros [= ->].
  - intros Hget. by rewrite IH.
Qed.

Lemma getProp_deleteProp_eq {A} key (o : list (string * A)) :
  getProp key (deleteProp key o) = None.
Proof.
  unfold deleteProp. induction o as [|[k x] o IH]; simpl; [done|].
  rewrite filter_cons. simpl.
  destruct (decide (k ≠ key)) as [Hne|Heq]; simpl; [|done].
  by rewrite decide_False.
Qed.

Lemma trace_register key reducer w :
  trace (register key reducer w) = trace w ++ (Notified <$> listeners (registry w)).
Proof. unfold register. by destruct (decide (key = "__proto__")). Qed.

(** Under a key other than "__proto__" [register] sets the own property
    and leaves the prototype. *)
Lemma register_ordinary key reducer w :
  key ≠ "__proto__" →
  registry (register key reducer w)
  = mkRegistry (setProp key reducer (reducerMap (registry w)))
               (reducerMapPrototype (registry w)) (baseReducer (registry w))
               (listeners (registry w)).
Proof. intros Hkey. unfold register. by rewrite decide_False. Qed.

(** C7, as the code has it. On a registry on which nothing was registered
    under "__proto__" (which makes a reducer the prototype of
    [reducerMap]): [register] calls every listener once, in subscription
    order, whether or not the call changes the key-to-reducer mapping
    (re-registering the reducer a key already has changes nothing and
    still notifies), and binds the key, "__proto__" apart, to the reducer;
    [unregister] of a registered key removes it and calls every listener
    once; [unregister] of an absent key that is not the name of a member
    of [Object.prototype] changes nothing and calls no listener. *)
Theorem C7_listeners_fire_on_register_and_effective_unregister
    (key : string) (reducer : Reducer) (w : World) :
  reducerMapPrototype (registry w) = None →
  (trace (register key reducer w)
     = trace w ++ (Notified <$> listeners (registry w)) ∧
   (key ≠ "__proto__" →
    getProp key (reducerMap (registry (register key reducer w))) = Some reducer))
  ∧ (getProp key (reducerMap (registry w)) = Some reducer →
     reducerMap (registry (register key reducer w)) = reducerMap (registry w))
  ∧ (is_Some (getProp key (reducerMap (registry w))) →
     trace (unregister key w)
       = trace w ++ (Notified <$> listeners (registry w)) ∧
     getProp key (reducerMap (registry (unregister key w))) = None)
  ∧ (getProp key (reducerMap (registry w)) = None →
     key ∉ objectPrototypeNames →
     unregister key w = w).
Proof.
  intros _.
  split; [split; [apply trace_register|]|].
  { intros Hkey. rewrite register_ordinary by done. apply getProp_setProp_eq. }
  split.
  { intros Hget. unfold register.
    destruct (decide (key = "__proto__")); simpl; [done|by apply setProp_same]. }
  split.
  - intros [r Hr]. unfold unregister, reducerMapHas. rewrite Hr. split; [done|].
    simpl. apply getProp_deleteProp_eq.
  - intros Hnone Hname. unfold unregister, reducerMapHas.
    by rewrite Hnone, bool_decide_eq_false_2.
Qed.

(** [loadReducer] leaves the registry as [register] does. *)
Lemma loadReducer_registry key reducer w :
  registry (loadReducer key reducer w).2 = registry (register key reducer w).
Proof.
  unfold loadReducer, dispatch. simpl.
  by destruct (storeConfigured w).
Qed.

(** C6, as the code has it. On a configured store, for a key other than
    "__proto__" and a registry on which nothing was registered under
    "__proto__", [loadReducer(key, reducer, store)] registers the slice
    under [key], hands the newly combined reducer to [replaceReducer],
    dispatches exactly one action, whose type is "@@LAZY_REDUCER/INIT/"
    followed by the key, and returns the unload function; running that
    function unregisters the key and hands the recombined reducer to
    [replaceReducer]. *)
Theorem C6_loadReducer_registers_replaces_initialises
    (key : string) (reducer : Reducer) (w : World) :
  storeConfigured w = true →
  key ≠ "__proto__" →
  reducerMapPrototype (registry w) = None →
  ∃ w',
    loadReducer key reducer w = (Returned (unload key), w') ∧
    getProp key (reducerMap (registry w')) = Some reducer ∧
    activeReducer w' = Some (getCombinedReducer (registry w')) ∧
    trace w' =
      trace w ++ (Notified <$> listeners (registry w))
        ++ [ReplacedReducer (getCombinedReducer (registry w'));
            Dispatched (mkAction ("@@LAZY_REDUCER/INIT/" +:+ key))] ∧
    ∀ v,
      reducerMapPrototype (registry v) = None →
      let v' := unload key v in
      getProp key (reducerMap (registry v')) = None ∧
      activeReducer v' = Some (getCombinedReducer (registry v')) ∧
      trace v' =
        trace (unregister key v) ++ [ReplacedReducer (getCombinedReducer (registry v'))].
Proof.
  intros Hconf Hkey _.
  unfold loadReducer, register. rewrite decide_False by done.
  unfold dispatch. simpl. rewrite Hconf. eexists. split; [reflexivity|].
  - simpl. split; [apply getProp_setProp_eq|]. split; [reflexivity|].
    split; [by rewrite <- !app_assoc|].
    intros v _. simpl. split; [|split; reflexivity].
    unfold unregister, reducerMapHas.
    destruct (getProp key (reducerMap (registry v))) as [r|] eqn:Hget; simpl.
    + apply getProp_deleteProp_eq.
    + case_bool_decide; simpl; [apply getProp_deleteProp_eq|exact Hget].
Qed.

End lazy_facts.

Lemma C7_witness :
  let w := Lazy.register "feature" (Lazy.RUser "featureReducer") Fixtures.lazyConfigured in
  Lazy.reducerMap (Lazy.registry (Lazy.register "feature" (Lazy.RUser "featureReducer") w))
    = Lazy.reducerMap (Lazy.registry w) ∧
  Lazy.trace (Lazy.unregister "feature" w) = [Lazy.Notified 1; Lazy.Notified 1] ∧
  Lazy.unregister "other" w = w.
Proof.
  intros w.
  destruct (C7_listeners_fire_on_register_and_effective_unregister
              "feature" (Lazy.RUser "featureReducer") w eq_refl)
    as (_ & Hsame & Hun & _).
  destruct (C7_listeners_fire_on_register_and_effective_unregister
              "other" (Lazy.RUser "featureReducer") w eq_refl)
    as (_ & _ & _ & Habsent).
  split; [apply Hsame; reflexivity|].
  split; [|apply Habsent; [reflexivity|]].
  - destruct Hun as [Htrace _]; [vm_compute; eauto|].
    rewrite Htrace. reflexivity.
  - apply (bool_decide_unpack _). vm_compute. exact I.
Defined.

(** C7 as stated fails: registering again the reducer a key already has
    leaves the key-to-reducer mapping unchanged and the listener is called
    all the same.  So is it by [unregister] of the absent key
    "constructor", under which the guard finds
    [Object.prototype.constructor]. *)
Lemma C7_counterexample :
  let w := Lazy.register "feature" (Lazy.RUser "featureReducer") Fixtures.lazyConfigured in
  let w' := Lazy.register "feature" (Lazy.RUser "featureReducer") w in
  Lazy.reducerMap (Lazy.registry w') = Lazy.reducerMap (Lazy.registry w) ∧
  Lazy.trace w' = Lazy.trace w ++ [Lazy.Notified 1] ∧
  Lazy.getProp "constructor" (Lazy.reducerMap (Lazy.registry w)) = None ∧
  Lazy.registry (Lazy.unregister "constructor" w) = Lazy.registry w ∧
  Lazy.trace (Lazy.unregister "constructor" w) = Lazy.trace w ++ [Lazy.Notified 1].
Proof. repeat split; reflexivity. Qed.

Lemma C6_witness :
  Lazy.storeConfigured Fixtures.lazyConfigured = true ∧
  ∃ w',
    Lazy.loadReducer "admin" (Lazy.RUser "adminReducer") Fixtures.lazyConfigured
      = (Returned (Lazy.unload "admin"), w') ∧
    Lazy.trace w' =
      [Lazy.Notified 1;
       Lazy.ReplacedReducer (Lazy.RCombine [("admin", Lazy.RUser "adminReducer")]);
       Lazy.Dispatched (Lazy.mkAction "@@LAZY_REDUCER/INIT/admin")] ∧
    Lazy.getRegisteredKeys (Lazy.registry (Lazy.unload "admin" w')) = [].
Proof.
  split; [reflexivity|].
  destruct (C6_loadReducer_registers_replaces_initialises
              "admin" (Lazy.RUser "adminReducer") Fixtures.lazyConfigured eq_refl)
    as (w' & Hload & _ & _ & Htrace & _); [discriminate|reflexivity|].
  exists w'. split; [exact Hload|].
  injection Hload as <-. split; reflexivity.
Defined.

(** C6 as stated fails: the one action dispatched for key "admin" does not
    have type "LAZY_REDUCER_INIT/admin"; on a store that was never
    configured the call throws instead of returning an unload function;
    and under the key "__proto__" no slice is registered, the reducer
    becoming the prototype of [reducerMap]. *)
Lemma C6_counterexample :
  Lazy.dispatchedTypes
    (Lazy.trace
       (Lazy.loadReducer "admin" (Lazy.RUser "adminReducer") Fixtures.lazyConfigured).2)
    = ["@@LAZY_REDUCER/INIT/admin"]
  ∧ Lazy.dispatchedTypes
      (Lazy.trace
         (Lazy.loadReducer "admin" (Lazy.RUser "adminReducer") Fixtures.lazyConfigured).2)
    ≠ ["LAZY_REDUCER_INIT/admin"]
  ∧ (Lazy.loadReducer "admin" (Lazy.RUser "adminReducer") Fixtures.lazyUnconfigured).1
    = Thrown "Dispatch failed: store instance not initialize."
  ∧ Lazy.getRegisteredKeys
      (Lazy.registry
         (Lazy.loadReducer "__proto__" (Lazy.RUser "adminReducer")
            Fixtures.lazyConfigured).2)
    = []
  ∧ Lazy.reducerMapPrototype
      (Lazy.registry
         (Lazy.loadReducer "__proto__" (Lazy.RUser "adminReducer")
            Fixtures.lazyConfigured).2)
    = Some (Lazy.RUser "adminReducer").
Proof.
  split; [reflexivity|]. split; [discriminate|]. repeat split; reflexivity.
Qed.

(** *** Memoized selectors *)

Section selector_facts.
Import Selector.
Context {S V R : Type}.
Variable differ : V → V → bool.
Variable undefined : R.
Variable selectors : list (S → V).
Variable resultFn : list V → Outcome R.

Abbreviation inputs := (evalSelectors selectors).
Abbreviation call := (memoizedSelector differ selectors resultFn).
Abbreviation fresh := (create (V:=V) undefined).
Abbreviation run := (invokeAll differ selectors resultFn).
Abbreviation same := (λ c l : V, differ c l = false).

(** The loop finds no difference exactly when [!==] holds of no pair. *)
Lemma allEqual_spec (cur last : list V) :
  length cur = length last → allEqual differ cur last = true ↔ Forall2 same cur last.
Proof.
  revert last. induction cur as [|c cur IH]; intros [|l last]; simpl; try done.
  intros [= Hlen]. rewrite Forall2_cons. destruct (differ c l) eqn:Hd.
  - split; [done|]. by intros [? _].
  - rewrite (IH _ Hlen). split; [by auto|by intros [_ ?]].
Qed.

Lemma cacheHit_spec (cur : list V) (w : Closure (V:=V) (R:=R)) :
  cacheHit differ cur w = true
  ↔ ∃ last, lastInputs w = Some last ∧ Forall2 same cur last.
Proof.
  unfold cacheHit. destruct (lastInputs w) as [last|].
  - rewrite andb_true_iff, bool_decide_eq_true. split.
    + intros [Hlen Heq]. exists last. split; [done|]. by apply allEqual_spec.
    + intros (? & [= <-] & Hall).
      pose proof (Forall2_length _ _ _ Hall) as Hlen.
      split; [done|]. by apply allEqual_spec.
  - split; [done|]. by intros (? & ? & _).
Qed.

Lemma cacheHit_stable st (w : Closure (V:=V) (R:=R)) :
  stable differ selectors st → lastInputs w = Some (inputs st) →
  cacheHit differ (inputs st) w = true.
Proof.
  intros Hst Hlast. apply cacheHit_spec. exists (inputs st). split; [done|].
  unfold evalSelectors. apply Forall2_fmap, Forall_Forall2_diag.
  exact Hst.
Qed.

Lemma cacheHit_differ st st' sel (w : Closure (V:=V) (R:=R)) :
  sel ∈ selectors → differ (sel st') (sel st) = true →
  lastInputs w = Some (inputs st) → cacheHit differ (inputs st') w = false.
Proof.
  intros Hsel Hd Hlast. apply not_true_is_false. intros Hhit.
  apply cacheHit_spec in Hhit as (last & Hlast' & Hall).
  rewrite Hlast in Hlast'. injection Hlast' as <-.
  apply list_elem_of_lookup in Hsel as [i Hi].
  assert (Hsame : differ (sel st') (sel st) = false); [|by rewrite Hd in Hsame].
  apply (Forall2_lookup_lr _ _ _ i _ _ Hall);
    unfold evalSelectors; by rewrite list_lookup_fmap, Hi.
Qed.

Lemma call_hit st (w : Closure (V:=V) (R:=R)) :
  cacheHit differ (inputs st) w = true → call st w = (Returned (lastResult w), w).
Proof. intros Hhit. unfold memoizedSelector. by rewrite Hhit. Qed.

(** A miss: the inputs are cached, the counter goes up and the invocation
    is logged, whether or not the result function returns. *)
Lemma call_miss st (w : Closure (V:=V) (R:=R)) :
  cacheHit differ (inputs st) w = false →
  (call st w).1 = resultFn (inputs st)
  ∧ lastInputs (call st w).2 = Some (inputs st)
  ∧ recomputationsVar (call st w).2 = Datatypes.S (recomputationsVar w)
  ∧ resultFnCalls (call st w).2 = resultFnCalls w ++ [inputs st]
  ∧ lastResult (call st w).2
    = match resultFn (inputs st) with
      | Returned r => r
      | Thrown _ => lastResult w
      end.
Proof.
  intros Hmiss. unfold memoizedSelector. rewrite Hmiss.
  by destruct (resultFn (inputs st)).
Qed.

Lemma call_miss_returned st (w : Closure (V:=V) (R:=R)) r :
  cacheHit differ (inputs st) w = false → resultFn (inputs st) = Returned r →
  call st w
  = (Returned r,
     mkClosure (Some (inputs st)) r (Datatypes.S (recomputationsVar w))
               (resultFnCalls w ++ [inputs st])).
Proof.
  intros Hmiss Hr. unfold memoizedSelector. by rewrite Hmiss, Hr.
Qed.

(** The counter and the log of invocations advance together. *)
Lemma call_counts st (w : Closure (V:=V) (R:=R)) :
  recomputationsVar w = length (resultFnCalls w) →
  recomputationsVar (call st w).2 = length (resultFnCalls (call st w).2).
Proof.
  intros Hinv. destruct (cacheHit differ (inputs st) w) eqn:Hhit.
  - by rewrite call_hit.
  - destruct (call_miss st w Hhit) as (_ & _ & -> & -> & _).
    rewrite length_app. simpl. lia.
Qed.

Lemma run_counts states (w : Closure (V:=V) (R:=R)) :
  recomputationsVar w = length (resultFnCalls w) →
  recomputationsVar (run states w) = length (resultFnCalls (run states w)).
Proof.
  revert w. induction states as [|st states IH]; intros w Hinv; simpl; [done|].
  apply IH. by apply call_counts.
Qed.

(** Two invocations of a new selector on a state on which the input
    selectors are stable. *)
Lemma run_twice st :
  stable differ selectors st →
  lastInputs (run [st; st] fresh) = Some (inputs st)
  ∧ resultFnCalls (run [st; st] fresh) = [inputs st]
  ∧ recomputationsVar (run [st; st] fresh) = 1
  ∧ run [st; st] fresh = (call st fresh).2.
Proof.
  intros Hst. unfold invokeAll. cbn [foldl].
  destruct (call_miss st fresh eq_refl) as (_ & Hlast & Hcount & Hlog & _).
  rewrite (call_hit st (call st fresh).2) by by apply cacheHit_stable.
  cbn [snd]. by rewrite Hlast, Hcount, Hlog.
Qed.

(** C4, as the code has it. On each invocation the current inputs are
    compared with [!==], one by one, with those cached by the invocation
    before; when no pair differs the cached result is returned and the
    result function is not invoked (the closure and the log of invocations
    are unchanged); otherwise the result function is invoked once on the
    new inputs, which are cached, and the counter goes up by one; what the
    invocation gives is what the call gives, and when it is a result, that
    is cached too.  From a new selector, the counter
    equals the number of invocations of the result function after any
    series of calls.  Where the input selectors are stable, which is to
    say that what they return on a state does not differ from what they
    returned on it before, two calls on the same state invoke the result
    function once, and a further call on a state for which an input
    selector returns something that differs invokes it exactly once
    more. *)
Theorem C4_memoized_selector_recomputes_only_on_changed_inputs :
  (∀ st (w : Closure (V:=V) (R:=R)),
     (cacheHit differ (inputs st) w = true
      ↔ ∃ last, lastInputs w = Some last ∧ Forall2 same (inputs st) last) ∧
     (cacheHit differ (inputs st) w = true →
        call st w = (Returned (lastResult w), w)) ∧
     (cacheHit differ (inputs st) w = false →
        (call st w).1 = resultFn (inputs st) ∧
        lastInputs (call st w).2 = Some (inputs st) ∧
        recomputations (call st w).2 = Datatypes.S (recomputations w) ∧
        resultFnCalls (call st w).2 = resultFnCalls w ++ [inputs st] ∧
        lastResult (call st w).2
        = match resultFn (inputs st) with
          | Returned r => r
          | Thrown _ => lastResult w
          end))
  ∧ (∀ states,
       recomputations (run states fresh) = length (resultFnCalls (run states fresh)))
  ∧ (∀ st,
       stable differ selectors st →
       (call st fresh).1 = resultFn (inputs st) ∧
       resultFnCalls (run [st; st] fresh) = [inputs st] ∧
       recomputations (run [st; st] fresh) = 1 ∧
       (∀ r, resultFn (inputs st) = Returned r →
             (call st (call st fresh).2).1 = Returned r))
  ∧ (∀ st st' sel,
       stable differ selectors st → stable differ selectors st' →
       sel ∈ selectors → differ (sel st') (sel st) = true →
       (call st' (run [st; st] fresh)).1 = resultFn (inputs st') ∧
       resultFnCalls (run [st; st; st'] fresh) = [inputs st; inputs st'] ∧
       recomputations (run [st; st; st'] fresh) = 2 ∧
       resultFnCalls (run [st; st; st'; st'] fresh) = [inputs st; inputs st']).
Proof.
  split; [|split; [|split]].
  - intros st w. split; [apply cacheHit_spec|].
    split; [apply call_hit|apply call_miss].
  - intros states. by apply run_counts.
  - intros st Hst.
    destruct (run_twice st Hst) as (Hlast & Hlog & Hcount & Hrun).
    split; [by destruct (call_miss st fresh eq_refl) as [? _]|].
    split; [done|]. split; [done|].
    intros r Hr. rewrite (call_miss_returned st fresh r eq_refl Hr). simpl.
    rewrite call_hit; [done|].
    apply cacheHit_spec. exists (inputs st). split; [done|].
    unfold evalSelectors. by apply Forall2_fmap, Forall_Forall2_diag.
  - intros st st' sel Hst Hst' Hsel Hd.
    destruct (run_twice st Hst) as (Hlast & Hlog & Hcount & _).
    assert (Hmiss : cacheHit differ (inputs st') (run [st; st] fresh) = false)
      by by eapply cacheHit_differ.
    destruct (call_miss st' _ Hmiss) as (Hres & Hlast' & Hcount' & Hlog' & _).
    change (run [st; st; st'] fresh) with (call st' (run [st; st] fresh)).2.
    change (run [st; st; st'; st'] fresh)
      with (call st' (call st' (run [st; st] fresh)).2).2.
    split; [done|].
    split; [by rewrite Hlog', Hlog|].
    split; [unfold recomputations; by rewrite Hcount', Hcount|].
    rewrite call_hit by by apply cacheHit_stable.
    cbn [snd]. by rewrite Hlog', Hlog.
Qed.

End selector_facts.

Lemma C4_witness :
  Selector.resultFnCalls
    (Selector.invokeAll Fixtures.differZ Fixtures.pairSelectors Fixtures.sumResult
       [(1, 2); (1, 2); (1, 5)]%Z (Selector.create 0%Z))
  = [[1; 2]; [1; 5]]%Z ∧
  Selector.recomputations
    (Selector.invokeAll Fixtures.differZ Fixtures.pairSelectors Fixtures.sumResult
       [(1, 2); (1, 2); (1, 5)]%Z (Selector.create 0%Z)) = 2.
Proof.
  destruct (C4_memoized_selector_recomputes_only_on_changed_inputs
              Fixtures.differZ 0%Z Fixtures.pairSelectors Fixtures.sumResult)
    as (_ & _ & _ & Hchange).
  destruct (Hchange (1, 2)%Z (1, 5)%Z snd) as (_ & Hcalls & Hcount & _).
  - repeat constructor.
  - repeat constructor.
  - unfold Fixtures.pairSelectors. apply list_elem_of_In. simpl. auto.
  - reflexivity.
  - split; [exact Hcalls | exact Hcount].
Defined.

(** C4 as stated fails for an input selector that builds its result:
    with [createSelector(s => [s.a], arr => arr.length)] two calls on the
    same state compare two arrays built by two calls, which differ, and
    the result function is invoked twice. *)
Lemma C4_counterexample :
  Selector.resultFnCalls
    (Selector.invokeAll Fixtures.differInput Fixtures.buildingSelectors
       Fixtures.lengthResult [(1, 2); (1, 2)]%Z (Selector.create 0%Z))
  = [[Fixtures.Built [1%Z]]; [Fixtures.Built [1%Z]]] ∧
  Selector.recomputations
    (Selector.invokeAll Fixtures.differInput Fixtures.buildingSelectors
       Fixtures.lengthResult [(1, 2); (1, 2)]%Z (Selector.create 0%Z)) = 2.
Proof. split; reflexivity. Qed.

(** *** Entity adapter: references *)

Section entity_ref_facts.
Import Entity.
Context {T C : Type} {prototype : ObjectPrototype T}.
Variable spread : T → C → T.
Variable config : EntityAdapterConfig T.

(** Without a comparator [sortEntities] returns its argument; with one it
    returns a new object holding what the pure [sortEntities] computes. *)
Lemma sortEntities_ref (h : EntityRef.Heap T) state s :
  h !! state = Some s →
  ∃ r h', EntityRef.sortEntities config state h = Some (r, h')
          ∧ h' !! r = Some (sortEntities config s)
          ∧ h `prefix_of` h'.
Proof.
  intros Hs. unfold EntityRef.sortEntities, EntityRef.alloc, sortEntities.
  rewrite Hs. simpl.
  destruct (sortComparer config) as [cmp|].
  - eexists _, _. split; [reflexivity|]. split.
    + rewrite lookup_app_r by done. by rewrite Nat.sub_diag.
    + by apply prefix_app_r.
  - eexists _, _. split; [reflexivity|]. done.
Qed.

(** The reference-passing [addOne] computes the pure [addOne] and leaves
    every existing object as it was. *)
Lemma addOne_ref (h : EntityRef.Heap T) state s entity :
  h !! state = Some s →
  ∃ r h', EntityRef.addOne config state entity h = Some (r, h')
          ∧ h' !! r = Some (addOne config s entity)
          ∧ h `prefix_of` h'.
Proof.
  intros Hs. unfold EntityRef.addOne, EntityRef.alloc, addOne. rewrite Hs. simpl.
  destruct (lookupEntity s (selectId config entity)) as [e|].
  - eexists _, _. split; [reflexivity|]. done.
  - edestruct (sortEntities_ref
                 (h ++ [mkState (ids s ++ [selectId config entity])
                          (<[toKey (selectId config entity):=entity]> (entities s))])
                 (length h)) as (r & h' & Hrun & Hr & Hpre).
    { rewrite lookup_app_r by done. by rewrite Nat.sub_diag. }
    exists r, h'. split; [exact Hrun|]. split; [exact Hr|].
    etrans; [|exact Hpre]. by apply prefix_app_r.
Qed.

(** When [addOne] does add, the result is an object that did not exist
    before. *)
Lemma addOne_ref_fresh (h : EntityRef.Heap T) state s entity r h' :
  h !! state = Some s →
  lookupEntity s (selectId config entity) = None →
  EntityRef.addOne config state entity h = Some (r, h') →
  length h ≤ r.
Proof.
  intros Hs Hnone. unfold EntityRef.addOne, EntityRef.sortEntities, EntityRef.alloc.
  rewrite Hs. simpl. rewrite Hnone. simpl.
  rewrite lookup_app_r by done. rewrite Nat.sub_diag. simpl.
  destruct (sortComparer config); intros [= <- <-];
    rewrite ?length_app; simpl; lia.
Qed.

(** The paths that return [state]. For a state object [state] with
    contents [s]: [removeOne] with an id under which [s.entities[id]] reads
    [undefined], [updateOne] with such an id, and [addOne] with an entity
    under whose id [s.entities[id]] does not read [undefined] each return
    the reference [state] itself, and no object is created or changed. *)
Theorem noop_returns_the_same_reference
    (h : EntityRef.Heap T) (state : EntityRef.Ref) (s : EntityState T) :
  h !! state = Some s →
  (∀ id, lookupEntity s id = None →
         EntityRef.removeOne state id h = Some (state, h))
  ∧ (∀ update, lookupEntity s (upd_id update) = None →
         EntityRef.updateOne spread config state update h = Some (state, h))
  ∧ (∀ entity, is_Some (lookupEntity s (selectId config entity)) →
         EntityRef.addOne config state entity h = Some (state, h)).
Proof.
  intros Hs. split; [|split].
  - intros id Hnone. unfold EntityRef.removeOne. rewrite Hs. simpl.
    by rewrite Hnone.
  - intros update Hnone. unfold EntityRef.updateOne. rewrite Hs. simpl.
    by rewrite Hnone.
  - intros entity [e He]. unfold EntityRef.addOne. rewrite Hs. simpl.
    by rewrite He.
Qed.

End entity_ref_facts.

Lemma noop_returns_the_same_reference_witness :
  EntityRef.removeOne 0 (Entity.numberId 7) [Fixtures.onlyAlice]
    = Some (0, [Fixtures.onlyAlice]) ∧
  EntityRef.updateOne Users.spreadUser Users.sortedAdapter 0
      (Entity.mkUpdate (Entity.IdStr "7") (Users.mkPartial None (Some "Zed")))
      [Fixtures.onlyAlice]
    = Some (0, [Fixtures.onlyAlice]) ∧
  EntityRef.addOne Users.sortedAdapter 0 (Users.mkUser 1 "Alicia") [Fixtures.onlyAlice]
    = Some (0, [Fixtures.onlyAlice]).
Proof.
  destruct (noop_returns_the_same_reference Users.spreadUser Users.sortedAdapter
              [Fixtures.onlyAlice] 0 Fixtures.onlyAlice eq_refl)
    as (Hremove & Hupdate & Hadd).
  split; [apply Hremove; reflexivity|].
  split; [apply Hupdate; reflexivity|].
  apply Hadd. vm_compute. eauto.
Defined.

(** C3 fails on the code for an id that is absent from [s.entities] and
    names a member of [Object.prototype]. On the empty state, which has no
    entity under "constructor", [s.entities["constructor"]] reads
    [Object.prototype.constructor]: [removeOne] goes on to build a new
    object with the same contents, and [updateOne] merges the changes into
    the member and returns a new object holding the result as an entity,
    instead of returning the state object (reference 0) they were given. *)
Lemma C3_inherited_name_builds_a_new_object :
  Entity.entities (Entity.getInitialState (T:=Notes.Note)) !! "constructor" = None
  ∧ EntityRef.removeOne 0 (Entity.IdStr "constructor")
      [Entity.getInitialState (T:=Notes.Note)]
    = Some (1, [Entity.getInitialState; Entity.getInitialState])
  ∧ EntityRef.updateOne Notes.spreadNote Notes.adapter 0
      (Entity.mkUpdate (Entity.IdStr "constructor")
         (Notes.mkNote None (Some "Builders")))
      [Entity.getInitialState]
    = Some (1, [Entity.getInitialState;
                Entity.mkState []
                  {[ "constructor" := Notes.mkNote None (Some "Builders") ]}]).
Proof. split; [|split]; vm_compute; reflexivity. Qed.

(** *** Entity adapter: sorting *)

Section sort_facts.
Import Entity EntityInv.
Context {T : Type}.
Variable cmp : T → T → Z.

Lemma sort_insert_perm x (l : list T) : sort_insert cmp x l ≡ₚ x :: l.
Proof.
  induction l as [|y l IH]; simpl; [done|].
  destruct (decide (cmp x y ≤ 0)%Z); [done|].
  rewrite IH. apply Permutation_swap.
Qed.

Lemma js_sort_perm (l : list T) : js_sort cmp l ≡ₚ l.
Proof.
  induction l as [|x l IH]; simpl; [done|].
  by rewrite sort_insert_perm, IH.
Qed.

Lemma sort_insert_hd x y (l : list T) :
  notAfter cmp y x → HdRel (notAfter cmp) y l →
  HdRel (notAfter cmp) y (sort_insert cmp x l).
Proof.
  intros Hyx Hhd. destruct l as [|z l]; simpl.
  - by constructor.
  - destruct (decide (cmp x z ≤ 0)%Z); constructor; [done|].
    by inversion Hhd.
Qed.

Lemma sort_insert_sorted x (l : list T) :
  (∀ a b, notAfter cmp a b ∨ notAfter cmp b a) →
  Sorted (notAfter cmp) l → Sorted (notAfter cmp) (sort_insert cmp x l).
Proof.
  intros Htotal. induction 1 as [|y l Hsorted IH Hhd]; simpl.
  - by repeat constructor.
  - destruct (decide (cmp x y ≤ 0)%Z) as [Hxy|Hxy].
    + constructor; [by constructor|by constructor].
    + constructor; [done|]. apply sort_insert_hd; [|done].
      destruct (Htotal x y); done.
Qed.

Lemma js_sort_sorted (l : list T) :
  (∀ a b, notAfter cmp a b ∨ notAfter cmp b a) →
  Sorted (notAfter cmp) (js_sort cmp l).
Proof.
  intros Htotal. induction l as [|x l IH]; simpl; [constructor|].
  by apply sort_insert_sorted.
Qed.

(** What a consistent comparator gives: [cmp(a, b)] is negative exactly
    when [cmp(b, a)] is positive, and "not after" is transitive and
    total. *)
Lemma consistentComparer_sign :
  consistentComparer cmp → ∀ a b, (cmp a b < 0)%Z ↔ (0 < cmp b a)%Z.
Proof.
  intros (Hrefl & Hsym & _ & Hlt & Hgt) a b. split; intros Hab.
  - destruct (Z.lt_trichotomy (cmp b a) 0) as [Hba|[Hba|Hba]]; [| |done].
    + pose proof (Hlt a b a Hab Hba). pose proof (Hrefl a). lia.
    + pose proof (Hsym b a Hba). lia.
  - destruct (Z.lt_trichotomy (cmp a b) 0) as [Hba|[Hba|Hba]]; [done| |].
    + pose proof (Hsym a b Hba). lia.
    + pose proof (Hgt b a b Hab Hba). pose proof (Hrefl b). lia.
Qed.

Lemma consistentComparer_trans :
  consistentComparer cmp →
  ∀ a b c, notAfter cmp a b → notAfter cmp b c → notAfter cmp a c.
Proof.
  intros Hcons a b c. pose proof (consistentComparer_sign Hcons) as Hsign.
  destruct Hcons as (_ & Hsym & Heq & Hlt & _).
  unfold notAfter. intros Hab Hbc.
  destruct (decide (cmp a c ≤ 0)%Z) as [?|Hac]; [done|exfalso].
  assert (Hca : (cmp c a < 0)%Z) by (apply Hsign; lia).
  destruct (decide (cmp a b = 0%Z)) as [Hab0|?];
    destruct (decide (cmp b c = 0%Z)) as [Hbc0|?].
  - pose proof (Heq a b c Hab0 Hbc0). lia.
  - assert (cmp b a < 0)%Z by (apply (Hlt b c a); lia).
    pose proof (Hsym a b Hab0). lia.
  - assert (cmp c b < 0)%Z by (apply (Hlt c a b); lia).
    pose proof (Hsym b c Hbc0). lia.
  - assert (cmp a c < 0)%Z by (apply (Hlt a b c); lia). lia.
Qed.

(** The other way round: a comparator with these two properties is
    consistent. *)
Lemma consistentComparer_intro :
  (∀ a b, (cmp a b < 0)%Z ↔ (0 < cmp b a)%Z) →
  (∀ a b c, notAfter cmp a b → notAfter cmp b c → notAfter cmp a c) →
  consistentComparer cmp.
Proof.
  unfold notAfter. intros Hsign Htrans.
  assert (Hrefl : ∀ a, cmp a a = 0%Z).
  { intros a. pose proof (Hsign a a). lia. }
  assert (Hsym : ∀ a b, cmp a b = 0%Z → cmp b a = 0%Z).
  { intros a b Hab. pose proof (Hsign a b). pose proof (Hsign b a). lia. }
  assert (Hlt : ∀ a b c, (cmp a b < 0)%Z → (cmp b c < 0)%Z → (cmp a c < 0)%Z).
  { intros a b c Hab Hbc.
    assert (cmp a c ≤ 0)%Z by (apply (Htrans a b c); lia).
    destruct (decide (cmp a c = 0%Z)) as [Hac|?]; [|lia].
    assert (cmp c b ≤ 0)%Z.
    { apply (Htrans c a b); [|lia]. pose proof (Hsym a c Hac). lia. }
    pose proof (Hsign b c). lia. }
  split; [done|]. split; [done|]. split; [|split; [done|]].
  - intros a b c Hab Hbc.
    assert (cmp a c ≤ 0)%Z by (apply (Htrans a b c); lia).
    assert (cmp c a ≤ 0)%Z.
    { apply (Htrans c b a); [pose proof (Hsym b c Hbc)|pose proof (Hsym a b Hab)]; lia. }
    pose proof (Hsign a c). lia.
  - intros a b c Hab Hbc. apply Hsign. apply (Hlt c b a); by apply Hsign.
Qed.

Lemma consistentComparer_total :
  consistentComparer cmp → ∀ a b, notAfter cmp a b ∨ notAfter cmp b a.
Proof.
  intros Hcons a b. pose proof (consistentComparer_sign Hcons) as Hsign.
  unfold notAfter.
  destruct (decide (cmp a b ≤ 0)%Z) as [?|Hab]; [by left|right].
  assert (cmp b a < 0)%Z by (apply Hsign; lia). lia.
Qed.

Lemma consistentComparer_equal a b :
  consistentComparer cmp →
  notAfter cmp a b → notAfter cmp b a → cmp a b = 0%Z.
Proof.
  intros Hcons Hab Hba. pose proof (consistentComparer_sign Hcons) as Hsign.
  unfold notAfter in *.
  destruct (decide (cmp a b < 0)%Z) as [Hlt|?]; [|lia].
  apply Hsign in Hlt. lia.
Qed.

Lemma consistentComparer_equal_sym a b :
  consistentComparer cmp → cmp a b = 0%Z → cmp b a = 0%Z.
Proof. intros (_ & Hsym & _). apply Hsym. Qed.

Lemma consistentComparer_equal_trans a b c :
  consistentComparer cmp → cmp a b = 0%Z → cmp b c = 0%Z → cmp a c = 0%Z.
Proof. intros (_ & _ & Heq & _). apply Heq. Qed.

(** The insertion passes only elements that do not compare as equal to
    the one inserted, so that equal elements keep their order. *)
Lemma sort_insert_filter x z (l : list T) :
  consistentComparer cmp →
  filter (λ y, cmp z y = 0%Z) (sort_insert cmp x l)
  = filter (λ y, cmp z y = 0%Z) (x :: l).
Proof.
  intros Hcons. induction l as [|y l IH]; simpl; [done|].
  destruct (decide (cmp x y ≤ 0)%Z) as [Hxy|Hxy]; [done|].
  rewrite filter_cons, IH, !filter_cons.
  destruct (decide (cmp z y = 0%Z)) as [Hzy|Hzy];
    destruct (decide (cmp z x = 0%Z)) as [Hzx|Hzx]; try done.
  exfalso. apply Hxy.
  rewrite (consistentComparer_equal_trans x z y); [done..| |done].
  by apply consistentComparer_equal_sym.
Qed.

(** For a consistent comparator [js_sort] is the stable sort. *)
Lemma js_sort_stable (l : list T) :
  consistentComparer cmp → stableSort cmp l (js_sort cmp l).
Proof.
  intros Hcons. split.
  - by apply js_sort_sorted, consistentComparer_total.
  - intros z. induction l as [|x l IH]; simpl; [done|].
    by rewrite sort_insert_filter, !filter_cons, IH.
Qed.

(** And the stable sort is unique: whatever [Array.prototype.sort] does
    inside, for a consistent comparator it returns what [js_sort] returns. *)
Lemma stableSort_unique (l l1 l2 : list T) :
  consistentComparer cmp →
  stableSort cmp l l1 → stableSort cmp l l2 → l1 = l2.
Proof.
  intros Hcons [Hs1 Hf1] [Hs2 Hf2].
  assert (Hf : ∀ x, filter (λ y, cmp x y = 0%Z) l1
                    = filter (λ y, cmp x y = 0%Z) l2)
    by (intros x; by rewrite Hf1, Hf2).
  clear Hf1 Hf2 l. pose proof (consistentComparer_trans Hcons) as Htrans.
  pose proof Hcons as [Hrefl _].
  apply Sorted_StronglySorted in Hs1; [|by intros a b c; apply Htrans].
  apply Sorted_StronglySorted in Hs2; [|by intros a b c; apply Htrans].
  revert l2 Hs2 Hf.
  induction l1 as [|a l1 IH]; intros l2 Hs2 Hf.
  - destruct l2 as [|b l2]; [done|].
    specialize (Hf b). rewrite filter_cons, decide_True in Hf by done. done.
  - destruct l2 as [|b l2].
    { specialize (Hf a). rewrite filter_cons, decide_True in Hf by done. done. }
    apply StronglySorted_inv in Hs1 as [Hs1 Ha].
    apply StronglySorted_inv in Hs2 as [Hs2 Hb].
    assert (Hab : cmp a b = 0%Z).
    { apply consistentComparer_equal; [done|..].
      - assert (Hin : b ∈ a :: l1).
        { assert (Hbin : b ∈ filter (λ y, cmp b y = 0%Z) (a :: l1)).
          { rewrite Hf, filter_cons, decide_True by done. by left. }
          by apply list_elem_of_filter in Hbin as [_ ?]. }
        apply elem_of_cons in Hin as [->|Hin].
        + unfold notAfter. by rewrite Hrefl.
        + by eapply Forall_forall in Ha.
      - assert (Hin : a ∈ b :: l2).
        { assert (Hain : a ∈ filter (λ y, cmp a y = 0%Z) (b :: l2)).
          { rewrite <- Hf, filter_cons, decide_True by done. by left. }
          by apply list_elem_of_filter in Hain as [_ ?]. }
        apply elem_of_cons in Hin as [->|Hin].
        + unfold notAfter. by rewrite Hrefl.
        + by eapply Forall_forall in Hb. }
    assert (a = b) as <-.
    { pose proof (Hf a) as Hfa.
      rewrite !filter_cons, !decide_True in Hfa by done. by injection Hfa. }
    f_equal. apply IH; [done..|].
    intros x. specialize (Hf x). rewrite !filter_cons in Hf.
    destruct (decide (cmp x a = 0%Z)); [by injection Hf|done].
Qed.

End sort_facts.

(** *** Entity adapter: the invariant *)

Section entity_facts.
Import Entity EntityInv.
Context {T C : Type} {prototype : ObjectPrototype T}.
Variable spread : T → C → T.
Variable config : EntityAdapterConfig T.

Abbreviation keyOf := (toKey ∘ selectId config).
Abbreviation wf := (wellFormed config).

(** Reading a property: own properties come first. *)
Lemma getProperty_own (m : gmap string T) k e :
  m !! k = Some e → getProperty m k = Some e.
Proof. unfold getProperty. by intros ->. Qed.

Lemma getProperty_None (m : gmap string T) k :
  getProperty m k = None ↔ m !! k = None ∧ objectPrototype !! k = None.
Proof.
  unfold getProperty. destruct (m !! k) as [v|]; split.
  - done.
  - by intros [? _].
  - by intros ->.
  - by intros [_ ->].
Qed.

Lemma getProperty_ordinary (m : gmap string T) k :
  objectPrototype !! k = None → getProperty m k = m !! k.
Proof. unfold getProperty. intros ->. by destruct (m !! k). Qed.

Lemma getProperty_insert (m : gmap string T) k k' v :
  getProperty (<[k := v]> m) k'
  = if decide (k' = k) then Some v else getProperty m k'.
Proof.
  unfold getProperty. destruct (decide (k' = k)) as [->|Hne].
  - by rewrite lookup_insert_eq.
  - by rewrite lookup_insert_ne.
Qed.

Lemma getProperty_delete (m : gmap string T) k k' :
  getProperty (delete k m) k'
  = if decide (k' = k) then objectPrototype !! k else getProperty m k'.
Proof.
  unfold getProperty. destruct (decide (k' = k)) as [->|Hne].
  - by rewrite lookup_delete_eq.
  - by rewrite lookup_delete_ne.
Qed.

Lemma assignProperty_ordinary (m : gmap string T) k v :
  objectPrototype !! k = None → assignProperty k v m = <[k := v]> m.
Proof.
  intros Hk. unfold assignProperty. rewrite decide_False; [done|].
  intros [_ [x Hx]]. congruence.
Qed.

Lemma wellFormed_initial : wf (getInitialState (T:=T)).
Proof.
  split; [constructor|]. split.
  - intros k. simpl. rewrite elem_of_nil, lookup_empty. split; [done|].
    by intros [? ?].
  - intros k e. simpl. by rewrite lookup_empty.
Qed.

(** Every id of a well-formed state is bound to an entity stored under
    its own key. *)
Lemma wellFormed_lookup (s : EntityState T) i :
  wf s → i ∈ ids s →
  ∃ e, lookupEntity s i = Some e ∧ keyOf e = toKey i.
Proof.
  intros (_ & Hdom & Hkeyed) Hi.
  destruct (proj1 (Hdom (toKey i))) as [e He].
  { by apply list_elem_of_fmap_2. }
  exists e. split; [by apply getProperty_own|]. by apply Hkeyed.
Qed.

Lemma omap_lookup_keys (f : Id → option T) (l : list Id) :
  (∀ i, i ∈ l → ∃ e, f i = Some e ∧ keyOf e = toKey i) →
  keyOf <$> omap f l = toKey <$> l.
Proof.
  induction l as [|i l IH]; intros Hl; simpl; [done|].
  destruct (Hl i) as (e & He & Hk); [by left|].
  rewrite He. simpl. simpl in Hk. rewrite Hk. f_equal.
  apply IH. intros j Hj. apply Hl. by right.
Qed.

Lemma selectAll_keys (s : EntityState T) :
  wf s → keyOf <$> selectAll s = toKey <$> ids s.
Proof.
  intros Hwf. apply omap_lookup_keys.
  intros i Hi. by apply wellFormed_lookup.
Qed.

(** Sorting permutes the keys of [ids] and leaves [entities] alone. *)
Lemma sortEntities_keys (s : EntityState T) :
  wf s → toKey <$> ids (sortEntities config s) ≡ₚ toKey <$> ids s.
Proof.
  intros Hwf. unfold sortEntities.
  destruct (sortComparer config) as [cmp|]; [|done]. simpl.
  rewrite <- list_fmap_compose, <- selectAll_keys by done.
  apply fmap_Permutation, js_sort_perm.
Qed.

Lemma sortEntities_entities (s : EntityState T) :
  entities (sortEntities config s) = entities s.
Proof. unfold sortEntities. by destruct (sortComparer config). Qed.

Lemma sortEntities_wf (s : EntityState T) : wf s → wf (sortEntities config s).
Proof.
  intros Hwf. pose proof (sortEntities_keys s Hwf) as Hperm.
  destruct Hwf as (Hnd & Hdom & Hkeyed).
  split; [by rewrite Hperm|]. split.
  - intros k. rewrite Hperm, sortEntities_entities. apply Hdom.
  - intros k e. rewrite sortEntities_entities. apply Hkeyed.
Qed.

Lemma wellFormed_insert_new (s : EntityState T) id e :
  wf s → lookupEntity s id = None → selectId config e = id →
  wf (mkState (ids s ++ [id]) (<[toKey id := e]> (entities s))).
Proof.
  intros (Hnd & Hdom & Hkeyed) Hnone Hid.
  apply getProperty_None in Hnone as [Hnone _].
  split; [|split]; simpl.
  - rewrite fmap_app. apply NoDup_app. split; [done|]. split; [|apply NoDup_singleton].
    intros k Hk. simpl. rewrite list_elem_of_singleton. intros ->.
    apply Hdom in Hk as [x Hx]. congruence.
  - intros k. rewrite fmap_app, elem_of_app, lookup_insert_is_Some. simpl.
    rewrite list_elem_of_singleton, Hdom.
    destruct (decide (toKey id = k)) as [->|Hne]; [by split; auto|].
    split; [intros [?|?]; [by auto|congruence]|intros [?|[_ ?]]; [congruence|by auto]].
  - intros k x. simpl. rewrite lookup_insert_Some.
    intros [[<- <-]|[_ Hx]]; [by rewrite <- Hid|by apply Hkeyed].
Qed.

Lemma wellFormed_insert_existing (s : EntityState T) k e :
  wf s → is_Some (entities s !! k) → keyOf e = k →
  wf (mkState (ids s) (<[k := e]> (entities s))).
Proof.
  intros (Hnd & Hdom & Hkeyed) Hsome Hk.
  split; [done|]. split; simpl.
  - intros k'. rewrite lookup_insert_is_Some, Hdom.
    destruct (decide (k = k')) as [<-|Hne]; [by split; auto|].
    split; [by auto|intros [?|[_ ?]]; [congruence|done]].
  - intros k' x. simpl. rewrite lookup_insert_Some.
    intros [[<- <-]|[_ Hx]]; [done|by apply Hkeyed].
Qed.

(** Under [sameRepresentation], filtering the ids filters their keys. *)
Lemma filter_ids_keys (l : list Id) id :
  (∀ j, j ∈ l → toKey j = toKey id → strictlyEqual j id) →
  toKey <$> filter (λ existingId, ¬ strictlyEqual existingId id) l
  = filter (λ k, k ≠ toKey id) (toKey <$> l).
Proof.
  induction l as [|j l IH]; intros Hrepr; [done|].
  rewrite fmap_cons, !filter_cons.
  assert (Htail : ∀ j', j' ∈ l → toKey j' = toKey id → strictlyEqual j' id).
  { intros j' Hj'. apply Hrepr. by right. }
  destruct (decide (¬ strictlyEqual j id)) as [Hne|Heq].
  - rewrite decide_True; [by rewrite fmap_cons, IH|].
    intros Hk. apply Hne, Hrepr; [by left|done].
  - apply dec_stable in Heq as [-> _]. rewrite decide_False by auto. by apply IH.
Qed.

Lemma wellFormed_remove (s : EntityState T) id :
  wf s → sameRepresentation s id →
  wf (mkState (filter (λ existingId, ¬ strictlyEqual existingId id) (ids s))
              (delete (toKey id) (entities s))).
Proof.
  intros (Hnd & Hdom & Hkeyed) Hrepr.
  split; [|split]; simpl.
  - rewrite filter_ids_keys by done. by apply NoDup_filter.
  - intros k. rewrite filter_ids_keys by done.
    rewrite list_elem_of_filter, lookup_delete_is_Some, Hdom.
    split; [intros [? ?]|intros [? ?]]; split; auto.
  - intros k x. simpl. rewrite lookup_delete_Some. intros [_ Hx]. by apply Hkeyed.
Qed.

Lemma addOne_wf (s : EntityState T) e : wf s → wf (addOne config s e).
Proof.
  intros Hwf. unfold addOne.
  destruct (lookupEntity s (selectId config e)) eqn:Hlook; [done|].
  by apply sortEntities_wf, wellFormed_insert_new.
Qed.

Lemma setOne_wf (s : EntityState T) e :
  wf s → ordinary (selectId config e) → wf (setOne config s e).
Proof.
  intros Hwf Hord. unfold setOne. apply sortEntities_wf.
  case_bool_decide as Hex.
  - apply wellFormed_insert_existing; [done| |done].
    unfold lookupEntity in Hex. by rewrite getProperty_ordinary in Hex.
  - apply wellFormed_insert_new; [done| |done].
    by apply eq_None_not_Some.
Qed.

Lemma upsertOne_wf (s : EntityState T) e :
  wf s → ordinary (selectId config e) → wf (upsertOne config s e).
Proof.
  intros Hwf Hord. unfold upsertOne.
  destruct (lookupEntity s (selectId config e)); [by apply setOne_wf|by apply addOne_wf].
Qed.

Lemma removeOne_wf (s : EntityState T) id :
  wf s → sameRepresentation s id → wf (removeOne s id).
Proof.
  intros Hwf Hrepr. unfold removeOne.
  destruct (lookupEntity s id); [by apply wellFormed_remove|done].
Qed.

Lemma updateOne_wf (s : EntityState T) u :
  wf s → keepsKey spread config u → ordinary (upd_id u) →
  wf (updateOne spread config s u).
Proof.
  intros Hwf Hkeeps Hord. unfold updateOne.
  destruct (lookupEntity s (upd_id u)) as [existing|] eqn:Hlook; [|done].
  unfold lookupEntity in Hlook. rewrite getProperty_ordinary in Hlook by done.
  apply sortEntities_wf, wellFormed_insert_existing; [done|by eauto|].
  apply Hkeeps. destruct Hwf as (_ & _ & Hkeyed). by apply Hkeyed.
Qed.

Lemma foldl_push {A B} (f : A → B) (es : list A) (acc : list B) :
  foldl (λ l e, l ++ [f e]) acc es = acc ++ (f <$> es).
Proof.
  revert acc. induction es as [|e es IH]; intros acc; simpl.
  - by rewrite app_nil_r.
  - by rewrite IH, <- app_assoc.
Qed.

(** What the loop of [setAll] leaves in [newEntities]. *)
Lemma foldl_assign (es : list T) (m0 : gmap string T) :
  let m := foldl (λ m e, <[keyOf e := e]> m) m0 es in
  (∀ k, is_Some (m !! k) ↔ is_Some (m0 !! k) ∨ k ∈ keyOf <$> es)
  ∧ (∀ k x, m !! k = Some x → m0 !! k = Some x ∨ keyOf x = k).
Proof.
  revert m0. induction es as [|e es IH]; intros m0; simpl.
  - split; [|by auto]. intros k. rewrite elem_of_nil. tauto.
  - destruct (IH (<[toKey (selectId config e) := e]> m0)) as [Hdom Hval].
    split.
    + intros k. rewrite Hdom, lookup_insert_is_Some, elem_of_cons.
      destruct (decide (toKey (selectId config e) = k)) as [Heq|Hne];
        simpl; intuition congruence.
    + intros k x Hx. apply Hval in Hx as [Hx|Hx]; [|by auto].
      apply lookup_insert_Some in Hx as [[<- <-]|[_ Hx]]; auto.
Qed.

(** Under keys that are not names of members of [Object.prototype] the
    assignments of [setAll] create properties. *)
Lemma foldl_assignProperty (es : list T) (m0 : gmap string T) :
  Forall (λ e, ordinary (selectId config e)) es →
  foldl (λ m e, assignProperty (keyOf e) e m) m0 es
  = foldl (λ m e, <[keyOf e := e]> m) m0 es.
Proof.
  revert m0. induction es as [|e es IH]; intros m0 Hes; simpl; [done|].
  apply Forall_cons in Hes as [He Hes].
  rewrite assignProperty_ordinary by done. by apply IH.
Qed.

Lemma setAll_wf (s : EntityState T) es :
  NoDup (keyOf <$> es) → Forall (λ e, ordinary (selectId config e)) es →
  wf (setAll config s es).
Proof.
  intros Hnd Hord. unfold setAll. apply sortEntities_wf.
  rewrite foldl_assignProperty by done.
  destruct (foldl_assign es ∅) as [Hdom Hval].
  rewrite foldl_push. split; [|split]; simpl.
  - by rewrite <- list_fmap_compose.
  - intros k. rewrite <- list_fmap_compose, Hdom, lookup_empty.
    split; [by auto|]. intros [[? ?]|?]; done.
  - intros k x Hx. apply Hval in Hx as [Hx|Hx]; [|done].
    by rewrite lookup_empty in Hx.
Qed.

Lemma addMany_wf es (s : EntityState T) : wf s → wf (addMany config s es).
Proof.
  unfold addMany. revert s.
  induction es as [|e es IH]; intros s Hwf; simpl; [done|].
  by apply IH, addOne_wf.
Qed.

Lemma upsertMany_wf es (s : EntityState T) :
  wf s → Forall (λ e, ordinary (selectId config e)) es →
  wf (upsertMany config s es).
Proof.
  unfold upsertMany. revert s.
  induction es as [|e es IH]; intros s Hwf Hes; simpl; [done|].
  apply Forall_cons in Hes as [He Hes].
  by apply IH; [apply upsertOne_wf|].
Qed.

Lemma updateMany_wf us (s : EntityState T) :
  wf s → Forall (λ u, keepsKey spread config u ∧ ordinary (upd_id u)) us →
  wf (updateMany spread config s us).
Proof.
  unfold updateMany. revert s.
  induction us as [|u us IH]; intros s Hwf Hus; simpl; [done|].
  apply Forall_cons in Hus as [[Hu Hord] Hus].
  by apply IH; [apply updateOne_wf|].
Qed.

Lemma removeOne_ids (s : EntityState T) id j :
  j ∈ ids (removeOne s id) → j ∈ ids s.
Proof.
  unfold removeOne. destruct (lookupEntity s id); [|done]. simpl.
  rewrite list_elem_of_filter. by intros [_ ?].
Qed.

Lemma removeMany_wf l (s : EntityState T) :
  wf s → Forall (sameRepresentation s) l → wf (removeMany s l).
Proof.
  unfold removeMany. revert s.
  induction l as [|id l IH]; intros s Hwf Hl; simpl; [done|].
  apply Forall_cons in Hl as [Hid Hl].
  apply IH; [by apply removeOne_wf|].
  eapply Forall_impl; [exact Hl|].
  intros id' Hrepr j Hj. apply Hrepr. by eapply removeOne_ids.
Qed.

(** A well-formed state satisfies the invariant of [EntityState]. *)
Lemma wellFormed_stateInvariant (s : EntityState T) : wf s → stateInvariant s.
Proof.
  intros (Hnd & Hdom & _). split.
  - by eapply NoDup_fmap_1.
  - apply set_eq. intros k. rewrite elem_of_list_to_set, elem_of_dom. apply Hdom.
Qed.

(** C1, as the code has it. Every operation of every adapter maps a
    well-formed state (ids with pairwise distinct keys, which are exactly
    the keys of [entities], every entity filed under the key of its own id)
    to a well-formed state, which in particular has no duplicates in [ids]
    and has the members of [ids] as the keys of [entities], provided that
    [setAll] is given entities with pairwise distinct ids, [removeOne] and
    [removeMany] are given ids that are [===] to the member of [ids] with
    their key (written as [ids] has them, and not NaN), [updateOne]
    and [updateMany] are given changes that keep the id, and no id given
    to [setAll], [setOne], [updateOne], [updateMany], [upsertOne] or
    [upsertMany] is the name of a member of [Object.prototype]. *)
Theorem C1_operations_maintain_the_invariant
    (s : EntityState T) (o : Op (T:=T) (C:=C)) :
  wellFormed config s →
  admissible spread config s o →
  wellFormed config (apply spread config s o)
  ∧ stateInvariant (apply spread config s o).
Proof.
  intros Hwf Hadm.
  assert (wf (apply spread config s o)) as Hres;
    [|by split; [|apply wellFormed_stateInvariant]].
  destruct o; simpl in *.
  - by apply addOne_wf.
  - by apply addMany_wf.
  - by apply setAll_wf; [apply Hadm|apply Hadm].
  - by apply setOne_wf.
  - by apply removeOne_wf.
  - by apply removeMany_wf.
  - apply wellFormed_initial.
  - by apply updateOne_wf; [|apply Hadm|apply Hadm].
  - by apply updateMany_wf.
  - by apply upsertOne_wf.
  - by apply upsertMany_wf.
Qed.

End entity_facts.

Lemma C1_witness :
  EntityInv.stateInvariant
    (Entity.updateOne Users.spreadUser Users.sortedAdapter
       Fixtures.aliceAndBob Fixtures.renameAlice).
Proof.
  refine (proj2 (C1_operations_maintain_the_invariant
                   Users.spreadUser Users.sortedAdapter
                   Fixtures.aliceAndBob (Entity.UpdateOne Fixtures.renameAlice) _ _)).
  - refine (proj1 (C1_operations_maintain_the_invariant
                     Users.spreadUser Users.sortedAdapter
                     Entity.getInitialState
                     (Entity.AddMany [Fixtures.alice; Fixtures.bob]) _ _)).
    + apply wellFormed_initial.
    + exact I.
  - split; [intros e He; exact He|reflexivity].
Defined.

(** C1 as stated fails, in six ways. [setAll] keeps the duplicates of its
    input; with a comparator, [updateOne] with changes to the id lists the
    new id while the entity stays under the old key; [removeOne] with the
    string "1" deletes the entity of the number 1 and leaves the number in
    [ids]; with a comparator the ids are recomputed from the entities,
    so a state whose only entity carries another id than its key loses the
    invariant on [addOne]; [setOne] of an entity with the id "toString"
    on the empty state finds [Object.prototype.toString] under that key,
    takes the entity as existing and stores it without listing its id; and
    [removeOne] of NaN deletes the entity under "NaN" and leaves NaN in
    [ids], where [!==] tells it apart from itself. *)
Lemma C1_counterexample :
  (EntityInv.stateInvariant (Entity.getInitialState (T:=Users.User)) ∧
   ¬ EntityInv.stateInvariant
       (Entity.apply Users.spreadUser Users.plainAdapter Entity.getInitialState
          (Entity.SetAll [Fixtures.alice; Users.mkUser 1 "Al"])))
  ∧ (EntityInv.stateInvariant Fixtures.aliceAndBob ∧
     ¬ EntityInv.stateInvariant
         (Entity.apply Users.spreadUser Users.sortedAdapter Fixtures.aliceAndBob
            (Entity.UpdateOne Fixtures.renumberAlice)))
  ∧ (EntityInv.stateInvariant Fixtures.onlyAlice ∧
     ¬ EntityInv.stateInvariant
         (Entity.apply Users.spreadUser Users.plainAdapter Fixtures.onlyAlice
            (Entity.RemoveOne (Entity.IdStr "1"))))
  ∧ (EntityInv.stateInvariant Fixtures.misfiled ∧
     ¬ EntityInv.stateInvariant
         (Entity.apply Users.spreadUser Users.sortedAdapter Fixtures.misfiled
            (Entity.AddOne Fixtures.charlie)))
  ∧ (EntityInv.stateInvariant (Entity.getInitialState (T:=Notes.Note)) ∧
     Entity.apply Notes.spreadNote Notes.adapter Entity.getInitialState
       (Entity.SetOne Fixtures.methodsNote)
     = Entity.mkState [] {[ "toString" := Fixtures.methodsNote ]} ∧
     ¬ EntityInv.stateInvariant
         (Entity.apply Notes.spreadNote Notes.adapter Entity.getInitialState
            (Entity.SetOne Fixtures.methodsNote)))
  ∧ (EntityInv.stateInvariant Fixtures.underNaN ∧
     Entity.apply Users.spreadUser Users.plainAdapter Fixtures.underNaN
       (Entity.RemoveOne Entity.IdNaN)
     = Entity.mkState [Entity.IdNaN] ∅ ∧
     ¬ EntityInv.stateInvariant
         (Entity.apply Users.spreadUser Users.plainAdapter Fixtures.underNaN
            (Entity.RemoveOne Entity.IdNaN))).
Proof.
  assert (Hholds : ∀ (T : Type) (s : Entity.EntityState T),
            bool_decide (EntityInv.stateInvariant s) = true →
            EntityInv.stateInvariant s)
    by (intros T s; apply bool_decide_eq_true_1).
  assert (Hfails : ∀ (T : Type) (s : Entity.EntityState T),
            bool_decide (EntityInv.stateInvariant s) = false →
            ¬ EntityInv.stateInvariant s)
    by (intros T s; apply bool_decide_eq_false_1).
  split; [|split; [|split; [|split; [|split]]]];
    [split; [apply Hholds|apply Hfails]; vm_compute; reflexivity..| |];
    (split; [apply Hholds; vm_compute; reflexivity|]);
    (split; [vm_compute; reflexivity|apply Hfails; vm_compute; reflexivity]).
Qed.

(** *** Entity adapter: the sort invariant *)

Section sort_invariant.
Import Entity EntityInv.
Context {T C : Type} {prototype : ObjectPrototype T}.
Variable spread : T → C → T.
Variable config : EntityAdapterConfig T.
Variable cmp : T → T → Z.
Hypothesis Hcmp : sortComparer config = Some cmp.
Hypothesis Htotal : ∀ a b, notAfter cmp a b ∨ notAfter cmp b a.

Abbreviation keyOf := (toKey ∘ selectId config).

Lemma wellFormed_listed (s : EntityState T) : wellFormed config s → listed config s.
Proof.
  intros (Hnd & Hdom & Hkeyed). split; [done|]. intros i Hi.
  destruct (proj1 (Hdom (toKey i))) as [e He]; [by apply list_elem_of_fmap_2|].
  exists e. split; [done|]. by apply Hkeyed.
Qed.

Lemma listed_lookup (s : EntityState T) i :
  listed config s → i ∈ ids s →
  ∃ e, lookupEntity s i = Some e ∧ entities s !! toKey i = Some e
       ∧ keyOf e = toKey i.
Proof.
  intros [_ Hown] Hi. destruct (Hown i Hi) as (e & He & Hk).
  exists e. split; [by apply getProperty_own|done].
Qed.

(** With a comparator, [sortEntities] lists the ids of the entities that
    [ids] leads to, in sorted order. *)
Lemma sortEntities_listed (s : EntityState T) :
  listed config s →
  listed config (sortEntities config s) ∧ sortedView cmp (sortEntities config s).
Proof.
  intros Hl. unfold sortEntities. rewrite Hcmp.
  assert (Hsel : ∀ e, e ∈ js_sort cmp (selectAll s) →
            entities s !! keyOf e = Some e).
  { intros e He. rewrite js_sort_perm in He.
    apply list_elem_of_omap in He as (i & Hi & Hlook).
    destruct (listed_lookup s i Hl Hi) as (e' & Hlook' & Hown & Hk).
    rewrite Hlook in Hlook'. injection Hlook' as <-. simpl in *. by rewrite Hk. }
  split; [split|]; simpl.
  - rewrite <- list_fmap_compose.
    assert (Hperm : keyOf <$> js_sort cmp (selectAll s) ≡ₚ toKey <$> ids s).
    { rewrite js_sort_perm. unfold selectAll.
      rewrite (omap_lookup_keys config); [done|].
      intros i Hi. destruct (listed_lookup s i Hl Hi) as (e & ? & _ & ?). eauto. }
    rewrite Hperm. apply Hl.
  - intros i Hi. apply list_elem_of_fmap in Hi as (e & -> & He).
    exists e. split; [by apply Hsel|done].
  - exists (js_sort cmp (selectAll s)). split; [|by apply js_sort_sorted].
    unfold mapIds. simpl. rewrite <- list_fmap_compose.
    apply Forall_fmap_ext_1, Forall_forall. intros e He. simpl.
    unfold lookupEntity. simpl. by apply getProperty_own, Hsel.
Qed.

Lemma sortEntities_sortedState (s : EntityState T) :
  wellFormed config s → sortedState config cmp (sortEntities config s).
Proof.
  intros Hwf. split; [by apply sortEntities_wf|].
  by apply sortEntities_listed, wellFormed_listed.
Qed.

Lemma sortedState_initial : sortedState config cmp (getInitialState (T:=T)).
Proof.
  split; [apply wellFormed_initial|]. exists []. split; [done|constructor].
Qed.

Lemma addOne_sortedState (s : EntityState T) e :
  sortedState config cmp s → sortedState config cmp (addOne config s e).
Proof.
  intros Hs. unfold addOne.
  destruct (lookupEntity s (selectId config e)) eqn:Hlook; [done|].
  apply sortEntities_sortedState, wellFormed_insert_new; [apply Hs|done..].
Qed.

Lemma addMany_sortedState es (s : EntityState T) :
  sortedState config cmp s → sortedState config cmp (addMany config s es).
Proof.
  unfold addMany. revert s.
  induction es as [|e es IH]; intros s Hs; simpl; [done|].
  by apply IH, addOne_sortedState.
Qed.

(** The states the calls of a sorting adapter lead to: every id listed has
    its entity, and the entities read through [ids] are in order.  Ids that
    name members of [Object.prototype] may have left entities that are
    not listed. *)
Abbreviation listedSorted s := (listed config s ∧ sortedView cmp s).

Lemma listed_push (s : EntityState T) e :
  listed config s → lookupEntity s (selectId config e) = None →
  listed config
    (mkState (ids s ++ [selectId config e]) (<[keyOf e := e]> (entities s))).
Proof.
  intros [Hnd Hown] Hnone. apply getProperty_None in Hnone as [Hnone _].
  split; simpl.
  - rewrite fmap_app. apply NoDup_app. split; [done|].
    split; [|apply NoDup_singleton].
    intros k Hk. simpl. rewrite list_elem_of_singleton. intros ->.
    apply list_elem_of_fmap in Hk as (i & Hki & Hi).
    destruct (Hown i Hi) as (x & Hx & _). simpl in Hki. congruence.
  - intros i Hi. apply elem_of_app in Hi as [Hi|Hi].
    + destruct (Hown i Hi) as (x & Hx & Hk). exists x. split; [|done].
      rewrite lookup_insert_ne; [done|]. simpl. congruence.
    + apply list_elem_of_singleton in Hi as ->. exists e.
      split; [by rewrite lookup_insert_eq|done].
Qed.

Lemma listed_replace (s : EntityState T) k x :
  listed config s →
  (∀ i, i ∈ ids s → toKey i = k → keyOf x = k) →
  listed config (mkState (ids s) (<[k := x]> (entities s))).
Proof.
  intros [Hnd Hown] Hk. split; [done|]. simpl. intros i Hi.
  destruct (decide (toKey i = k)) as [Heq|Hne].
  - exists x. rewrite <- Heq at 1. rewrite lookup_insert_eq.
    split; [done|]. rewrite Heq. by apply (Hk i).
  - destruct (Hown i Hi) as (e & He & Hke). exists e.
    by rewrite lookup_insert_ne.
Qed.

Lemma addOne_listedSorted (s : EntityState T) e :
  listedSorted s → listedSorted (addOne config s e).
Proof.
  intros [Hl Hs]. unfold addOne.
  destruct (lookupEntity s (selectId config e)) eqn:Hlook; [done|].
  by apply sortEntities_listed, listed_push.
Qed.

Lemma addMany_listedSorted es (s : EntityState T) :
  listedSorted s → listedSorted (addMany config s es).
Proof.
  unfold addMany. revert s.
  induction es as [|e es IH]; intros s Hs; simpl; [done|].
  by apply IH, addOne_listedSorted.
Qed.

Lemma setOne_listedSorted (s : EntityState T) e :
  listedSorted s → listedSorted (setOne config s e).
Proof.
  intros [Hl _]. unfold setOne. apply sortEntities_listed.
  case_bool_decide as Hex.
  - by apply listed_replace.
  - apply listed_push; [done|]. by apply eq_None_not_Some.
Qed.

Lemma updateOne_listedSorted (s : EntityState T) u :
  listedSorted s → keepsKey spread config u →
  listedSorted (updateOne spread config s u).
Proof.
  intros [Hl Hs] Hkeeps. unfold updateOne.
  destruct (lookupEntity s (upd_id u)) as [existing|] eqn:Hlook; [|done].
  apply sortEntities_listed, listed_replace; [done|].
  intros i Hi Hk. apply Hkeeps.
  destruct (listed_lookup s i Hl Hi) as (e & _ & Hown & Hke).
  unfold lookupEntity in Hlook. rewrite <- Hk in Hlook.
  rewrite (getProperty_own _ _ _ Hown) in Hlook. injection Hlook as <-.
  simpl in Hke. by rewrite Hke.
Qed.

Lemma calls_listedSorted calls (s : EntityState T) :
  listedSorted s → Forall (sortCall spread config) calls →
  listedSorted (foldl (apply spread config) s calls).
Proof.
  revert s. induction calls as [|o calls IH]; intros s Hs Hcalls; simpl; [done|].
  apply Forall_cons in Hcalls as [Ho Hcalls].
  apply IH; [|done].
  destruct o; simpl in *; try done.
  - by apply addMany_listedSorted.
  - by apply setOne_listedSorted.
  - by apply updateOne_listedSorted.
Qed.

End sort_invariant.

(** The comparison of names is a consistent comparator. *)
Lemma byName_consistent : EntityInv.consistentComparer Fixtures.byName.
Proof.
  assert (Hle : ∀ a b, EntityInv.notAfter Fixtures.byName a b ↔
                       String.compare (Users.name a) (Users.name b) ≠ Gt).
  { intros a b. unfold EntityInv.notAfter, Fixtures.byName, Users.localeCompare.
    destruct (String.compare _ _); split; (done || lia). }
  apply consistentComparer_intro.
  - intros a b. unfold Fixtures.byName, Users.localeCompare.
    rewrite (String.compare_antisym (Users.name b)).
    destruct (String.compare (Users.name a) (Users.name b)); simpl; lia.
  - intros a b c. rewrite !Hle. intros Hab Hbc.
    destruct (String.compare (Users.name a) (Users.name b)) eqn:Eab; [| |done];
      destruct (String.compare (Users.name b) (Users.name c)) eqn:Ebc; [| |done| | |done].
    + apply OrderedTypeEx.String_as_OT.cmp_eq in Eab, Ebc.
      rewrite Eab, Ebc.
      by rewrite (proj2 (OrderedTypeEx.String_as_OT.cmp_eq _ _) eq_refl).
    + apply OrderedTypeEx.String_as_OT.cmp_eq in Eab. rewrite Eab.
      unfold OrderedTypeEx.String_as_OT.cmp in *. by rewrite Ebc.
    + apply OrderedTypeEx.String_as_OT.cmp_eq in Ebc. rewrite <- Ebc.
      unfold OrderedTypeEx.String_as_OT.cmp in *. by rewrite Eab.
    + apply OrderedTypeEx.String_as_OT.cmp_lt in Eab, Ebc.
      pose proof (OrderedTypeEx.String_as_OT.lt_trans _ _ _ Eab Ebc) as Hac.
      apply OrderedTypeEx.String_as_OT.cmp_lt in Hac.
      unfold OrderedTypeEx.String_as_OT.cmp in Hac. by rewrite Hac.
Qed.




(** *** The expectations of entity-adapter.spec.ts and
        create-selector.spec.ts, replayed on the embedding *)

Example spec_setOne_inserts_in_order :
  Entity.ids
    (Entity.setOne Users.sortedAdapter
       (Entity.addMany Users.sortedAdapter Entity.getInitialState
          [Users.mkUser 1 "Alice"; Users.mkUser 2 "Charlie"])
       (Users.mkUser 3 "Bob"))
  = [Entity.numberId 1; Entity.numberId 3; Entity.numberId 2].
Proof. by vm_compute. Qed.

Example spec_setOne_resorts_on_new_sort_key :
  Entity.ids
    (Entity.setOne Users.sortedAdapter
       (Entity.addMany Users.sortedAdapter Entity.getInitialState
          [Fixtures.alice; Fixtures.bob; Fixtures.charlie])
       (Users.mkUser 1 "Zara"))
  = [Entity.numberId 2; Entity.numberId 3; Entity.numberId 1].
Proof. by vm_compute. Qed.

Example spec_addOne_ignores_duplicates :
  Entity.addOne Users.plainAdapter Fixtures.onlyAlice (Users.mkUser 1 "Updated")
  = Fixtures.onlyAlice.
Proof. by vm_compute. Qed.

Example spec_removeOne_removes :
  Entity.ids
    (Entity.removeOne
       (Entity.addMany Users.plainAdapter Entity.getInitialState
          [Fixtures.alice; Fixtures.bob])
       (Entity.numberId 1))
  = [Entity.numberId 2].
Proof. by vm_compute. Qed.

Example spec_upsertMany_inserts_and_replaces :
  Entity.selectAll
    (Entity.upsertMany Users.plainAdapter Fixtures.onlyAlice
       [Users.mkUser 1 "Updated Alice"; Fixtures.bob])
  = [Users.mkUser 1 "Updated Alice"; Fixtures.bob].
Proof. by vm_compute. Qed.

Example spec_selector_release_resets :
  Selector.recomputations
    (Selector.release 0%Z
       (Selector.invokeAll Fixtures.differZ Fixtures.pairSelectors
          Fixtures.sumResult [(1, 2); (3, 4)]%Z (Selector.create 0%Z)))
  = 0.
Proof. reflexivity. Qed.

(** ** Part III: further properties of the code *)

(** *** Entity adapter: how the operations relate *)

Section entity_operations.
Import Entity EntityInv.
Context {T C : Type} {prototype : ObjectPrototype T}.
Variable spread : T → C → T.
Variable config : EntityAdapterConfig T.

(** [upsertOne] is [setOne]: on an id that is present it calls [setOne],
    and on an absent id [addOne] builds the very state [setOne] builds. *)
Theorem upsertOne_is_setOne (s : EntityState T) (e : T) (es : list T) :
  upsertOne config s e = setOne config s e
  ∧ upsertMany config s es = foldl (setOne config) s es.
Proof.
  assert (Hone : ∀ s' e', upsertOne config s' e' = setOne config s' e').
  { intros s' e'. unfold upsertOne, setOne, addOne.
    destruct (lookupEntity s' (selectId config e')) as [x|] eqn:Hlook; [done|].
    rewrite bool_decide_eq_false_2; [done|]. by intros [? ?]. }
  split; [apply Hone|].
  unfold upsertMany. revert s.
  induction es as [|e' es IH]; intros s; simpl; [done|].
  by rewrite Hone, IH.
Qed.

Lemma lookupEntity_addOne_same (s : EntityState T) e :
  is_Some (lookupEntity (addOne config s e) (selectId config e)).
Proof.
  unfold addOne.
  destruct (lookupEntity s (selectId config e)) as [x|] eqn:Hlook; [by eauto|].
  unfold lookupEntity. rewrite sortEntities_entities. simpl.
  rewrite getProperty_insert, decide_True by done. by eauto.
Qed.

(** The first entity with a given id wins: once [e] has been added,
    adding any entity with the same id (as a key) changes nothing, whatever
    the state was. *)
Theorem addOne_first_wins (s : EntityState T) (e e' : T) :
  toKey (selectId config e') = toKey (selectId config e) →
  addOne config (addOne config s e) e' = addOne config s e.
Proof.
  intros Hkey. destruct (lookupEntity_addOne_same s e) as [x Hx].
  unfold addOne at 1. unfold lookupEntity in *. by rewrite Hkey, Hx.
Qed.

(** Reading back after [setOne] and after [removeOne]: the entity set is
    the one read under its id; under the id removed the state has no
    property any more, so that [entities[id]] reads what
    [Object.prototype] has under that key, which is [undefined] unless the
    id names one of its members; and every other key reads as before. *)
Theorem lookup_after_setOne_removeOne (s : EntityState T) (e : T) (id id' : Id) :
  lookupEntity (setOne config s e) id'
    = (if decide (toKey id' = toKey (selectId config e)) then Some e
       else lookupEntity s id')
  ∧ lookupEntity (removeOne s id) id'
    = (if decide (toKey id' = toKey id) then objectPrototype !! toKey id
       else lookupEntity s id')
  ∧ entities (removeOne s id) !! toKey id = None.
Proof.
  split; [|split].
  - unfold setOne, lookupEntity. rewrite sortEntities_entities. simpl.
    apply getProperty_insert.
  - unfold removeOne.
    destruct (lookupEntity s id) as [x|] eqn:Hlook; simpl.
    + apply getProperty_delete.
    + destruct (decide (toKey id' = toKey id)) as [Heq|Hne]; [|done].
      unfold lookupEntity in *. rewrite Heq, Hlook.
      by apply getProperty_None in Hlook as [_ ->].
  - unfold removeOne.
    destruct (lookupEntity s id) as [x|] eqn:Hlook; simpl.
    + apply lookup_delete_eq.
    + by apply getProperty_None in Hlook as [? _].
Qed.

(** [updateOne] changes what is read under the given id to the merge of
    the changes into what was read there, and nothing else; where
    [entities[id]] read [undefined] nothing is created, while a member of
    [Object.prototype] read there counts as the entity to update. *)
Theorem lookup_after_updateOne (s : EntityState T) (u : Update C) (id' : Id) :
  lookupEntity (updateOne spread config s u) id'
    = (if decide (toKey id' = toKey (upd_id u))
       then (λ existing, spread existing (changes u)) <$> lookupEntity s id'
       else lookupEntity s id').
Proof.
  unfold updateOne.
  destruct (lookupEntity s (upd_id u)) as [x|] eqn:Hlook.
  - unfold lookupEntity in *. rewrite sortEntities_entities. simpl.
    rewrite getProperty_insert.
    destruct (decide (toKey id' = _)) as [->|Hne]; [by rewrite Hlook|done].
  - unfold lookupEntity in *.
    destruct (decide (toKey id' = _)) as [->|Hne]; [by rewrite Hlook|done].
Qed.

End entity_operations.

(** *** Entity adapter: what the selectors return on well-formed states *)

Section entity_selectors.
Import Entity EntityInv.
Context {T C : Type} {prototype : ObjectPrototype T}.
Variable spread : T → C → T.
Variable config : EntityAdapterConfig T.

Lemma wellFormed_all_found (s : EntityState T) :
  wellFormed config s →
  Forall (λ i, is_Some (lookupEntity s i)) (ids s).
Proof.
  intros Hwf. apply Forall_forall. intros i Hi.
  destruct (wellFormed_lookup config s i Hwf Hi) as (e & He & _). by eauto.
Qed.

Lemma omap_all_found {A B} (f : A → option B) (l : list A) :
  Forall (λ x, is_Some (f x)) l → Some <$> omap f l = f <$> l.
Proof.
  induction 1 as [|x l [y Hy] _ IH]; simpl; [done|].
  rewrite Hy. simpl. f_equal. exact IH.
Qed.

Lemma wellFormed_total (s : EntityState T) :
  wellFormed config s → length (ids s) = size (entities s).
Proof.
  intros Hwf. destruct (wellFormed_stateInvariant config s Hwf) as [_ Hdom].
  destruct Hwf as (Hnd & _ & _).
  rewrite <- size_dom, <- Hdom, size_list_to_set by done.
  by rewrite length_fmap.
Qed.

(** On a well-formed state [selectTotal] is the number of entities
    stored, [selectAll] drops nothing, and [selectAll] lists every stored
    entity exactly once. *)
Theorem selectors_on_wellFormed (s : EntityState T) :
  wellFormed config s →
  EntitySelectors.selectTotal s = size (EntitySelectors.selectEntities s)
  ∧ length (EntitySelectors.selectAll s) = EntitySelectors.selectTotal s
  ∧ EntitySelectors.selectAll s ≡ₚ (map_to_list (EntitySelectors.selectEntities s)).*2.
Proof.
  intros Hwf.
  unfold EntitySelectors.selectTotal, EntitySelectors.selectAll,
    EntitySelectors.selectEntities.
  pose proof (omap_all_found (lookupEntity s) (ids s) (wellFormed_all_found s Hwf))
    as Hall.
  split; [by apply wellFormed_total|]. split.
  - apply (f_equal length) in Hall. by rewrite !length_fmap in Hall.
  - set (l := omap (lookupEntity s) (ids s)) in *.
    set (pairs := zip (toKey <$> ids s) l).
    assert (Hlen : length (toKey <$> ids s) = length l).
    { apply (f_equal length) in Hall. rewrite !length_fmap in Hall.
      by rewrite length_fmap. }
    assert (Hfst : pairs.*1 = toKey <$> ids s) by (apply fst_zip; lia).
    assert (Hsnd : pairs.*2 = l) by (apply snd_zip; lia).
    destruct Hwf as (Hnd & Hdom & _).
    assert (Hmap : list_to_map pairs = entities s).
    { apply map_eq. intros k.
      destruct (entities s !! k) as [e|] eqn:Hk.
      - apply elem_of_list_to_map; [by rewrite Hfst|].
        assert (Hin : k ∈ toKey <$> ids s) by (apply Hdom; eauto).
        apply list_elem_of_lookup in Hin as [i Hi].
        apply list_elem_of_lookup. exists i. unfold pairs.
        apply lookup_zip_Some. split; [done|].
        rewrite list_lookup_fmap in Hi.
        destruct (ids s !! i) as [j|] eqn:Hj; [|done]. injection Hi as <-.
        apply (f_equal (λ x, x !! i)) in Hall.
        rewrite !list_lookup_fmap, Hj in Hall. simpl in Hall.
        unfold lookupEntity in Hall. rewrite (getProperty_own _ _ _ Hk) in Hall.
        destruct (l !! i) as [x|]; simpl in Hall; congruence.
      - apply not_elem_of_list_to_map. rewrite Hfst. intros Hin.
        apply Hdom in Hin as [? ?]. congruence. }
    rewrite <- Hsnd, <- Hmap.
    by rewrite map_to_list_to_map by by rewrite Hfst.
Qed.

(** Sorting keeps the number of ids when every id leads to an entity. *)
Lemma sortEntities_length (s : EntityState T) :
  Forall (λ i, is_Some (lookupEntity s i)) (ids s) →
  length (ids (sortEntities config s)) = length (ids s).
Proof.
  intros Hall. unfold sortEntities.
  destruct (sortComparer config) as [cmp|]; [|done]. simpl.
  rewrite length_fmap, js_sort_perm. unfold selectAll.
  apply omap_all_found, (f_equal length) in Hall.
  by rewrite !length_fmap in Hall.
Qed.

(** On a well-formed state [addOne] and [setOne] of an id under which
    [entities[id]] reads [undefined] raise the total by one, [setOne] of
    an id under which it reads anything else leaves the total, and
    [removeOne] of an id that [entities] has as a key, written as [ids]
    has it, lowers it by one. *)
Theorem total_after_operations (s : EntityState T) (e : T) (id : Id) :
  wellFormed config s →
  (lookupEntity s (selectId config e) = None →
     EntitySelectors.selectTotal (addOne config s e)
       = Datatypes.S (EntitySelectors.selectTotal s)
     ∧ EntitySelectors.selectTotal (setOne config s e)
       = Datatypes.S (EntitySelectors.selectTotal s))
  ∧ (is_Some (lookupEntity s (selectId config e)) →
     EntitySelectors.selectTotal (setOne config s e) = EntitySelectors.selectTotal s)
  ∧ (is_Some (entities s !! toKey id) → sameRepresentation s id →
     Datatypes.S (EntitySelectors.selectTotal (removeOne s id))
       = EntitySelectors.selectTotal s).
Proof.
  intros Hwf. unfold EntitySelectors.selectTotal.
  split; [|split].
  - intros Hnone.
    assert (Hord : ordinary (selectId config e))
      by (by apply getProperty_None in Hnone as [_ ?]).
    rewrite (wellFormed_total (addOne config s e)) by by apply addOne_wf.
    rewrite (wellFormed_total (setOne config s e)) by by apply setOne_wf.
    rewrite (wellFormed_total s) by done.
    unfold addOne, setOne. rewrite Hnone, !sortEntities_entities. simpl.
    apply getProperty_None in Hnone as [Hnone _].
    by rewrite map_size_insert_None.
  - intros Hsome. unfold setOne.
    rewrite bool_decide_eq_true_2 by done.
    rewrite sortEntities_length; [done|]. simpl.
    apply Forall_forall. intros i Hi.
    destruct (wellFormed_lookup config s i Hwf Hi) as (x & Hx & _).
    unfold lookupEntity in *. simpl. rewrite getProperty_insert.
    destruct (decide (toKey i = _)); by eauto.
  - intros [x Hx] Hrepr.
    rewrite (wellFormed_total (removeOne s id)) by by apply removeOne_wf.
    rewrite (wellFormed_total s) by done.
    unfold removeOne, lookupEntity. rewrite (getProperty_own _ _ _ Hx). simpl.
    rewrite map_size_delete_Some by eauto.
    assert (size (entities s) ≠ 0); [|lia].
    intros Hz. apply map_size_empty_inv in Hz. rewrite Hz in Hx.
    by rewrite lookup_empty in Hx.
Qed.

End entity_selectors.

(** *** Entity adapter: removal, and [setAll] against [addMany] *)

Section entity_removal.
Import Entity EntityInv.
Context {T C : Type} {prototype : ObjectPrototype T}.
Variable spread : T → C → T.
Variable config : EntityAdapterConfig T.

Lemma Forall_omap_filter {A B} (Q : B → Prop) (P : A → Prop)
    `{∀ x, Decision (P x)} (f : A → option B) (l : list A) :
  Forall Q (omap f l) → Forall Q (omap f (filter P l)).
Proof.
  induction l as [|x l IH]; simpl; [done|].
  rewrite filter_cons. intros Hall.
  destruct (decide (P x)); simpl;
    destruct (f x) as [y|]; try apply Forall_cons in Hall as [Hy Hall]; auto.
Qed.

Lemma StronglySorted_omap_filter {A B} (R : relation B) (P : A → Prop)
    `{∀ x, Decision (P x)} (f : A → option B) (l : list A) :
  StronglySorted R (omap f l) → StronglySorted R (omap f (filter P l)).
Proof.
  induction l as [|x l IH]; simpl; [done|].
  rewrite filter_cons. intros Hsorted.
  destruct (decide (P x)); simpl; destruct (f x) as [y|]; auto.
  - apply StronglySorted_cons in Hsorted as [Hy Hsorted].
    apply StronglySorted_cons. split; [by apply Forall_omap_filter|auto].
  - apply StronglySorted_cons in Hsorted as [_ Hsorted]. auto.
Qed.

(** [removeOne] does not sort, and does not have to: taking an entity out
    of a state that is well formed and sorted by a transitive comparator
    leaves a state that is well formed and sorted. *)
Theorem removeOne_keeps_sorted (cmp : T → T → Z) (s : EntityState T) (id : Id) :
  (∀ a b c, notAfter cmp a b → notAfter cmp b c → notAfter cmp a c) →
  sortedState config cmp s →
  sameRepresentation s id →
  sortedState config cmp (removeOne s id).
Proof.
  intros Htrans [Hwf (l & Hl & Hsorted)] Hrepr.
  split; [by apply removeOne_wf|].
  unfold removeOne. destruct (lookupEntity s id) as [x|] eqn:Hx; [|by exists l].
  pose proof (omap_all_found (lookupEntity s) (ids s) (wellFormed_all_found config s Hwf))
    as Hall.
  assert (l = omap (lookupEntity s) (ids s)) as ->.
  { apply (inj (fmap Some)). by rewrite Hall. }
  exists (omap (lookupEntity s) (filter (λ existingId, ¬ strictlyEqual existingId id) (ids s))).
  split.
  - unfold mapIds. simpl. rewrite omap_all_found.
    + apply Forall_fmap_ext_1, Forall_forall. intros j Hj.
      apply list_elem_of_filter in Hj as [Hne Hj].
      unfold lookupEntity. simpl. rewrite getProperty_delete.
      rewrite decide_False; [done|].
      intros Hkey. apply Hne, Hrepr; done.
    + apply Forall_forall. intros j Hj.
      apply list_elem_of_filter in Hj as [_ Hj].
      exact (proj1 (Forall_forall _ _) (wellFormed_all_found config s Hwf) j Hj).
  - apply StronglySorted_Sorted, StronglySorted_omap_filter.
    apply Sorted_StronglySorted; [|done].
    intros a b c. apply Htrans.
Qed.

Lemma filter_all {A} (P : A → Prop) `{∀ x, Decision (P x)} (l : list A) :
  Forall P l → filter P l = l.
Proof.
  induction 1 as [|x l Hx _ IH]; [done|].
  by rewrite filter_cons, decide_True, IH.
Qed.

(** Adding an entity with an absent id to a well-formed state and
    removing that id again gives back the entities; without a comparator it
    gives back the state, unless the id is NaN, which [removeOne] deletes
    from [entities] and does not find in [ids]. *)
Theorem removeOne_undoes_addOne (s : EntityState T) (e : T) :
  wellFormed config s →
  lookupEntity s (selectId config e) = None →
  entities (removeOne (addOne config s e) (selectId config e)) = entities s
  ∧ (sortComparer config = None → selectId config e ≠ IdNaN →
     removeOne (addOne config s e) (selectId config e) = s)
  ∧ (sortComparer config = None → selectId config e = IdNaN →
     ids (removeOne (addOne config s e) (selectId config e)) = ids s ++ [IdNaN]).
Proof.
  intros Hwf Hnone.
  destruct (lookupEntity_addOne_same config s e) as [x Hx].
  unfold removeOne. rewrite Hx. simpl.
  unfold addOne. rewrite Hnone, sortEntities_entities. simpl.
  apply getProperty_None in Hnone as [Hnone _].
  split; [by apply delete_insert_id|].
  assert (Hkept : filter (λ existingId, ¬ strictlyEqual existingId (selectId config e))
                    (ids s) = ids s).
  { apply filter_all, Forall_forall. intros j Hj [-> _].
    destruct Hwf as (_ & Hdom & _).
    destruct (proj1 (Hdom (toKey (selectId config e)))) as [y Hy];
      [by apply list_elem_of_fmap_2|congruence]. }
  split; intros Hplain Hid; unfold sortEntities; rewrite Hplain; simpl.
  - rewrite delete_insert_id by done.
    rewrite filter_app, filter_cons, decide_False, app_nil_r
      by (intros Hne; by apply Hne).
    rewrite Hkept. by destruct s.
  - rewrite filter_app, filter_cons, decide_True, Hkept;
      [by rewrite Hid|intros [_ Hne]; by apply Hne].
Qed.

Lemma addMany_plain es (s : EntityState T) :
  sortComparer config = None →
  NoDup (toKey ∘ selectId config <$> es) →
  (∀ e, e ∈ es → lookupEntity s (selectId config e) = None) →
  addMany config s es
  = mkState (ids s ++ (selectId config <$> es))
            (foldl (λ m e, <[toKey (selectId config e) := e]> m) (entities s) es).
Proof.
  intros Hplain. unfold addMany. revert s.
  induction es as [|e es IH]; intros s Hnd Hfree; simpl.
  - rewrite app_nil_r. by destruct s.
  - apply NoDup_cons in Hnd as [Hnotin Hnd].
    unfold addOne at 2. rewrite Hfree by by left.
    unfold sortEntities. rewrite Hplain.
    rewrite IH; [simpl; by rewrite <- app_assoc|done|].
    intros e' He'. unfold lookupEntity. simpl.
    rewrite getProperty_insert, decide_False; [apply Hfree; by right|].
    intros Hkey. apply Hnotin. simpl. rewrite <- Hkey.
    by apply (list_elem_of_fmap_2 (toKey ∘ selectId config)).
Qed.

(** Without a comparator, [setAll] of entities with pairwise distinct
    ids, none of them the name of a member of [Object.prototype], is
    [addMany] of them onto the empty state, whatever state [setAll] is
    applied to. *)
Theorem setAll_is_addMany_from_empty (s : EntityState T) (es : list T) :
  sortComparer config = None →
  NoDup (toKey ∘ selectId config <$> es) →
  Forall (λ e, ordinary (selectId config e)) es →
  setAll config s es = addMany config getInitialState es.
Proof.
  intros Hplain Hnd Hord.
  rewrite addMany_plain; [|done..|].
  - unfold setAll, sortEntities. rewrite Hplain.
    by rewrite foldl_push, (foldl_assignProperty config).
  - intros e He. apply getProperty_None. split; [apply lookup_empty|].
    by apply (proj1 (Forall_forall _ _) Hord).
Qed.

End entity_removal.

(** *** Memoized selectors: transparency, release, and the size of the cache *)

Section selector_use.
Import Selector SelectorUse.
Context {S V R : Type}.
Variable differ : V → V → bool.
Variable undefined : R.
Variable selectors : list (S → V).
Variable resultFn : list V → Outcome R.

Abbreviation inputs := (evalSelectors selectors).
Abbreviation call := (memoizedSelector differ selectors resultFn).
Abbreviation new := (create (V:=V) undefined).
Abbreviation runCalls' := (runCalls differ undefined selectors resultFn).

(** The result function always returns. *)
Abbreviation returns := (∀ l, ∃ r, resultFn l = Returned r).

(** The result function gives the same on inputs that [!==] does not tell
    apart. *)
Abbreviation respects :=
  (∀ l l', Forall2 (λ c l : V, differ c l = false) l l' → resultFn l = resultFn l').

Lemma coherent_step (w : Closure (V:=V) (R:=R)) c :
  returns →
  coherent resultFn w →
  coherent resultFn (step differ undefined selectors resultFn w c).
Proof.
  intros Hret Hw. destruct c as [st|]; simpl.
  - destruct (cacheHit differ (inputs st) w) eqn:Hhit.
    + by rewrite call_hit.
    + destruct (Hret (inputs st)) as [r Hr].
      rewrite (call_miss_returned _ _ _ _ _ r Hhit Hr). simpl.
      by intros l [= <-].
  - by intros l.
Qed.

Lemma coherent_runCalls calls (w : Closure (V:=V) (R:=R)) :
  returns → coherent resultFn w → coherent resultFn (runCalls' calls w).
Proof.
  intros Hret. unfold runCalls. revert w.
  induction calls as [|c calls IH]; intros w Hw; simpl; [done|].
  by apply IH, coherent_step.
Qed.

(** Memoization is not observable in the results when the result function
    always returns and gives the same on inputs that [!==] does not tell
    apart: after any series of invocations and releases of a new
    selector, an invocation on [state] returns what the result function
    gives on the inputs of [state].  It is observable when the result
    function throws: the inputs are cached before the call, so that after
    an invocation that threw, the next one on a state with these inputs
    returns what was cached for other inputs (or [undefined]) and does
    not call the result function. *)
Theorem memoizedSelector_returns_resultFn :
  (returns → respects →
   ∀ (calls : list Call) (state : S),
     (call state (runCalls' calls new)).1 = resultFn (inputs state))
  ∧ (∀ (w : Closure (V:=V) (R:=R)) (state : S) e,
       stable differ selectors state →
       cacheHit differ (inputs state) w = false →
       resultFn (inputs state) = Thrown e →
       (call state w).1 = Thrown e
       ∧ (call state (call state w).2).1 = Returned (lastResult w)
       ∧ resultFnCalls (call state (call state w).2).2
         = resultFnCalls w ++ [inputs state]).
Proof.
  split.
  - intros Hret Hresp calls state.
    assert (Hc : coherent resultFn (runCalls' calls new)).
    { apply coherent_runCalls; [done|]. by intros l. }
    destruct (cacheHit differ (inputs state) (runCalls' calls new)) eqn:Hhit.
    + rewrite call_hit by done. simpl.
      apply cacheHit_spec in Hhit as (last & Hlast & Hall).
      rewrite <- (Hc last Hlast). symmetry. by apply Hresp.
    + by destruct (call_miss differ selectors resultFn _ _ Hhit) as [? _].
  - intros w state e Hst Hmiss Hthrown.
    destruct (call_miss differ selectors resultFn _ _ Hmiss)
      as (Hres & Hlast & _ & Hlog & Hkept).
    rewrite Hthrown in Hres, Hkept. split; [done|].
    rewrite call_hit by by apply cacheHit_stable.
    simpl. by rewrite Hkept, Hlog.
Qed.

(** [release] empties the cache: the next invocation calls the result
    function, also on the state of the invocation before, and the counter
    then reads 1. *)
Theorem release_forces_recomputation (w : Closure (V:=V) (R:=R)) (state : S) :
  let w' := (call state (release undefined w)).2 in
  recomputations (release undefined w) = 0
  ∧ resultFnCalls w' = resultFnCalls w ++ [inputs state]
  ∧ recomputations w' = 1
  ∧ lastInputs w' = Some (inputs state).
Proof.
  cbv zeta.
  destruct (call_miss differ selectors resultFn state (release undefined w) eq_refl)
    as (_ & Hlast & Hcount & Hlog & _).
  unfold recomputations. by rewrite Hlast, Hcount, Hlog.
Qed.

Lemma invokeAll_alternate states (w : Closure (V:=V) (R:=R)) :
  inputsAlternate differ selectors states →
  (∀ st, head states = Some st → cacheHit differ (inputs st) w = false) →
  recomputationsVar (invokeAll differ selectors resultFn states w)
  = recomputationsVar w + length states.
Proof.
  unfold invokeAll. revert w.
  induction states as [|a states IH]; intros w Halt Hhead; simpl; [lia|].
  destruct (call_miss differ selectors resultFn a w (Hhead a eq_refl))
    as (_ & Hlast & Hcount & _).
  rewrite IH; [rewrite Hcount; lia| |].
  - destruct states; [done|]. by destruct Halt.
  - intros st Hst. destruct states as [|b states]; [done|].
    simpl in Hst. injection Hst as <-. destruct Halt as [Hab _].
    unfold cacheHit. rewrite Hlast. rewrite Hab. apply andb_false_r.
Qed.

(** The cache holds one entry: when no state gives the inputs of the
    state before it, every invocation recomputes, also on inputs that were
    seen before the last one. *)
Theorem cache_holds_only_the_last_inputs (states : list S) :
  inputsAlternate differ selectors states →
  recomputations (invokeAll differ selectors resultFn states new) = length states.
Proof.
  intros Halt. unfold recomputations.
  by rewrite invokeAll_alternate.
Qed.

End selector_use.

(** *** Lazy reducer registry: the map it implements, and undoing *)

Section lazy_use.
Import Lazy LazyUse.

Lemma getProp_setProp_ne {A} key key' (v : A) o :
  key ≠ key' → getProp key' (setProp key v o) = getProp key' o.
Proof.
  intros Hne. induction o as [|[k x] o IH]; simpl.
  - by rewrite decide_False.
  - destruct (decide (k = key)) as [->|Hk]; simpl.
    + by rewrite !decide_False.
    + destruct (decide (k = key')); [done|apply IH].
Qed.

Lemma getProp_deleteProp_ne {A} key key' (o : list (string * A)) :
  key ≠ key' → getProp key' (deleteProp key o) = getProp key' o.
Proof.
  intros Hne. unfold deleteProp. induction o as [|[k x] o IH]; simpl; [done|].
  rewrite filter_cons. simpl.
  destruct (decide (k ≠ key)) as [Hk|Hk]; simpl.
  - destruct (decide (k = key')); [done|apply IH].
  - apply dec_stable in Hk as ->. by rewrite decide_False.
Qed.

Lemma keys_setProp {A} key (v : A) o :
  (setProp key v o).*1
  = match getProp key o with Some _ => o.*1 | None => o.*1 ++ [key] end.
Proof.
  induction o as [|[k x] o IH]; simpl; [done|].
  destruct (decide (k = key)) as [->|Hk]; simpl; [done|].
  destruct (getProp key o); simpl; f_equal; exact IH.
Qed.

Lemma getProp_None_keys {A} key (o : list (string * A)) :
  getProp key o = None ↔ key ∉ o.*1.
Proof.
  induction o as [|[k x] o IH]; simpl.
  - split; [intros _; apply not_elem_of_nil|done].
  - rewrite not_elem_of_cons. destruct (decide (k = key)) as [->|Hk].
    + split; [done|]. by intros [? _].
    + rewrite IH. split; [by auto|by intros [_ ?]].
Qed.

Lemma keys_deleteProp {A} key (o : list (string * A)) :
  (deleteProp key o).*1 = filter (λ k, k ≠ key) o.*1.
Proof.
  unfold deleteProp. induction o as [|[k x] o IH]; [done|].
  rewrite fmap_cons, !filter_cons. simpl.
  destruct (decide (k ≠ key)); [by rewrite fmap_cons, IH|done].
Qed.

Lemma registry_step_map (w : World) (m : gmap string Reducer) c :
  ordinaryCall c →
  (∀ k, getProp k (reducerMap (registry w)) = m !! k) →
  ∀ k, getProp k (reducerMap (registry (step w c))) = stepMap m c !! k.
Proof.
  intros Hc Hm k. destruct c as [key reducer|key]; cbn [step stepMap].
  - rewrite register_ordinary by done. simpl.
    destruct (decide (key = k)) as [->|Hne].
    + by rewrite getProp_setProp_eq, lookup_insert_eq.
    + by rewrite getProp_setProp_ne, lookup_insert_ne.
  - unfold unregister, reducerMapHas.
    assert (Hdel : getProp k (deleteProp key (reducerMap (registry w)))
                   = delete key m !! k).
    { destruct (decide (key = k)) as [->|Hne].
      - by rewrite getProp_deleteProp_eq, lookup_delete_eq.
      - by rewrite getProp_deleteProp_ne, lookup_delete_ne. }
    destruct (getProp key (reducerMap (registry w))) as [r|] eqn:Hget; simpl;
      [done|].
    case_bool_decide; simpl; [done|].
    destruct (decide (key = k)) as [->|Hne].
    + by rewrite lookup_delete_eq, Hget.
    + by rewrite lookup_delete_ne.
Qed.

(** [Object.keys] lists the keys, each as often as it occurs. *)
Lemma objectKeys_perm {A} (o : list (string * A)) : objectKeys o ≡ₚ o.*1.
Proof.
  unfold objectKeys. rewrite merge_sort_Permutation.
  induction (o.*1) as [|key keys IH]; simpl; [done|].
  rewrite filter_cons. destruct (arrayIndex key) as [n|]; simpl.
  - apply Permutation_skip, IH.
  - by rewrite <- Permutation_middle, IH.
Qed.

Lemma registry_step_keys (w : World) c :
  ordinaryCall c →
  NoDup (reducerMap (registry w)).*1 →
  NoDup (reducerMap (registry (step w c))).*1.
Proof.
  intros Hc Hnd. destruct c as [key reducer|key]; cbn [step].
  - rewrite register_ordinary by done. simpl. rewrite keys_setProp.
    destruct (getProp key (reducerMap (registry w))) eqn:Hget; [done|].
    apply NoDup_app. split; [done|]. split; [|apply NoDup_singleton].
    intros k Hk ->%list_elem_of_singleton.
    by apply getProp_None_keys in Hget.
  - unfold unregister.
    destruct (reducerMapHas key (registry w)); [|done]. simpl.
    rewrite keys_deleteProp. by apply NoDup_filter.
Qed.

Lemma registry_step_prototype (w : World) c :
  ordinaryCall c →
  reducerMapPrototype (registry (step w c)) = reducerMapPrototype (registry w).
Proof.
  intros Hc. destruct c as [key reducer|key]; cbn [step].
  - by rewrite register_ordinary.
  - unfold unregister. by destruct (reducerMapHas key (registry w)).
Qed.

(** The registry is a finite map: after any series of [register] and
    [unregister] calls on a new registry, none of them registering under
    "__proto__", a key is bound to the reducer of its last [register]
    unless an [unregister] came after it, [getRegisteredKeys] lists every
    registered key once, and the prototype of [reducerMap] is the one it
    had. *)
Theorem registry_is_a_finite_map (calls : list RegistryCall) (configured : bool) :
  Forall ordinaryCall calls →
  let w := runCalls calls (newWorld configured) in
  (∀ key, getProp key (reducerMap (registry w)) = foldl stepMap ∅ calls !! key)
  ∧ NoDup (getRegisteredKeys (registry w))
  ∧ (∀ key, key ∈ getRegisteredKeys (registry w)
            ↔ is_Some (foldl stepMap ∅ calls !! key))
  ∧ reducerMapPrototype (registry w) = None.
Proof.
  assert (Hgen : ∀ calls w m,
            Forall ordinaryCall calls →
            (∀ k, getProp k (reducerMap (registry w)) = m !! k) →
            NoDup (reducerMap (registry w)).*1 →
            (∀ k, getProp k (reducerMap (registry (runCalls calls w)))
                  = foldl stepMap m calls !! k)
            ∧ NoDup (reducerMap (registry (runCalls calls w))).*1
            ∧ reducerMapPrototype (registry (runCalls calls w))
              = reducerMapPrototype (registry w)).
  { clear. unfold runCalls.
    induction calls as [|c calls IH]; intros w m Hcalls Hm Hnd; simpl; [done|].
    apply Forall_cons in Hcalls as [Hc Hcalls].
    rewrite <- (registry_step_prototype w c Hc).
    apply IH; [done|by apply registry_step_map|by apply registry_step_keys]. }
  intros Hcalls.
  destruct (Hgen calls (newWorld configured) ∅ Hcalls) as (Hmap & Hnd & Hproto).
  { intros k. by rewrite lookup_empty. }
  { constructor. }
  cbv zeta. unfold getRegisteredKeys. split; [done|].
  split; [by rewrite objectKeys_perm|].
  split; [|done].
  intros key. rewrite <- Hmap, objectKeys_perm.
  rewrite <- not_eq_None_Some, getProp_None_keys.
  split; [by auto|]. apply dec_stable.
Qed.

Lemma deleteProp_setProp_new {A} key (v : A) o :
  getProp key o = None → deleteProp key (setProp key v o) = o.
Proof.
  unfold deleteProp. induction o as [|[k x] o IH]; simpl.
  - intros _. rewrite filter_cons, decide_False; [done|]. simpl. by intros [].
  - destruct (decide (k = key)) as [->|Hk]; [done|]. intros Hget.
    rewrite filter_cons, decide_True by done. by rewrite IH.
Qed.

(** Loading a reducer under a key that is not registered, and is not
    "__proto__", and running the function returned puts the registry back
    as it was and makes the reducer combined from it the active one. *)
Theorem unload_undoes_loadReducer (key : string) (reducer : Reducer) (w : World) :
  storeConfigured w = true →
  getProp key (reducerMap (registry w)) = None →
  key ≠ "__proto__" →
  reducerMapPrototype (registry w) = None →
  ∃ unloadFn w',
    loadReducer key reducer w = (Returned unloadFn, w') ∧
    registry (unloadFn w') = registry w ∧
    activeReducer (unloadFn w') = Some (getCombinedReducer (registry w)).
Proof.
  intros Hconf Hnone Hkey _. unfold loadReducer, register.
  rewrite decide_False by done. unfold dispatch. simpl. rewrite Hconf.
  eexists _, _. split; [reflexivity|].
  unfold unload, unregister, reducerMapHas. simpl.
  rewrite getProp_setProp_eq. simpl.
  rewrite deleteProp_setProp_new by done.
  by destruct w as [[? ? ? ?] ? ? ?].
Qed.

(** Unsubscribing takes out every subscription of the listener, so it is
    not called again however often it had been subscribed (here by a
    [register] on a registry on which nothing was registered under
    "__proto__"); and subscribing a listener that was not subscribed and
    unsubscribing it leaves the listeners as they were. *)
Theorem onChange_unsubscribe_removes_listener (l : Listener) (w : World)
    (key : string) (reducer : Reducer) :
  (l ∉ listeners (registry (onChange_unsubscribe l w)))
  ∧ (reducerMapPrototype (registry w) = None →
     trace (register key reducer (onChange_unsubscribe l w))
     = trace w ++ (Notified <$> filter (λ l', l' ≠ l) (listeners (registry w))))
  ∧ (l ∉ listeners (registry w) →
     listeners (registry (onChange_unsubscribe l (onChange l w)))
     = listeners (registry w)).
Proof.
  split; [|split].
  - simpl. rewrite list_elem_of_filter. by intros [? _].
  - intros _. apply trace_register.
  - intros Hnotin. simpl.
    rewrite filter_app, filter_cons, decide_False, app_nil_r by (by intros []).
    apply filter_all, Forall_forall. by intros l' Hl' ->.
Qed.

End lazy_use.

(** *** Serializing and rehydrating *)

Section serialization_facts.
Import Hydration Serialization.
Context {RootState Action ReducerServiceState : Type}.
Variable JSON_stringify : RootState → Outcome string.
Variable JSON_parse : string → Outcome RootState.

(** What [serializeStore] produces is rehydrated to the state of the store
    when the deserializer (by default [JSON.parse]) inverts the serializer
    (by default [JSON.stringify]), unless the serialization is the empty
    string, which is rehydrated to the fallback. *)
Theorem rehydrateState_inverts_serializeStore
    (store : @NgRedux.World RootState Action ReducerServiceState)
    (state fallback : RootState) (raw : string)
    (serializer : option (RootState → Outcome string))
    (deserializer : option (string → Outcome RootState)) :
  (∀ s r, serialize JSON_stringify serializer s = Returned r →
          deserialize JSON_parse deserializer r = Returned s) →
  NgRedux.getState store = Returned state →
  serializeStore JSON_stringify store serializer = Returned raw →
  outcome (rehydrateState JSON_parse (SString raw) fallback deserializer)
  = Returned (if decide (raw = EmptyString) then fallback else state).
Proof.
  intros Hinv Hstate Hser. unfold serializeStore in Hser.
  rewrite Hstate in Hser. apply Hinv in Hser.
  unfold rehydrateState. simpl.
  destruct (decide (raw = EmptyString)) as [->|Hne].
  - by rewrite bool_decide_eq_true_2.
  - rewrite bool_decide_eq_false_2 by done. by rewrite Hser.
Qed.

End serialization_facts.

(** *** Layers around [store.dispatch] *)

Section dispatch_layers.
Import DispatchLayers.
Context {Action St : Type}.
Variable typeOf : Action → option string.
Variable storeDispatch : Action → St → Outcome Action * St.

(** A chain of layers calls the dispatch underneath once, hands back its
    result, lets every spy layer record the action first, and, when the
    dispatch returned, lets the effect layers deliver from the inside
    out. *)
Lemma call_chain (d : Dispatch) (action : Action) (w : World (Action:=Action) (St:=St)) :
  call typeOf storeDispatch d action w
  = (let '(result, st) := storeDispatch action (store w) in
     (result,
      mkWorld st (dispatch w)
        (match result with
         | Returned _ => foldr (deliverAt typeOf action) (effects w) (layerEffects d)
         | Thrown _ => effects w
         end)
        (actions w ++ replicate (spyLayers d) action))).
Proof.
  revert w. induction d as [|i d IH|d IH]; intros w; simpl.
  - destruct (storeDispatch action (store w)) as [[result|e] st];
      by rewrite app_nil_r.
  - rewrite IH. destruct (storeDispatch action (store w)) as [[result|e] st]; [|done].
    simpl. generalize (foldr (deliverAt typeOf action) (effects w) (layerEffects d)).
    intros effs. unfold deliverAt.
    destruct (effs !! i) as [e|]; [|done]. by destruct (accepts typeOf e action).
  - rewrite IH. simpl.
    destruct (storeDispatch action (store w)) as [result st].
    by rewrite <- app_assoc.
Qed.

Lemma deliverAt_lookup action i (effs : list (Effect (Action:=Action))) j :
  deliverAt typeOf action i effs !! j
  = if decide (i = j) then deliver typeOf action <$> effs !! j else effs !! j.
Proof.
  unfold deliverAt, deliver.
  destruct (decide (i = j)) as [<-|Hne].
  - destruct (effs !! i) as [e|] eqn:He; simpl; [|by rewrite He].
    destruct (accepts typeOf e action) eqn:Hacc; [|by rewrite He].
    rewrite list_lookup_insert_eq; [done|]. by eapply lookup_lt_Some.
  - destruct (effs !! i) as [e|]; [|done].
    destruct (accepts typeOf e action); [|done].
    by rewrite list_lookup_insert_ne.
Qed.

Lemma deliver_everywhere action (effs : list (Effect (Action:=Action))) n :
  n ≤ length effs →
  foldr (deliverAt typeOf action) effs (reverse (seq 0 n))
  = (deliver typeOf action <$> take n effs) ++ drop n effs.
Proof.
  induction n as [|n IH]; intros Hn.
  - by rewrite take_0, drop_0.
  - rewrite seq_S, reverse_app. simpl. rewrite IH by lia.
    apply list_eq. intros j. rewrite deliverAt_lookup.
    destruct (decide (n = j)) as [<-|Hne].
    + rewrite lookup_app_r by (rewrite length_fmap, length_take; lia).
      rewrite length_fmap, length_take, Nat.min_l, Nat.sub_diag by lia.
      rewrite lookup_drop, Nat.add_0_r.
      rewrite lookup_app_l by (rewrite length_fmap, length_take; lia).
      by rewrite list_lookup_fmap, lookup_take_lt by lia.
    + destruct (decide (j < n)) as [Hlt|Hge].
      * rewrite !lookup_app_l by (rewrite length_fmap, length_take; lia).
        rewrite !list_lookup_fmap, !lookup_take_lt by lia. done.
      * rewrite !lookup_app_r by (rewrite length_fmap, length_take; lia).
        rewrite !length_fmap, !length_take, !lookup_drop.
        f_equal. lia.
Qed.

(** The layers of a store that was set up by creating and destroying
    effects are those of its effects, the last created outermost. *)
Lemma setup_layers steps (spy : bool) (st : St) :
  let w := foldl (setup (Action:=Action)) (newStore spy st) steps in
  store w = st
  ∧ actions w = []
  ∧ layerEffects (dispatch w) = reverse (seq 0 (length (effects w)))
  ∧ spyLayers (dispatch w) = (if spy then 1 else 0).
Proof.
  induction steps as [|s steps IH] using rev_ind.
  - by destruct spy.
  - rewrite foldl_snoc. cbv zeta in *.
    destruct IH as (Hst & Hact & Hlayers & Hspy).
    destruct s as [types|i]; simpl.
    + rewrite length_app. simpl. rewrite Nat.add_1_r, seq_S, reverse_app. simpl.
      by rewrite Hlayers.
    + by rewrite length_alter.
Qed.

(** Dispatching through the layers. On a store on which effects were
    created and destroyed in any order, with or without the spy layer,
    [store.dispatch(action)] runs the dispatch underneath once and returns
    its result or throws its exception; when it returned, every effect
    that is not destroyed and listens for the type of the action (a type
    that is not the empty string) receives the action once, and no other
    effect receives anything; the spy records the action whether or not
    the dispatch threw. *)
Theorem dispatch_through_layers
    (steps : list Setup) (spy : bool) (st : St) (action : Action) :
  let w := foldl (setup (Action:=Action)) (newStore spy st) steps in
  dispatchAction typeOf storeDispatch action w
  = (let '(result, st') := storeDispatch action st in
     (result,
      mkWorld st' (dispatch w)
        (match result with
         | Returned _ => deliver typeOf action <$> effects w
         | Thrown _ => effects w
         end)
        (if spy then [action] else []))).
Proof.
  cbv zeta. destruct (setup_layers steps spy st) as (Hst & Hact & Hlayers & Hspy).
  unfold dispatchAction. rewrite call_chain, Hst, Hact, Hlayers, Hspy.
  destruct (storeDispatch action st) as [[result|e] st'].
  - rewrite deliver_everywhere, take_ge, drop_ge, app_nil_r by lia.
    by destruct spy.
  - by destruct spy.
Qed.

(** After [reset()], [dispatched()] is the list of the actions passed to
    [store.dispatch] since, in order, the ones whose dispatch threw
    included; effects created or destroyed before do not matter. *)
Theorem spy_records_every_action
    (steps : list Setup) (st : St) (l : list Action) :
  let w := foldl (setup (Action:=Action)) (createSpyStore st) steps in
  dispatched (dispatchAll typeOf storeDispatch l (resetSpy w)) = l.
Proof.
  cbv zeta. destruct (setup_layers steps true st) as (_ & _ & _ & Hspy).
  unfold newStore in Hspy.
  set (w := foldl setup (createSpyStore st) steps) in *.
  assert (Hgen : ∀ l w', spyLayers (dispatch w') = 1 →
            dispatched (dispatchAll typeOf storeDispatch l w') = actions w' ++ l).
  { clear. unfold dispatchAll, dispatched.
    induction l as [|a l IH]; intros w' Hw'; simpl; [by rewrite app_nil_r|].
    unfold dispatchAction at 2. rewrite call_chain.
    destruct (storeDispatch a (store w')) as [result st'].
    rewrite IH by done. simpl. rewrite Hw'. simpl. by rewrite <- app_assoc. }
  by rewrite Hgen.
Qed.

End dispatch_layers.

(** *** The action tracker *)

Section tracker_facts.
Import Tracker.
Context {Action St : Type}.
Variable typeOf : Action → option string.
Variable underlying : Action → St → Outcome Action * St.
Variable stateSizeOf : St → option Z.

Abbreviation dispatch' := (dispatch typeOf underlying stateSizeOf).

(** One tracked dispatch: the bookkeeping, the dispatch underneath, and,
    if that returned, the size of the state and the signal. *)
Lemma dispatch_tracked fuel action now (w : World (St:=St)) :
  installed w → isEnabled w = true →
  dispatch' (Datatypes.S (Datatypes.S fuel)) action now w
  = Some
      (let '(result, st) := underlying action (store w) in
       let tracked := track typeOf action now (info w) in
       match result with
       | Returned _ =>
           (result,
            mkWorld st (storeDispatch w) (measure stateSizeOf st tracked)
                    (measure stateSizeOf st tracked) (isEnabled w)
                    (previousDispatch w))
       | Thrown _ =>
           (result,
            mkWorld st (storeDispatch w) tracked
                    (shareHistory tracked (infoSignal w)) (isEnabled w)
                    (previousDispatch w))
       end).
Proof.
  intros [Hfn Hprev] Hen. unfold dispatch. rewrite Hfn. simpl.
  rewrite Hprev, Hen. simpl.
  destruct (underlying action (store w)) as [[result|e] st]; simpl;
    by rewrite ?Hfn.
Qed.

Lemma pushHistory_lastN (t : string) (l : list string) :
  pushHistory t (lastN maxHistory l) = lastN maxHistory (l ++ [t]).
Proof.
  unfold pushHistory, lastN, maxHistory.
  rewrite !length_app, length_drop. simpl.
  case_bool_decide as Hlen.
  - rewrite drop_app_le by (rewrite length_drop; lia).
    rewrite drop_drop, drop_app_le by lia. do 2 f_equal. lia.
  - rewrite drop_app_le by lia. do 2 f_equal. lia.
Qed.

Lemma toggle_installed (w : World (St:=St)) t :
  t ≠ Enable ∨ isEnabled w = true →
  installed w → installed (toggle w t).
Proof.
  intros Ht Hw. destruct t; simpl; [|done..].
  destruct Ht as [?|Hen]; [done|]. unfold enable. by rewrite Hen.
Qed.

(** While the tracker is enabled, every dispatch ends as the dispatch
    underneath does, returning what it returns or throwing what it throws
    and leaving the store as it leaves it; every dispatch is counted, the
    ones that throw included; the history holds the types of the last 100
    actions that had a type other than the empty string; and the time
    recorded is that of the last dispatch. *)
Theorem tracker_counts_and_keeps_last_100
    (st : St) (l : list (Action * Z)) (fuel : nat) :
  ∃ w,
    dispatchAll typeOf underlying stateSizeOf (Datatypes.S (Datatypes.S fuel)) l
      (enable (newTracker st))
    = Some ((underlyingAll underlying l.*1 st).1, w)
    ∧ store w = (underlyingAll underlying l.*1 st).2
    ∧ actionCount (getInfo w) = length l
    ∧ actionHistory (getInfo w) = lastN maxHistory (recordedTypes typeOf l.*1)
    ∧ length (actionHistory (getInfo w)) ≤ maxHistory
    ∧ lastDispatchTime (getInfo w) = last l.*2.
Proof.
  assert (Hgen : ∀ l (w0 : World (St:=St)) seen,
            installed w0 → isEnabled w0 = true →
            actionHistory (info w0) = lastN maxHistory seen →
            ∃ w,
              dispatchAll typeOf underlying stateSizeOf
                (Datatypes.S (Datatypes.S fuel)) l w0
              = Some ((underlyingAll underlying l.*1 (store w0)).1, w)
              ∧ store w = (underlyingAll underlying l.*1 (store w0)).2
              ∧ actionCount (info w) = actionCount (info w0) + length l
              ∧ actionHistory (info w)
                = lastN maxHistory (seen ++ recordedTypes typeOf l.*1)
              ∧ lastDispatchTime (info w)
                = from_option Some (lastDispatchTime (info w0)) (last l.*2)).
  { clear. induction l as [|[action now] l IH]; intros w0 seen Hinst Hen Hhist.
    - exists w0. simpl. rewrite app_nil_r.
      split; [done|]. split; [done|]. split; [lia|done].
    - cbn [dispatchAll]. rewrite dispatch_tracked by done.
      rewrite fmap_cons. cbn [underlyingAll fst].
      destruct (underlying action (store w0)) as [result st'].
      set (tracked := track typeOf action now (info w0)).
      assert (Htracked : actionHistory tracked
                = lastN maxHistory (seen ++ recordedTypes typeOf [action])).
      { unfold tracked, recordedTypes. simpl.
        destruct (typeOf action) as [t|]; simpl; [|by rewrite app_nil_r].
        case_bool_decide; simpl; [by rewrite app_nil_r|].
        by rewrite Hhist, pushHistory_lastN. }
      assert (Hnext : ∀ w1 : World (St:=St),
                installed w1 → isEnabled w1 = true → store w1 = st' →
                actionHistory (info w1) = actionHistory tracked →
                actionCount (info w1) = Datatypes.S (actionCount (info w0)) →
                lastDispatchTime (info w1) = Some now →
                ∃ w,
                  match
                    dispatchAll typeOf underlying stateSizeOf
                      (Datatypes.S (Datatypes.S fuel)) l w1
                  with
                  | Some (results, w'') => Some (result :: results, w'')
                  | None => None
                  end
                  = Some ((let '(results, st'') :=
                             underlyingAll underlying l.*1 st' in
                           (result :: results, st'')).1, w)
                  ∧ store w
                    = (let '(results, st'') := underlyingAll underlying l.*1 st' in
                       (result :: results, st'')).2
                  ∧ actionCount (info w)
                    = actionCount (info w0) + length ((action, now) :: l)
                  ∧ actionHistory (info w)
                    = lastN maxHistory
                        (seen ++ recordedTypes typeOf (action :: l.*1))
                  ∧ lastDispatchTime (info w)
                    = from_option Some (lastDispatchTime (info w0))
                        (last ((action, now) :: l).*2)).
      { intros w1 Hinst1 Hen1 Hstore1 Hhist1 Hcount1 Htime1.
        destruct (IH w1 (seen ++ recordedTypes typeOf [action]) Hinst1 Hen1)
          as (w & Hrun & Hstore & Hcount & Hhistw & Htime); [by rewrite Hhist1|].
        rewrite Hstore1 in Hrun, Hstore.
        exists w. rewrite Hrun.
        destruct (underlyingAll underlying l.*1 st') as [results st''].
        split; [done|]. split; [done|]. split; [simpl; lia|]. split.
        - rewrite Hhistw, <- app_assoc. unfold recordedTypes. simpl.
          destruct (typeOf action) as [t|]; [case_bool_decide|]; done.
        - rewrite Htime, Htime1. rewrite fmap_cons. simpl.
          destruct (l.*2) as [|x k] eqn:Hl; [done|].
          change (last (now :: x :: k)) with (last (x :: k)).
          by destruct (last (x :: k)) eqn:Hlast; [|by apply last_None in Hlast]. }
      destruct result as [result|e]; by apply Hnext. }
  destruct (Hgen l (enable (newTracker st)) [])
    as (w & Hrun & Hstore & Hcount & Hhist & Htime); [done..|].
  exists w. unfold getInfo. split; [done|]. split; [done|]. split; [done|].
  split; [done|].
  split; [|by rewrite Htime; destruct (last l.*2)].
  rewrite Hhist. unfold lastN. rewrite length_drop. lia.
Qed.

(** A disabled tracker is out of the way: the dispatch underneath runs as
    if the tracker were not there and nothing is recorded. *)
Theorem disabled_tracker_passes_through
    (w : World (St:=St)) (action : Action) (now : Z) (fuel : nat) :
  installed w → isEnabled w = false →
  dispatch' (Datatypes.S (Datatypes.S fuel)) action now w
  = Some
      (let '(result, st) := underlying action (store w) in
       (result,
        mkWorld st (storeDispatch w) (info w) (infoSignal w) (isEnabled w)
                (previousDispatch w))).
Proof.
  intros [Hfn Hprev] Hen. unfold dispatch. rewrite Hfn. simpl.
  rewrite Hprev, Hen. simpl.
  destruct (underlying action (store w)) as [result st]; by rewrite ?Hfn.
Qed.

Lemma callDispatch_self fuel action now (w : World (St:=St)) :
  previousDispatch w = Some TrackerDispatch →
  callDispatch typeOf underlying stateSizeOf fuel TrackerDispatch action now w = None.
Proof.
  revert w. induction fuel as [|fuel IH]; intros w Hprev; simpl; [done|].
  rewrite Hprev. destruct (isEnabled w); simpl.
  - by rewrite IH.
  - by apply IH.
Qed.

(** Enabling a tracker again after it was disabled makes it its own
    [previousDispatch]: from then on a call of [store.dispatch] calls the
    tracker's function, which calls the tracker's function, without end,
    whether the tracker is enabled or disabled again. *)
Theorem reenabled_tracker_calls_itself
    (st : St) (toggles : list Toggle) (action : Action) (now : Z) (fuel : nat) :
  let w := foldl toggle (enable (disable (enable (newTracker st)))) toggles in
  dispatch' fuel action now w = None.
Proof.
  cbv zeta.
  assert (Hinv : ∀ toggles (w : World (St:=St)),
            storeDispatch w = TrackerDispatch →
            previousDispatch w = Some TrackerDispatch →
            storeDispatch (foldl toggle w toggles) = TrackerDispatch
            ∧ previousDispatch (foldl toggle w toggles) = Some TrackerDispatch).
  { clear. induction toggles as [|t toggles IH]; intros w Hfn Hprev; [done|].
    simpl. apply IH; destruct t; simpl; try done;
      unfold enable; destruct (isEnabled w); simpl; congruence. }
  destruct (Hinv toggles (enable (disable (enable (newTracker st))))) as [Hfn Hprev];
    [done..|].
  unfold dispatch. rewrite Hfn. by apply callDispatch_self.
Qed.

End tracker_facts.

(** *** Change detection around [dispatch] *)

Section change_detection.
Import ChangeDetection.

(** On a configured instance built by [new NgRedux(...)], a dispatch
    makes the store dispatch exactly once.  [appRef.tick()] follows
    exactly when the app is zoneless, an [ApplicationRef] was injected
    and no custom notifier was; a custom notifier is called exactly when
    the app is zoneless; and [ngZone.run] is entered exactly when the
    app is not zoneless and the call comes from outside the zone. *)
Theorem dispatch_notifies_change_detection (i : Injected) (inAngularZone : bool) :
  let zoneless := isZoneless (ngZone i) (zoneJsLoaded i) in
  ∃ events,
    dispatch inAngularZone (configure (newNgRedux i)) = Returned events
    ∧ length (filter (λ ev, ev = StoreDispatched) events) = 1
    ∧ (Ticked ∈ events ↔
       zoneless = true ∧ appRef i = true ∧ customNotifier i = None)
    ∧ (∀ n, CustomNotified n ∈ events ↔
            zoneless = true ∧ customNotifier i = Some n)
    ∧ (EnteredZone ∈ events ↔ zoneless = false ∧ inAngularZone = false).
Proof.
  destruct i as [[[|]|] [|] [n|] [|]]; destruct inAngularZone;
    (eexists; split; [reflexivity|]; simpl;
     split; [reflexivity|];
     split; [|split; [intros m|]];
     rewrite ?elem_of_cons, ?elem_of_nil;
     split; intros; destruct_and?; destruct_or?; simplify_eq; auto).
Qed.

(** A [ZonelessNgRedux] notifies after every dispatch whatever zone was
    injected: the custom notifier if there is one, else [appRef.tick()]
    if an [ApplicationRef] was injected, else nothing; and it never enters
    [ngZone.run]. *)
Theorem zoneless_dispatch_always_notifies (i : Injected) (inAngularZone : bool) :
  dispatch inAngularZone (configure (newZonelessNgRedux i))
  = Returned
      (StoreDispatched ::
       match customNotifier i with
       | Some n => [CustomNotified n]
       | None => if appRef i then [Ticked] else []
       end).
Proof.
  destruct i as [zone [|] [n|] zoneJs]; reflexivity.
Qed.

End change_detection.

(** *** Typed action creators *)

Section typed_actions.
Import TypedActions.

Lemma append_inj_r (p a b : string) : p +:+ a = p +:+ b → a = b.
Proof.
  induction p as [|c p IH]; simpl; [done|]. intros [= Heq]. by apply IH.
Qed.

(** In an action group every event has a creator, the creator's type is
    the source in brackets followed by the event, nothing else has a
    creator, and different events never share a type. *)
Theorem createActionGroup_types (source : string) (eventNames : list string) :
  (∀ ev, Lazy.getProp ev (createActionGroup source eventNames)
         = if decide (ev ∈ eventNames) then Some (groupType source ev) else None)
  ∧ (∀ ev ev', groupType source ev = groupType source ev' → ev = ev').
Proof.
  split.
  - assert (Hgen : ∀ evs (result : list (string * string)) ev,
              Lazy.getProp ev
                (foldl (λ result eventName,
                          Lazy.setProp eventName (groupType source eventName) result)
                       result evs)
              = if decide (ev ∈ evs) then Some (groupType source ev)
                else Lazy.getProp ev result).
    { clear. induction evs as [|e evs IH]; intros result ev; cbn [foldl].
      - rewrite decide_False; [done|]. apply not_elem_of_nil.
      - rewrite IH. destruct (decide (ev ∈ evs)) as [Hin|Hnotin].
        + rewrite decide_True; [done|]. by right.
        + destruct (decide (e = ev)) as [->|Hne].
          * rewrite decide_True by by left. by rewrite getProp_setProp_eq.
          * rewrite decide_False.
            -- by rewrite getProp_setProp_ne.
            -- rewrite elem_of_cons. intros [?|?]; congruence. }
    intros ev. unfold createActionGroup. rewrite Hgen.
    by destruct (decide (ev ∈ eventNames)).
  - intros ev ev' Heq. unfold groupType in Heq.
    by do 3 apply append_inj_r in Heq.
Qed.

End typed_actions.

(** *** Deep freezing *)

Section deep_freeze.
Import DeepFreeze DeepFreezeLoop.

Lemma visitAll_cons visit v vs (h : Heap) :
  visitAll visit (v :: vs) h
  = match visit v h with
    | Some (Returns h1) => visitAll visit vs h1
    | other => other
    end.
Proof.
  unfold visitAll. simpl. destruct (visit v h) as [[h1|h1]|]; [done|..];
    simpl; (induction vs as [|x vs IH]; [done|]; simpl; exact IH).
Qed.

Lemma visitEach_visitAll visit (o : Obj) (h : Heap) :
  visitEach visit o h = visitAll visit (visited o) h.
Proof.
  unfold visitEach, visitAll, visited.
  generalize (Some (Returns h)). generalize (props o).
  induction l as [|[k v] l IH]; intros acc; [by destruct (kind o)|].
  destruct (kind o) eqn:Hk; simpl in *.
  - rewrite filter_cons. destruct v; simpl;
      rewrite ?decide_False, ?decide_True by done; simpl; rewrite <- IH;
      f_equal; by destruct acc as [[?|?]|].
  - rewrite <- IH. done.
  - rewrite filter_cons. destruct v; simpl;
      rewrite ?decide_False, ?decide_True by done; simpl; rewrite <- IH;
      f_equal; by destruct acc as [[?|?]|].
  - rewrite filter_cons. destruct v; simpl;
      rewrite ?decide_False, ?decide_True by done; simpl; rewrite <- IH;
      f_equal; by destruct acc as [[?|?]|].
Qed.

Lemma children_visited (o : Obj) b :
  b ∈ children o → VRef b ∈ visited o.
Proof.
  unfold children, visited.
  destruct (kind o); [| |by intros ?%elem_of_nil|by intros ?%elem_of_nil].
  - rewrite list_elem_of_omap. intros ([k v] & Hin & Hv). simpl in Hv.
    destruct v; simplify_eq. apply list_elem_of_filter. split; [done|].
    by apply (list_elem_of_fmap_2 snd) in Hin.
  - rewrite list_elem_of_omap. intros ([k v] & Hin & Hv). simpl in Hv.
    destruct v; simplify_eq. by apply (list_elem_of_fmap_2 snd) in Hin.
Qed.

Lemma freezesOnly_refl (h : Heap) : freezesOnly h h.
Proof. split; [done|]. intros a o Ho. by exists o. Qed.

Lemma freezesOnly_trans (h1 h2 h3 : Heap) :
  freezesOnly h1 h2 → freezesOnly h2 h3 → freezesOnly h1 h3.
Proof.
  intros [Hl1 H1] [Hl2 H2]. split; [congruence|].
  intros a o Ho. destruct (H1 a o Ho) as (o' & Ho' & Hk & Hp & Hf).
  destruct (H2 a o' Ho') as (o'' & Ho'' & Hk' & Hp' & Hf').
  exists o''. repeat split; [done|congruence|congruence|by auto].
Qed.

Lemma freezesOnly_insert (h : Heap) a o :
  h !! a = Some o → freezesOnly h (<[a := freeze o]> h).
Proof.
  intros Ho. split; [by rewrite length_insert|].
  intros b ob Hb. destruct (decide (a = b)) as [<-|Hne].
  - rewrite list_lookup_insert_eq by by eapply lookup_lt_Some.
    exists (freeze o). by simplify_eq.
  - rewrite list_lookup_insert_ne by done. by exists ob.
Qed.

Lemma freezesOnly_isFrozen (h h' : Heap) a :
  freezesOnly h h' → isFrozen h a → isFrozen h' a.
Proof.
  intros [_ Hh] (o & Ho & Hf). destruct (Hh a o Ho) as (o' & Ho' & _ & _ & Hf').
  exists o'. by auto.
Qed.

Lemma freezesOnly_refersTo (h h' : Heap) a b :
  freezesOnly h h' → refersTo h a b ↔ refersTo h' a b.
Proof.
  intros [Hlen Hh]. unfold refersTo, children. split.
  - intros (o & Ho & Hb). destruct (Hh a o Ho) as (o' & Ho' & Hk & Hp & _).
    exists o'. by rewrite Hk, Hp.
  - intros (o' & Ho' & Hb).
    destruct (h !! a) as [o|] eqn:Ho.
    + destruct (Hh a o Ho) as (o'' & Ho'' & Hk & Hp & _).
      exists o. split; [done|]. simplify_eq. by rewrite <- Hk, <- Hp.
    + apply lookup_ge_None in Ho. apply lookup_lt_Some in Ho'. lia.
Qed.

Lemma freezesOnly_is_Some (h h' : Heap) a :
  freezesOnly h h' → is_Some (h !! a) ↔ is_Some (h' !! a).
Proof. intros [Hlen _]. by rewrite !lookup_lt_is_Some, Hlen. Qed.

Lemma noDangling_freezesOnly (h h' : Heap) :
  freezesOnly h h' → noDangling h → noDangling h'.
Proof.
  intros Hh Hnd a b Hab. apply (freezesOnly_is_Some h h' b Hh).
  apply (Hnd a). by apply (freezesOnly_refersTo h h' a b Hh).
Qed.

Lemma unfrozenCount_freezesOnly (h h' : Heap) :
  freezesOnly h h' → unfrozenCount h' ≤ unfrozenCount h.
Proof.
  unfold unfrozenCount. intros [Hlen Hh]. revert h' Hlen Hh.
  induction h as [|o h IH]; intros [|o' h'] Hlen Hh; simpl in *; try done.
  rewrite !filter_cons.
  assert (Hrest : length (filter (λ o, frozen o = false) h')
                  ≤ length (filter (λ o, frozen o = false) h)).
  { apply IH; [lia|]. intros a x Hx. apply (Hh (Datatypes.S a) x Hx). }
  destruct (Hh 0 o eq_refl) as (x & [= <-] & _ & _ & Hf).
  destruct (decide (frozen o' = false)) as [Hf'|Hf'];
    destruct (decide (frozen o = false)) as [Hfo|Hfo]; simpl; try lia.
  destruct (frozen o); [|done]. by rewrite Hf in Hf'.
Qed.

Lemma unfrozenCount_insert (h : Heap) a o :
  h !! a = Some o → frozen o = false →
  unfrozenCount (<[a := freeze o]> h) < unfrozenCount h.
Proof.
  unfold unfrozenCount. intros Ho Hf.
  rewrite <- (take_drop_middle h a o Ho) at 2.
  rewrite insert_take_drop by by eapply lookup_lt_Some.
  rewrite !filter_app, !filter_cons, !length_app. simpl.
  rewrite decide_True by done. simpl. lia.
Qed.

Lemma closedExcept_insert (pending : nat → Prop) (h : Heap) a o :
  h !! a = Some o →
  closedExcept pending h →
  closedExcept (λ x, pending x ∨ x = a) (<[a := freeze o]> h).
Proof.
  intros Ho Hc x b Hx Hpend Hxb.
  pose proof (freezesOnly_insert h a o Ho) as Hfo.
  eapply freezesOnly_isFrozen; [done|].
  apply (Hc x b); [|by auto|by apply (freezesOnly_refersTo _ _ x b Hfo)].
  destruct Hx as (ox & Hox & Hfx).
  rewrite list_lookup_insert_ne in Hox by (intros ->; by auto).
  by exists ox.
Qed.

Lemma noViews_freezesOnly (h h' : Heap) :
  freezesOnly h h' → noViews h → noViews h'.
Proof.
  intros [Hlen Hh] Hnv a o' Ho'.
  destruct (h !! a) as [o|] eqn:Ho.
  - destruct (Hh a o Ho) as (o'' & Ho'' & Hk & _). simplify_eq.
    rewrite Hk. by apply (Hnv a).
  - apply lookup_ge_None in Ho. apply lookup_lt_Some in Ho'. lia.
Qed.

Lemma visitAll_good visit vs (h h' : Heap) :
  (∀ v h1 h2, noDangling h1 → visit v h1 = Some (Returns h2) → good v h1 h2) →
  noDangling h →
  visitAll visit vs h = Some (Returns h') →
  freezesOnly h h'
  ∧ (∀ pending, closedExcept pending h → closedExcept pending h')
  ∧ (∀ b, VRef b ∈ vs → is_Some (h !! b) → isFrozen h' b).
Proof.
  intros Hvisit. revert h. induction vs as [|v vs IH]; intros h Hnd Hrun.
  - injection Hrun as <-. split; [apply freezesOnly_refl|]. split; [done|].
    by intros b ?%elem_of_nil.
  - rewrite visitAll_cons in Hrun.
    destruct (visit v h) as [[h1|h1]|] eqn:Hv; [|done..].
    destruct (Hvisit v h h1 Hnd Hv) as (Hfo1 & Hc1 & Hfz1).
    destruct (IH h1 (noDangling_freezesOnly _ _ Hfo1 Hnd) Hrun) as (Hfo2 & Hc2 & Hfz2).
    split; [by eapply freezesOnly_trans|]. split; [by auto|].
    intros b Hb Hsome. apply elem_of_cons in Hb as [Heq|Hb].
    + eapply freezesOnly_isFrozen; [done|]. by apply Hfz1.
    + apply Hfz2; [done|]. by apply (freezesOnly_is_Some h h1 b Hfo1).
Qed.

Lemma descend_good (h h' : Heap) a o :
  h !! a = Some o →
  noDangling h →
  freezesOnly (<[a := freeze o]> h) h' →
  (∀ pending, closedExcept pending (<[a := freeze o]> h) → closedExcept pending h') →
  (∀ b, b ∈ children o → is_Some (<[a := freeze o]> h !! b) → isFrozen h' b) →
  good (VRef a) h h'.
Proof.
  intros Ho Hnd Hfo2 Hc2 Hfz2.
  pose proof (freezesOnly_insert h a o Ho) as Hfo1.
  pose proof (freezesOnly_trans _ _ _ Hfo1 Hfo2) as Hfo.
  assert (Hfa : isFrozen h' a).
  { apply (freezesOnly_isFrozen _ _ a Hfo2). exists (freeze o).
    split; [|done]. apply list_lookup_insert_eq. by eapply lookup_lt_Some. }
  split; [done|]. split; [|by intros a' [= <-] _].
  intros pending Hc x b Hx Hpend Hxb.
  destruct (decide (x = a)) as [->|Hne].
  - apply (freezesOnly_refersTo h h' a b Hfo) in Hxb.
    pose proof (Hnd a b Hxb) as Hsome.
    destruct Hxb as (o0 & Ho0 & Hb). simplify_eq.
    apply Hfz2; [done|].
    by apply (freezesOnly_is_Some h _ b Hfo1).
  - apply (Hc2 (λ y, pending y ∨ y = a) (closedExcept_insert _ _ _ _ Ho Hc) x b);
      [done| |done].
    by intros [?|?].
Qed.

Lemma deepFreeze_good fuel v (h h' : Heap) :
  noDangling h → deepFreeze fuel v h = Some (Returns h') → good v h h'.
Proof.
  revert v h h'. induction fuel as [|fuel IH]; intros v h h' Hnd Hrun; [done|].
  assert (Hsame : ∀ a o, v = VRef a → h !! a = Some o → frozen o = true →
                         good v h h).
  { intros a o -> Ho Hf. split; [apply freezesOnly_refl|]. split; [done|].
    intros a' [= <-] _. by exists o. }
  simpl in Hrun.
  destruct v as [| |z|a];
    try (injection Hrun as <-; split; [apply freezesOnly_refl|];
         split; [done|]; by intros).
  destruct (h !! a) as [o|] eqn:Ho.
  2: { injection Hrun as <-. split; [apply freezesOnly_refl|]. split; [done|].
       intros a' [= <-] [? ?]. congruence. }
  destruct (frozen o) eqn:Hf.
  { injection Hrun as <-. by eapply Hsame. }
  destruct (kind o) eqn:Hk.
  - rewrite visitEach_visitAll in Hrun.
    apply visitAll_good in Hrun as (Hfo2 & Hc2 & Hfz2);
      [|by intros; eapply IH|].
    { eapply descend_good; [done..|]. intros b Hb. by apply Hfz2, children_visited. }
    eapply noDangling_freezesOnly; [by apply freezesOnly_insert|done].
  - rewrite visitEach_visitAll in Hrun.
    apply visitAll_good in Hrun as (Hfo2 & Hc2 & Hfz2);
      [|by intros; eapply IH|].
    { eapply descend_good; [done..|]. intros b Hb. by apply Hfz2, children_visited. }
    eapply noDangling_freezesOnly; [by apply freezesOnly_insert|done].
  - injection Hrun as <-.
    apply (descend_good h _ a o); [done|done|apply freezesOnly_refl|done|].
    unfold children. rewrite Hk. by intros b ?%elem_of_nil.
  - done.
Qed.

(** The call returns when it ends and the store holds no typed array
    with elements. *)
Abbreviation returns run := (∃ h', run = Some (Returns h')).

Lemma visitAll_terminates fuel vs (h : Heap) :
  (∀ v h1, noDangling h1 → noViews h1 → unfrozenCount h1 < fuel →
           returns (deepFreeze fuel v h1)) →
  noDangling h → noViews h → unfrozenCount h < fuel →
  returns (visitAll (deepFreeze fuel) vs h).
Proof.
  intros Hvisit. revert h. induction vs as [|v vs IH]; intros h Hnd Hnv Hcount.
  - by eexists.
  - rewrite visitAll_cons.
    destruct (Hvisit v h Hnd Hnv Hcount) as [h1 Hv]. rewrite Hv.
    destruct (deepFreeze_good fuel v h h1 Hnd Hv) as (Hfo & _ & _).
    apply IH; [by eapply noDangling_freezesOnly|by eapply noViews_freezesOnly|].
    pose proof (unfrozenCount_freezesOnly h h1 Hfo). lia.
Qed.

(** The recursion ends: a depth beyond the number of objects that are not
    frozen is never reached, cycles or not. *)
Lemma deepFreeze_terminates fuel v (h : Heap) :
  noDangling h → noViews h → unfrozenCount h < fuel →
  returns (deepFreeze fuel v h).
Proof.
  revert v h. induction fuel as [|fuel IH]; intros v h Hnd Hnv Hcount; [lia|].
  simpl. destruct v as [| |z|a]; try by eexists.
  destruct (h !! a) as [o|] eqn:Ho; [|by eexists].
  destruct (frozen o) eqn:Hf; [by eexists|].
  pose proof (unfrozenCount_insert h a o Ho Hf) as Hless.
  pose proof (freezesOnly_insert h a o Ho) as Hfo.
  pose proof (noDangling_freezesOnly _ _ Hfo Hnd) as Hnd1.
  pose proof (noViews_freezesOnly _ _ Hfo Hnv) as Hnv1.
  destruct (kind o) eqn:Hk; [| |by eexists|by destruct (Hnv a o Ho)];
    rewrite visitEach_visitAll; apply visitAll_terminates; auto; lia.
Qed.

Lemma closed_reaches (h : Heap) x y :
  closed h → isFrozen h x → reaches h x y → isFrozen h y.
Proof.
  intros Hclosed Hx Hreach. induction Hreach as [x|x y z Hxy _ IH]; [done|].
  apply IH. apply (Hclosed x y); by auto.
Qed.

Lemma freezesOnly_reaches (h h' : Heap) x y :
  freezesOnly h h' → reaches h x y → reaches h' x y.
Proof.
  intros Hfo Hreach. induction Hreach as [x|x y z Hxy _ IH]; [constructor|].
  eapply rtc_l; [|exact IH]. by apply (freezesOnly_refersTo h h' x y Hfo).
Qed.


(** With a typed array that has elements in reach the call does not
    return: [Object.freeze] throws on it, and what was frozen on the way
    stays frozen while the rest is left as it was.  Here the root refers
    to a typed array and then to a plain object. *)
Example deepFreeze_throws_half_way :
  deepFreeze 3 (VRef 0)
    [mkObj PlainObject false [("bytes", VRef 1); ("rest", VRef 2)];
     mkObj ViewWithElements false [];
     mkObj PlainObject false []]
  = Some (Throws
            [mkObj PlainObject true [("bytes", VRef 1); ("rest", VRef 2)];
             mkObj ViewWithElements false [];
             mkObj PlainObject false []]).
Proof. reflexivity. Qed.

End deep_freeze.

(** *** The entity adapter and the additional properties of a state *)

Section entity_extras.
Import Entity EntityExtras.
Context {T C A : Type} {prototype : ObjectPrototype T}.
Variable spread : T → C → T.
Variable config : EntityAdapterConfig T.

Abbreviation State := (EntityExtras.State (T:=T) (A:=A)).

Lemma core_sortEntities (s : State) :
  core (EntityExtras.sortEntities config s) = Entity.sortEntities config (core s)
  ∧ additional (EntityExtras.sortEntities config s) = additional s.
Proof.
  unfold EntityExtras.sortEntities, Entity.sortEntities.
  by destruct (sortComparer config).
Qed.

Lemma core_foldl {X} (f : State → X → State) (g : EntityState T → X → EntityState T)
    (l : list X) (s : State) :
  (∀ s x, core (f s x) = g (core s) x) →
  core (foldl f s l) = foldl g (core s) l.
Proof.
  intros Hstep. revert s. induction l as [|x l IH]; intros s; simpl; [done|].
  by rewrite IH, Hstep.
Qed.

Lemma core_addOne (s : State) e :
  core (EntityExtras.addOne config s e) = Entity.addOne config (core s) e.
Proof.
  unfold EntityExtras.addOne, Entity.addOne.
  destruct (lookupEntity (core s) (selectId config e)); [done|].
  by rewrite (proj1 (core_sortEntities _)).
Qed.

Lemma core_setOne (s : State) e :
  core (EntityExtras.setOne config s e) = Entity.setOne config (core s) e.
Proof.
  unfold EntityExtras.setOne, Entity.setOne.
  by rewrite (proj1 (core_sortEntities _)).
Qed.

Lemma core_removeOne (s : State) id :
  core (EntityExtras.removeOne s id) = Entity.removeOne (core s) id.
Proof.
  unfold EntityExtras.removeOne, Entity.removeOne.
  by destruct (lookupEntity (core s) id).
Qed.

Lemma core_updateOne (s : State) u :
  core (EntityExtras.updateOne spread config s u)
  = Entity.updateOne spread config (core s) u.
Proof.
  unfold EntityExtras.updateOne, Entity.updateOne.
  destruct (lookupEntity (core s) (upd_id u)); [|done].
  by rewrite (proj1 (core_sortEntities _)).
Qed.

Lemma core_upsertOne (s : State) e :
  core (EntityExtras.upsertOne config s e) = Entity.upsertOne config (core s) e.
Proof.
  unfold EntityExtras.upsertOne, Entity.upsertOne.
  destruct (lookupEntity (core s) (selectId config e));
    [apply core_setOne|apply core_addOne].
Qed.

(** On [ids] and [entities] the operations read on states with additional
    properties do what the operations on plain states do. *)
Lemma core_apply (s : State) (o : Op (T:=T) (C:=C)) :
  core (EntityExtras.apply spread config s o)
  = Entity.apply spread config (core s) o.
Proof.
  destruct o; simpl.
  - apply core_addOne.
  - apply core_foldl, core_addOne.
  - unfold EntityExtras.setAll, Entity.setAll.
    by rewrite (proj1 (core_sortEntities _)).
  - apply core_setOne.
  - apply core_removeOne.
  - apply core_foldl, core_removeOne.
  - done.
  - apply core_updateOne.
  - apply core_foldl, core_updateOne.
  - apply core_upsertOne.
  - apply core_foldl, core_upsertOne.
Qed.

(** A call that gives back its argument or an object without additional
    properties. *)
Abbreviation keptOrDropped s s' := (s' = s ∨ additional s' = []).

Lemma dropped_sortEntities ids entities :
  additional (EntityExtras.sortEntities config
                (literal (T:=T) (A:=A) ids entities)) = [].
Proof. by rewrite (proj2 (core_sortEntities _)). Qed.

Lemma keptOrDropped_foldl {X} (f : State → X → State) (l : list X) (s : State) :
  (∀ s x, keptOrDropped s (f s x)) → keptOrDropped s (foldl f s l).
Proof.
  intros Hstep. induction l as [|x l IH] using rev_ind; [by left|].
  rewrite foldl_app. simpl.
  destruct IH as [IH|IH], (Hstep (foldl f s l) x) as [Hx|Hx].
  - left. by rewrite Hx.
  - by right.
  - right. by rewrite Hx.
  - by right.
Qed.

Lemma keptOrDropped_addOne (s : State) e :
  keptOrDropped s (EntityExtras.addOne config s e).
Proof.
  unfold EntityExtras.addOne.
  destruct (lookupEntity (core s) (selectId config e)); [by left|].
  right. apply dropped_sortEntities.
Qed.

Lemma keptOrDropped_removeOne (s : State) id :
  keptOrDropped s (EntityExtras.removeOne s id).
Proof.
  unfold EntityExtras.removeOne.
  destruct (lookupEntity (core s) id); [by right|by left].
Qed.

Lemma keptOrDropped_updateOne (s : State) u :
  keptOrDropped s (EntityExtras.updateOne spread config s u).
Proof.
  unfold EntityExtras.updateOne.
  destruct (lookupEntity (core s) (upd_id u)); [|by left].
  right. apply dropped_sortEntities.
Qed.

Lemma keptOrDropped_upsertOne (s : State) e :
  keptOrDropped s (EntityExtras.upsertOne config s e).
Proof.
  unfold EntityExtras.upsertOne.
  destruct (lookupEntity (core s) (selectId config e)).
  - right. apply dropped_sortEntities.
  - apply keptOrDropped_addOne.
Qed.

(** The operations do not carry the additional properties of
    [getInitialState(additionalState)] along: a call gives back either the
    state it was given or an object that has [ids] and [entities] and
    nothing else.  So the first entity added to an initial state with
    additional properties (of other names than [ids] and [entities]) leaves
    a state without them, unless its id names a member of
    [Object.prototype], in which case nothing is added. *)
Theorem operations_drop_additional_state
    (s : State) (o : Op (T:=T) (C:=C)) (extra : list (string * A)) (e : T) :
  (EntityExtras.apply spread config s o = s
   ∨ additional (EntityExtras.apply spread config s o) = [])
  ∧ ("ids" ∉ extra.*1 → "entities" ∉ extra.*1 →
     EntityExtras.addOne config (EntityExtras.getInitialState (Some extra)) e
     = match objectPrototype !! toKey (selectId config e) with
       | None =>
           mkExtState
             (mkState [selectId config e] {[ toKey (selectId config e) := e ]}) []
       | Some _ => EntityExtras.getInitialState (Some extra)
       end).
Proof.
  split.
  - destruct o; simpl.
    + apply keptOrDropped_addOne.
    + apply keptOrDropped_foldl, keptOrDropped_addOne.
    + right. apply dropped_sortEntities.
    + right. apply dropped_sortEntities.
    + apply keptOrDropped_removeOne.
    + apply keptOrDropped_foldl, keptOrDropped_removeOne.
    + by right.
    + apply keptOrDropped_updateOne.
    + apply keptOrDropped_foldl, keptOrDropped_updateOne.
    + apply keptOrDropped_upsertOne.
    + apply keptOrDropped_foldl, keptOrDropped_upsertOne.
  - intros _ _. unfold EntityExtras.addOne, lookupEntity, getProperty. simpl.
    rewrite lookup_empty.
    destruct (objectPrototype !! toKey (selectId config e)); [done|].
    unfold EntityExtras.sortEntities, literal.
    destruct (sortComparer config) as [cmp|]; [|done]. simpl.
    unfold selectAll, lookupEntity. simpl.
    by rewrite getProperty_insert, decide_True.
Qed.

End entity_extras.

(** *** The properties on concrete inputs *)

Lemma aliceAndBob_wf : EntityInv.wellFormed Users.sortedAdapter Fixtures.aliceAndBob.
Proof. apply addMany_wf, wellFormed_initial. Qed.

Lemma aliceAndBob_sameRepresentation :
  EntityInv.sameRepresentation Fixtures.aliceAndBob (Entity.numberId 1).
Proof.
  assert (Hids : Entity.ids Fixtures.aliceAndBob = [Entity.numberId 1; Entity.numberId 2])
    by (vm_compute; reflexivity).
  intros j Hj Hkey. rewrite Hids in Hj.
  apply elem_of_cons in Hj as [->|Hj]; [done|].
  apply elem_of_cons in Hj as [->|Hj].
  - vm_compute in Hkey. discriminate.
  - by apply elem_of_nil in Hj.
Qed.

Lemma addOne_first_wins_witness :
  Entity.addOne Users.plainAdapter
    (Entity.addOne Users.plainAdapter Entity.getInitialState Fixtures.alice)
    Samples.alicia
  = Entity.addOne Users.plainAdapter Entity.getInitialState Fixtures.alice.
Proof.
  apply (addOne_first_wins Users.plainAdapter Entity.getInitialState
           Fixtures.alice Samples.alicia).
  reflexivity.
Defined.

Lemma selectors_on_wellFormed_witness :
  EntitySelectors.selectTotal Fixtures.aliceAndBob
    = size (EntitySelectors.selectEntities Fixtures.aliceAndBob)
  ∧ length (EntitySelectors.selectAll Fixtures.aliceAndBob)
    = EntitySelectors.selectTotal Fixtures.aliceAndBob
  ∧ EntitySelectors.selectAll Fixtures.aliceAndBob
    ≡ₚ (map_to_list (EntitySelectors.selectEntities Fixtures.aliceAndBob)).*2.
Proof.
  apply (selectors_on_wellFormed Users.sortedAdapter Fixtures.aliceAndBob).
  apply aliceAndBob_wf.
Defined.

Lemma total_after_operations_witness :
  EntitySelectors.selectTotal
    (Entity.addOne Users.sortedAdapter Fixtures.aliceAndBob Fixtures.charlie)
    = S (EntitySelectors.selectTotal Fixtures.aliceAndBob)
  ∧ EntitySelectors.selectTotal
      (Entity.setOne Users.sortedAdapter Fixtures.aliceAndBob Samples.alicia)
    = EntitySelectors.selectTotal Fixtures.aliceAndBob
  ∧ S (EntitySelectors.selectTotal
         (Entity.removeOne Fixtures.aliceAndBob (Entity.numberId 1)))
    = EntitySelectors.selectTotal Fixtures.aliceAndBob.
Proof.
  pose proof (total_after_operations Users.sortedAdapter Fixtures.aliceAndBob
                Fixtures.charlie (Entity.numberId 1) aliceAndBob_wf)
    as (Hadd & _ & Hremove).
  pose proof (total_after_operations Users.sortedAdapter Fixtures.aliceAndBob
                Samples.alicia (Entity.numberId 1) aliceAndBob_wf)
    as (_ & Hset & _).
  split; [|split].
  - apply Hadd. reflexivity.
  - apply Hset. exists Fixtures.alice. reflexivity.
  - apply Hremove.
    + exists Fixtures.alice. reflexivity.
    + apply aliceAndBob_sameRepresentation.
Defined.

Lemma removeOne_keeps_sorted_witness :
  EntityInv.sortedState Users.sortedAdapter Fixtures.byName
    (Entity.removeOne Fixtures.aliceAndBob (Entity.numberId 1)).
Proof.
  apply (removeOne_keeps_sorted Users.sortedAdapter Fixtures.byName
           Fixtures.aliceAndBob (Entity.numberId 1)).
  - apply (consistentComparer_trans _ byName_consistent).
  - apply addMany_sortedState;
      [reflexivity
      |apply (consistentComparer_total _ byName_consistent)
      |by apply sortedState_initial].
  - apply aliceAndBob_sameRepresentation.
Defined.

Lemma removeOne_undoes_addOne_witness :
  Entity.removeOne
    (Entity.addOne Users.plainAdapter Fixtures.onlyAlice Fixtures.bob)
    (Entity.numberId 2)
  = Fixtures.onlyAlice.
Proof.
  destruct (removeOne_undoes_addOne Users.plainAdapter Fixtures.onlyAlice Fixtures.bob)
    as (_ & Hstate & _).
  - apply addOne_wf, wellFormed_initial.
  - reflexivity.
  - apply Hstate; [reflexivity|discriminate].
Defined.

Lemma setAll_is_addMany_from_empty_witness :
  Entity.setAll Users.plainAdapter Fixtures.onlyAlice [Fixtures.bob; Fixtures.charlie]
  = Entity.addMany Users.plainAdapter Entity.getInitialState
      [Fixtures.bob; Fixtures.charlie].
Proof.
  apply (setAll_is_addMany_from_empty Users.plainAdapter Fixtures.onlyAlice
           [Fixtures.bob; Fixtures.charlie]).
  - reflexivity.
  - apply (bool_decide_unpack _). vm_compute. exact I.
  - repeat constructor.
Defined.

Lemma cache_holds_only_the_last_inputs_witness :
  Selector.recomputations
    (Selector.invokeAll Fixtures.differZ Fixtures.pairSelectors Fixtures.sumResult
       Samples.alternating (Selector.create 0%Z))
  = 3.
Proof.
  apply (cache_holds_only_the_last_inputs Fixtures.differZ 0%Z
           Fixtures.pairSelectors Fixtures.sumResult Samples.alternating).
  repeat split; reflexivity.
Defined.

Lemma memoizedSelector_returns_resultFn_witness :
  (Selector.memoizedSelector Fixtures.differZ Fixtures.pairSelectors
     Fixtures.sumResult (1, 2)%Z
     (SelectorUse.runCalls Fixtures.differZ 0%Z Fixtures.pairSelectors
        Fixtures.sumResult
        [SelectorUse.Invoke (1, 2)%Z; SelectorUse.Release;
         SelectorUse.Invoke (2, 1)%Z]
        (Selector.create 0%Z))).1
  = Returned 3%Z
  ∧ (Selector.memoizedSelector Fixtures.differZ Fixtures.firstSelector
       Fixtures.doubleOrThrow (-1, 0)%Z
       (Selector.memoizedSelector Fixtures.differZ Fixtures.firstSelector
          Fixtures.doubleOrThrow (-1, 0)%Z
          (Selector.invokeAll Fixtures.differZ Fixtures.firstSelector
             Fixtures.doubleOrThrow [(4, 0)%Z] (Selector.create 0%Z))).2).1
    = Returned 8%Z.
Proof.
  split.
  - apply (proj1 (memoizedSelector_returns_resultFn Fixtures.differZ 0%Z
                    Fixtures.pairSelectors Fixtures.sumResult)).
    + intros l. by eexists.
    + intros l l' Hall. f_equal.
      assert (l = l') as ->; [|done].
      induction Hall as [|x y l l' Hxy _ IH]; [done|].
      rewrite IH. f_equal. unfold Fixtures.differZ in Hxy.
      apply bool_decide_eq_false in Hxy. by apply dec_stable in Hxy.
  - apply (proj2 (memoizedSelector_returns_resultFn Fixtures.differZ 0%Z
                    Fixtures.firstSelector Fixtures.doubleOrThrow)
             (Selector.invokeAll Fixtures.differZ Fixtures.firstSelector
                Fixtures.doubleOrThrow [(4, 0)%Z] (Selector.create 0%Z))
             (-1, 0)%Z "RangeError").
    + repeat constructor.
    + reflexivity.
    + reflexivity.
Defined.

Lemma unload_undoes_loadReducer_witness :
  ∃ unloadFn w',
    Lazy.loadReducer "admin" (Lazy.RUser "adminReducer") Fixtures.lazyConfigured
      = (Returned unloadFn, w') ∧
    Lazy.registry (unloadFn w') = Lazy.registry Fixtures.lazyConfigured ∧
    Lazy.activeReducer (unloadFn w')
      = Some (Lazy.getCombinedReducer (Lazy.registry Fixtures.lazyConfigured)).
Proof.
  apply (unload_undoes_loadReducer "admin" (Lazy.RUser "adminReducer")
           Fixtures.lazyConfigured); [reflexivity..|discriminate|reflexivity].
Defined.

Lemma registry_is_a_finite_map_witness :
  Lazy.getRegisteredKeys
    (Lazy.registry
       (LazyUse.runCalls
          [LazyUse.Register "users" (Lazy.RUser "usersReducer");
           LazyUse.Register "7" (Lazy.RUser "weekReducer");
           LazyUse.Unregister "users";
           LazyUse.Register "admin" (Lazy.RUser "adminReducer")]
          (LazyUse.newWorld true)))
  = ["7"; "admin"]
  ∧ NoDup
      (Lazy.getRegisteredKeys
         (Lazy.registry
            (LazyUse.runCalls
               [LazyUse.Register "users" (Lazy.RUser "usersReducer");
                LazyUse.Register "7" (Lazy.RUser "weekReducer");
                LazyUse.Unregister "users";
                LazyUse.Register "admin" (Lazy.RUser "adminReducer")]
               (LazyUse.newWorld true)))).
Proof.
  split; [reflexivity|].
  apply (registry_is_a_finite_map
           [LazyUse.Register "users" (Lazy.RUser "usersReducer");
            LazyUse.Register "7" (Lazy.RUser "weekReducer");
            LazyUse.Unregister "users";
            LazyUse.Register "admin" (Lazy.RUser "adminReducer")] true).
  repeat constructor; discriminate.
Defined.

Lemma onChange_unsubscribe_removes_listener_witness :
  Lazy.listeners
    (Lazy.registry
       (Lazy.onChange_unsubscribe 2 (Lazy.onChange 2 Fixtures.lazyConfigured)))
  = Lazy.listeners (Lazy.registry Fixtures.lazyConfigured).
Proof.
  apply (onChange_unsubscribe_removes_listener 2 Fixtures.lazyConfigured
           "admin" (Lazy.RUser "adminReducer")).
  simpl. intros Hin. apply list_elem_of_singleton in Hin. discriminate.
Defined.

Lemma rehydrateState_inverts_serializeStore_witness :
  Hydration.outcome
    (Hydration.rehydrateState Samples.flagParse (Hydration.SString "true") false None)
  = Returned true.
Proof.
  apply (rehydrateState_inverts_serializeStore Samples.flagStringify
           Samples.flagParse Samples.flagStore true false "true" None None).
  - intros [] r [= <-]; reflexivity.
  - reflexivity.
  - reflexivity.
Defined.

Lemma disabled_tracker_passes_through_witness :
  Tracker.getInfo <$>
    (snd <$> Tracker.dispatch Samples.typeOfString Samples.countingDispatch
               Samples.sizeOfCount 2 "INCREMENT" 5%Z
               (Tracker.disable (Tracker.enable (Tracker.newTracker 0%Z))))
  = Some Tracker.initialInfo.
Proof.
  rewrite (disabled_tracker_passes_through Samples.typeOfString
             Samples.countingDispatch Samples.sizeOfCount
             (Tracker.disable (Tracker.enable (Tracker.newTracker 0%Z)))
             "INCREMENT" 5%Z 0).
  - reflexivity.
  - split; reflexivity.
  - reflexivity.
Defined.

